(** * Testify.js: the suite runtime, its recorder and its assertions

    A shallow embedding of the two copies of the Testify runtime,
    [src/lib/Testify/Testify.js] and the bundled copy [src/unnamed/part_000],
    over a small model of the JavaScript values they handle.

    Layout:
    - [Js]: the fragment of JavaScript the runtime relies on (values,
      [ToBoolean], [==], [===], [Array.prototype.indexOf], property keys);
    - the state-and-exception monad [M];
    - the data model ([TestCase], [AssertionRecord], [CaseResult],
      [SuiteResults], [Testify]) and the methods of the prototype;
    - the world (heap of suite instances, [Testify.instances], the client's
      functions, the call trace) with [run], [report] and the client
      operations;
    - the helpers of the reports ([percent], [escapeHtml], and the
      bindings and filters of [Testify.report.html]);
    - the vocabulary of the statements;
    - the theorems: first those about the recorder, the assertions, the
      counters and the two copies, then (More of the runtime)
      registration, the invariants of reachable suites, what [run] leaves
      behind, and the helpers of the reports.

    Left out: [ajax] (it is all [XMLHttpRequest]), the Vue bindings and the
    markup of [Testify.report.html], [Testify.report.cli] (the string it
    builds is dropped), [getFileLine] (called from nowhere, and it calls a
    [trim] that is not defined). *)

From stdpp Require Import base gmap strings list fin_maps pretty relations.
From Stdlib Require Import ZArith Lia Permutation Ascii Sorted.

Local Open Scope string_scope.
Local Open Scope Z_scope.
Local Open Scope list_scope.

(** ** JavaScript values *)

Module Js.

(** Numbers are kept in exact decimal form, [m * 10^e]: every number
    literal and every numeric string denotes one.  The rounding and the range
    of IEEE doubles are not modelled, and [+0] and [-0] are one number (no
    operation of the runtime tells them apart).  The model is that of the
    engine on the numbers a double holds exactly and prints in full, the
    integers up to [2^53] among them; beyond them (["9007199254740993"],
    ["1e999"], [2^64]) the engine rounds, overflows or prints fewer digits
    where the model does not, and no statement below is about such a
    number. *)
Inductive number :=
  | NaN
  | Infinity (negative : bool)
  | Finite (m e : Z).

Definition int (z : Z) : number := Finite z 0.

Fixpoint strip_zeros (fuel : nat) (m e : Z) : Z * Z :=
  match fuel with
  | O => (m, e)
  | S fuel' => if m mod 10 =? 0 then strip_zeros fuel' (m / 10) (e + 1) else (m, e)
  end.

(** The normal form: mantissa not divisible by ten, zero as [(0, 0)]. *)
Definition normal (m e : Z) : Z * Z :=
  if m =? 0 then (0, 0) else strip_zeros (Z.to_nat (Z.log2_up (Z.abs m))) m e.

(** [Number::equal]: [NaN] equals nothing, itself included. *)
Definition number_eq (x y : number) : bool :=
  match x, y with
  | Infinity a, Infinity b => Bool.eqb a b
  | Finite m e, Finite m' e' =>
      let '(a, b) := normal m e in
      let '(a', b') := normal m' e' in
      (a =? a') && (b =? b')
  | _, _ => false
  end.

Inductive prim :=
  | JUndefined
  | JNull
  | JBool (b : bool)
  | JNumber (n : number)
  | JString (s : string).

(** An object is known by its identity and by what the runtime can observe
    of it: the outcome of [ToPrimitive] when [==] meets a primitive, the
    property key it converts to, and whether its [call] and [apply]
    properties are defined (both are for every function).  The conversions
    are taken to be pure. *)
Record object := Obj {
  identity : nat;
  to_primitive : prim;
  to_key : string;
  call_defined : bool;
  apply_defined : bool
}.

Inductive value :=
  | Prim (p : prim)
  | Object (o : object).

Coercion Prim : prim >-> value.

Definition num (z : Z) : value := JNumber (int z).

(** *** ToBoolean *)

Definition ToBoolean (v : value) : bool :=
  match v with
  | Prim JUndefined | Prim JNull => false
  | Prim (JBool b) => b
  | Prim (JNumber NaN) => false
  | Prim (JNumber (Infinity _)) => true
  | Prim (JNumber (Finite m _)) => negb (m =? 0)
  | Prim (JString s) => negb (String.eqb s "")
  | Object _ => true
  end.

(** [a || b] *)
Definition or_else (a b : value) : value := if ToBoolean a then a else b.

(** *** ToNumber on strings (StringNumericLiteral)

    Strings are strings of bytes here: the white space that is trimmed is
    the ASCII one (space, tab, line feed, vertical tab, form feed, carriage
    return), not the no-break space, the byte order mark or the other
    Unicode spaces and line terminators the engine trims too; and the
    number read is the exact decimal, where the engine rounds to a
    double. *)

Definition is_space (c : ascii) : bool :=
  let n := Z.of_N (N_of_ascii c) in
  (n =? 32) || ((9 <=? n) && (n <=? 13)).

Fixpoint ltrim (s : string) : string :=
  match s with
  | String c r => if is_space c then ltrim r else s
  | EmptyString => s
  end.

Definition trim (s : string) : string :=
  String.rev (ltrim (String.rev (ltrim s))).

Definition digit_val (base : Z) (c : ascii) : option Z :=
  let n := Z.of_N (N_of_ascii c) in
  let d := if (48 <=? n) && (n <=? 57) then n - 48
           else if (97 <=? n) && (n <=? 122) then n - 87
           else if (65 <=? n) && (n <=? 90) then n - 55
           else base in
  if d <? base then Some d else None.

(** The leading digits of [s] in [base], their value, how many there are,
    and the rest of [s]. *)
Fixpoint span_digits (base acc : Z) (k : nat) (s : string) : Z * nat * string :=
  match s with
  | String c r =>
      match digit_val base c with
      | Some d => span_digits base (acc * base + d) (S k) r
      | None => (acc, k, s)
      end
  | EmptyString => (acc, k, s)
  end.

Definition radix_literal (base : Z) (s : string) : number :=
  match span_digits base 0 0 s with
  | (v, S _, EmptyString) => Finite v 0
  | _ => NaN
  end.

Definition signed (s : string) : bool * string :=
  match s with
  | String "+"%char r => (false, r)
  | String "-"%char r => (true, r)
  | _ => (false, s)
  end.

Definition exponent_part (s : string) : option Z :=
  match s with
  | EmptyString => Some 0
  | String c r =>
      if (Ascii.eqb c "e"%char || Ascii.eqb c "E"%char)%bool then
        let '(neg, ds) := signed r in
        match span_digits 10 0 0 ds with
        | (v, S _, EmptyString) => Some (if neg then - v else v)
        | _ => None
        end
      else None
  end.

Definition unsigned_decimal (neg : bool) (s : string) : number :=
  if String.eqb s "Infinity" then Infinity neg else
  let '(ip, ki, r1) := span_digits 10 0 0 s in
  let '(m, kf, r2) :=
    match r1 with
    | String "."%char r => span_digits 10 ip 0 r
    | _ => (ip, O, r1)
    end in
  match (ki + kf)%nat, exponent_part r2 with
  | S _, Some x => Finite (if neg then - m else m) (x - Z.of_nat kf)
  | _, _ => NaN
  end.

Definition StringToNumber (s : string) : number :=
  match trim s with
  | EmptyString => Finite 0 0
  | String "0"%char (String c r) as t =>
      if (Ascii.eqb c "x"%char || Ascii.eqb c "X"%char)%bool then radix_literal 16 r
      else if (Ascii.eqb c "o"%char || Ascii.eqb c "O"%char)%bool then radix_literal 8 r
      else if (Ascii.eqb c "b"%char || Ascii.eqb c "B"%char)%bool then radix_literal 2 r
      else unsigned_decimal false t
  | t => let '(neg, r) := signed t in unsigned_decimal neg r
  end.

(** *** ToString on numbers (Number::toString, radix 10)

    All the digits of the exact decimal are printed, as the engine does for
    a decimal of up to 15 significant digits within the range of the
    doubles, and for the integers up to [2^53]. *)

Definition zeros (n : Z) : string := String.concat "" (repeat "0" (Z.to_nat n)).

Definition exponent_suffix (n : Z) : string :=
  "e" +:+ (if n - 1 <? 0 then "-" else "+") +:+ pretty (Z.abs (n - 1)).

Definition NumberToString (x : number) : string :=
  match x with
  | NaN => "NaN"
  | Infinity neg => if neg then "-Infinity" else "Infinity"
  | Finite m e =>
      let '(s, e') := normal m e in
      if s =? 0 then "0" else
      let ds := pretty (Z.abs s) in
      let k := Z.of_nat (String.length ds) in
      let n := k + e' in
      (if s <? 0 then "-" else "") +:+
      (if (k <=? n) && (n <=? 21) then ds +:+ zeros (n - k)
       else if (0 <? n) && (n <=? 21) then
         String.substring 0 (Z.to_nat n) ds +:+ "." +:+ String.substring (Z.to_nat n) (Z.to_nat (k - n)) ds
       else if (-6 <? n) && (n <=? 0) then "0." +:+ zeros (- n) +:+ ds
       else if k =? 1 then ds +:+ exponent_suffix n
       else String.substring 0 1 ds +:+ "." +:+ String.substring 1 (Z.to_nat (k - 1)) ds +:+ exponent_suffix n)
  end.

Definition PrimToString (p : prim) : string :=
  match p with
  | JUndefined => "undefined"
  | JNull => "null"
  | JBool b => if b then "true" else "false"
  | JNumber n => NumberToString n
  | JString s => s
  end.

(** The key under which [o[v]] reads and writes. *)
Definition ToPropertyKey (v : value) : string :=
  match v with
  | Prim p => PrimToString p
  | Object o => to_key o
  end.

(** *** [===] and [==] *)

Definition prim_strict_eq (x y : prim) : bool :=
  match x, y with
  | JUndefined, JUndefined => true
  | JNull, JNull => true
  | JBool a, JBool b => Bool.eqb a b
  | JNumber a, JNumber b => number_eq a b
  | JString a, JString b => String.eqb a b
  | _, _ => false
  end.

Definition strict_eq (x y : value) : bool :=
  match x, y with
  | Prim p, Prim q => prim_strict_eq p q
  | Object a, Object b => Nat.eqb (identity a) (identity b)
  | _, _ => false
  end.

(** A boolean operand of [==] is first replaced by its number. *)
Definition unbool (p : prim) : prim :=
  match p with
  | JBool b => JNumber (int (if b then 1 else 0))
  | _ => p
  end.

Definition prim_loose_eq (x y : prim) : bool :=
  match x, y with
  | JUndefined, JNull | JNull, JUndefined => true
  | JBool _, JBool _ => prim_strict_eq x y
  | _, _ =>
      match unbool x, unbool y with
      | JNumber a, JString s => number_eq a (StringToNumber s)
      | JString s, JNumber b => number_eq (StringToNumber s) b
      | a, b => prim_strict_eq a b
      end
  end.

Definition loose_eq (x y : value) : bool :=
  match x, y with
  | Prim p, Prim q => prim_loose_eq p q
  | Object a, Object b => Nat.eqb (identity a) (identity b)
  | Prim (JUndefined | JNull), Object _ | Object _, Prim (JUndefined | JNull) => false
  | Prim p, Object o => prim_loose_eq p (to_primitive o)
  | Object o, Prim p => prim_loose_eq (to_primitive o) p
  end.

(** *** [Array.prototype.indexOf]: a scan from the left with [===] *)

Fixpoint indexOf_from (i : Z) (arr : list value) (x : value) : Z :=
  match arr with
  | [] => -1
  | y :: rest => if strict_eq y x then i else indexOf_from (i + 1) rest x
  end.

Definition indexOf (arr : list value) (x : value) : Z := indexOf_from 0 arr x.

(** *** [String.prototype.indexOf]: the place of the first occurrence of
    [ToString(x)], which for a value is the string of its property key *)

Definition ToString (v : value) : string := ToPropertyKey v.

Definition String_indexOf (s : string) (x : value) : Z :=
  match String.index 0 (ToString x) s with
  | Some n => Z.of_nat n
  | None => -1
  end.

(** *** [arr.indexOf(arg)], whatever [arr] is

    What a caller can pass for [arr]: an array, or a primitive value (a
    missing argument is [undefined]).  A string has an [indexOf] of its own;
    [undefined] and [null] have no properties, and a number or a boolean has
    no [indexOf] to call.  An object that is not an array, with whatever
    [indexOf] it may carry, is not modelled. *)
Inductive haystack :=
  | Array (elements : list value)
  | NotArray (p : prim).

End Js.

Import Js.

(** ** State and exceptions *)

Inductive exn :=
  | TypeError
  | ReferenceError
  | TestifyException (message : string)
  | Uncaught (v : value).

Inductive completion (A : Type) :=
  | Normal (a : A)
  | Thrown (e : exn).

Arguments Normal {A} a.
Arguments Thrown {A} e.

(** A computation over a mutable state [S] that returns or throws; what it
    wrote before throwing stays written. *)
Definition M (S A : Type) : Type := S -> completion A * S.

Definition ret {S A} (a : A) : M S A := fun s => (Normal a, s).

Definition throw {S A} (e : exn) : M S A := fun s => (Thrown e, s).

Definition bind {S A B} (m : M S A) (k : A -> M S B) : M S B :=
  fun s =>
    match m s with
    | (Normal a, s') => k a s'
    | (Thrown e, s') => (Thrown e, s')
    end.

Definition get {S} : M S S := fun s => (Normal s, s).

Definition modify {S} (f : S -> S) : M S unit := fun s => (Normal tt, f s).

Notation "'let!' x ':=' m 'in' k" := (bind m (fun x => k))
  (at level 10, x name, m at level 100, k at level 200).

Notation "m1 ;;; m2" := (bind m1 (fun _ => m2))
  (at level 100, m2 at level 200, right associativity).

Definition when {S} (c : bool) (m : M S unit) : M S unit :=
  if c then m else ret tt.

Fixpoint for_each {S A} (body : A -> M S unit) (l : list A) : M S unit :=
  match l with
  | [] => ret tt
  | x :: rest => body x ;;; for_each body rest
  end.

(** ** Data model *)

Module TestCase.
Record t := mk { name : value; testCase : value; pass : nat; fail : nat }.
End TestCase.

Module AssertionRecord.
Record t := mk {
  name : value;
  type : string;
  result : string;
  line : nat;
  file : string;
  source : string
}.
End AssertionRecord.

Module CaseResult.
Record t := mk {
  name : value;
  tests : list AssertionRecord.t;
  pass : nat;
  fail : nat
}.

(** [item.tests.push(r)] *)
Definition push (r : AssertionRecord.t) (item : t) : t :=
  mk (name item) (tests item ++ [r]) (pass item) (fail item).

(** [item[result]++], for the two counters an item has *)
Definition incr (result : string) (item : t) : t :=
  if String.eqb result "pass" then mk (name item) (tests item) (S (pass item)) (fail item)
  else if String.eqb result "fail" then mk (name item) (tests item) (pass item) (S (fail item))
  else item.
End CaseResult.

Module SuiteResults.
Record t := mk { pass : nat; fail : nat }.

Definition incr (result : string) (r : t) : t :=
  if String.eqb result "pass" then mk (S (pass r)) (fail r)
  else if String.eqb result "fail" then mk (pass r) (S (fail r))
  else r.
End SuiteResults.

(** The instance state set up by the constructor.  [stack] is the object
    used as a map from case name to its results, kept as a finite map over
    its own properties; what a read finds further up, on
    [Object.prototype], is in [inherited] below.  [isCLI_arg] is the
    constructor argument the [isCLI] closure captures. *)
Record Testify := mkTestify {
  testIndex : nat;
  tests : list TestCase.t;
  stack : gmap string CaseResult.t;
  fileCache : list string;
  currentTestCase : value;
  suiteTitle : value;
  suiteResults : SuiteResults.t;
  _before : value;
  _after : value;
  _beforeEach : value;
  _afterEach : value;
  data : gmap string value;
  isCLI_arg : value
}.

Definition Constructor (title isCLI : value) : Testify :=
  {| testIndex := 0;
     tests := [];
     stack := ∅;
     fileCache := [];
     currentTestCase := JNull;
     suiteTitle := title;
     suiteResults := SuiteResults.mk 0 0;
     _before := JNull;
     _after := JNull;
     _beforeEach := JNull;
     _afterEach := JNull;
     data := ∅;
     isCLI_arg := isCLI |}.

Definition isCLI (this : Testify) : value := or_else (isCLI_arg this) (JBool false).

Definition set_testIndex (n : nat) (s : Testify) : Testify :=
  mkTestify n (tests s) (stack s) (fileCache s) (currentTestCase s) (suiteTitle s)
    (suiteResults s) (_before s) (_after s) (_beforeEach s) (_afterEach s) (data s) (isCLI_arg s).

Definition set_tests (l : list TestCase.t) (s : Testify) : Testify :=
  mkTestify (testIndex s) l (stack s) (fileCache s) (currentTestCase s) (suiteTitle s)
    (suiteResults s) (_before s) (_after s) (_beforeEach s) (_afterEach s) (data s) (isCLI_arg s).

Definition set_stack (m : gmap string CaseResult.t) (s : Testify) : Testify :=
  mkTestify (testIndex s) (tests s) m (fileCache s) (currentTestCase s) (suiteTitle s)
    (suiteResults s) (_before s) (_after s) (_beforeEach s) (_afterEach s) (data s) (isCLI_arg s).

Definition set_currentTestCase (v : value) (s : Testify) : Testify :=
  mkTestify (testIndex s) (tests s) (stack s) (fileCache s) v (suiteTitle s)
    (suiteResults s) (_before s) (_after s) (_beforeEach s) (_afterEach s) (data s) (isCLI_arg s).

Definition set_suiteResults (r : SuiteResults.t) (s : Testify) : Testify :=
  mkTestify (testIndex s) (tests s) (stack s) (fileCache s) (currentTestCase s) (suiteTitle s)
    r (_before s) (_after s) (_beforeEach s) (_afterEach s) (data s) (isCLI_arg s).

Definition set_before (v : value) (s : Testify) : Testify :=
  mkTestify (testIndex s) (tests s) (stack s) (fileCache s) (currentTestCase s) (suiteTitle s)
    (suiteResults s) v (_after s) (_beforeEach s) (_afterEach s) (data s) (isCLI_arg s).

Definition set_after (v : value) (s : Testify) : Testify :=
  mkTestify (testIndex s) (tests s) (stack s) (fileCache s) (currentTestCase s) (suiteTitle s)
    (suiteResults s) (_before s) v (_beforeEach s) (_afterEach s) (data s) (isCLI_arg s).

Definition set_beforeEach (v : value) (s : Testify) : Testify :=
  mkTestify (testIndex s) (tests s) (stack s) (fileCache s) (currentTestCase s) (suiteTitle s)
    (suiteResults s) (_before s) (_after s) v (_afterEach s) (data s) (isCLI_arg s).

Definition set_afterEach (v : value) (s : Testify) : Testify :=
  mkTestify (testIndex s) (tests s) (stack s) (fileCache s) (currentTestCase s) (suiteTitle s)
    (suiteResults s) (_before s) (_after s) (_beforeEach s) v (data s) (isCLI_arg s).

(** The two copies of the runtime, and what a copy finds in its scope:
    [printStackTrace] is the function of stacktrace.js that
    [src/lib/Testify/Testify.js] calls in [recordTest]; it is not part of this
    repository, and all that is used of it is that it returns an array of
    strings. *)
Inductive copy := lib_Testify_js | part_000.

Record environment := Env {
  file : copy;
  printStackTrace : Testify -> list string
}.

(** The names under which [Object.prototype] has a member in the engines the
    runtime is written for (those of ES5 and of its Annex B): a function
    each, but for [__proto__], which gives [Object.prototype] itself.  All
    are truthy and none has a property [tests].  [this.stack] is a plain
    object, so reading [this.stack[key]] finds them when the object has no
    property of its own under [key]. *)
Definition Object_prototype : list string :=
  ["constructor"; "toString"; "toLocaleString"; "valueOf"; "hasOwnProperty";
   "isPrototypeOf"; "propertyIsEnumerable"; "__proto__";
   "__defineGetter__"; "__defineSetter__"; "__lookupGetter__"; "__lookupSetter__"].

Definition inherited (key : string) : bool := bool_decide (key ∈ Object_prototype).

(** ** The methods of an instance *)

Section Methods.

Variable env : environment.

(** What the two copies spell differently. *)
Definition per_copy {A} (in_lib in_part_000 : A) : A :=
  match file env with
  | lib_Testify_js => in_lib
  | part_000 => in_part_000
  end.

(** [isCallable(fn)]: [fn.call !== undefined && fn.apply !== undefined].
    Reading a property of [undefined] or [null] throws; a boolean, a number
    and a string have neither property. *)
Definition isCallable {S} (fn : value) : M S bool :=
  match fn with
  | Prim (JUndefined | JNull) => throw TypeError
  | Prim _ => ret false
  | Object o => ret (call_defined o && apply_defined o)
  end.

(** [recordTest.call(this, pass, message)].  [item] is what
    [this.stack[this.currentTestCase]] gives: the entry of the case, a
    reference, so that pushing to [item.tests] and incrementing
    [item[result]] update the entry in place; or, where [this.stack] has no
    such entry and the key names a member of [Object.prototype], that
    member: then no entry is made, [this.testIndex++] is done, and
    [item.tests.push] is a call on [undefined].  The [printStackTrace] of
    [src/lib/Testify/Testify.js] is taken to return, and to change
    nothing. *)
Definition recordTest (pass : bool) (message : value) : M Testify bool :=
  let message := or_else message (JString (per_copy "" "Testify.recordTest")) in
  let! this := get in
  let bt := per_copy (String.concat "," (printStackTrace env this)) "" in
  let source := "" in
  let result := if pass then "pass" else "fail" in
  let key := ToPropertyKey (currentTestCase this) in
  let own := bool_decide (is_Some (stack this !! key)) in
  let item_is_inherited := negb own && inherited key in
  when (negb own && negb (inherited key))
    (modify (fun this =>
       set_stack (<[key := CaseResult.mk (currentTestCase this) [] 0 0]> (stack this)) this)) ;;;
  modify (fun this => set_testIndex (S (testIndex this)) this) ;;;
  (if item_is_inherited then throw TypeError else ret tt) ;;;
  modify (fun this =>
    set_stack (alter (CaseResult.push
      (AssertionRecord.mk message bt result (testIndex this) "" source)) key (stack this)) this) ;;;
  modify (fun this => set_stack (alter (CaseResult.incr result) key (stack this)) this) ;;;
  modify (fun this => set_suiteResults (SuiteResults.incr result (suiteResults this)) this) ;;;
  ret pass.

Definition affirmCallable (callback : value) (name : string) : M Testify unit :=
  let! callable := isCallable callback in
  if negb callable
  then throw (TestifyException (name +:+ "(): is not a valid callback function!"))
  else ret tt.

(** [test(name, testCase)]; the method returns [this]. *)
Definition test (name testCase : value) : M Testify unit :=
  let! named := isCallable name in
  let! this := get in
  let testCase' := if named then name else testCase in
  let name' :=
    if named
    then Prim (JString ("Test Case #" +:+ NumberToString (int (Z.of_nat (length (tests this) + 1)))))
    else name in
  affirmCallable testCase' "test" ;;;
  modify (fun this => set_tests (tests this ++ [TestCase.mk name' testCase' 0 0]) this).

Definition before (callback : value) : M Testify unit :=
  affirmCallable callback "before" ;;; modify (set_before callback).

Definition after (callback : value) : M Testify unit :=
  affirmCallable callback "after" ;;; modify (set_after callback).

Definition beforeEach (callback : value) : M Testify unit :=
  affirmCallable callback "beforeEach" ;;; modify (set_beforeEach callback).

Definition afterEach (callback : value) : M Testify unit :=
  affirmCallable callback "afterEach" ;;; modify (set_afterEach callback).

Definition assertTrue (arg message : value) : M Testify bool :=
  let message := or_else message (JString "Testify.assertTrue") in
  recordTest (loose_eq arg (JBool true)) message.

Definition assert (arg message : value) : M Testify bool :=
  let message := or_else message (JString (per_copy "" "Testify.assert")) in
  assertTrue arg message.

Definition assertFalse (arg message : value) : M Testify bool :=
  let message := or_else message (JString "Testify.assertFalse") in
  recordTest (loose_eq arg (JBool false)) message.

Definition assertEquals (arg1 arg2 message : value) : M Testify bool :=
  let message := or_else message (JString "Testify.assertEquals") in
  recordTest (loose_eq arg1 arg2) message.

Definition assertNotEquals (arg1 arg2 message : value) : M Testify bool :=
  let message := or_else message (JString "Testify.assertNotEquals") in
  recordTest (negb (loose_eq arg1 arg2)) message.

Definition assertSame (arg1 arg2 message : value) : M Testify bool :=
  let message := or_else message (JString "Testify.assertSame") in
  recordTest (strict_eq arg1 arg2) message.

Definition assertNotSame (arg1 arg2 message : value) : M Testify bool :=
  let message := or_else message (JString "Testify.assertNotSame") in
  recordTest (negb (strict_eq arg1 arg2)) message.

(** [arr.indexOf(arg)], evaluated before [recordTest] is called. *)
Definition arr_indexOf (arr : haystack) (arg : value) : M Testify Z :=
  match arr with
  | Array elements => ret (indexOf elements arg)
  | NotArray (JString s) => ret (String_indexOf s arg)
  | NotArray _ => throw TypeError
  end.

Definition assertInArray (arg : value) (arr : haystack) (message : value) : M Testify bool :=
  let message := or_else message (JString "Testify.assertInArray") in
  let! i := arr_indexOf arr arg in
  recordTest (i >? -1) message.

Definition assertNotInArray (arg : value) (arr : haystack) (message : value) : M Testify bool :=
  let message := or_else message (JString "Testify.assertNotInArray") in
  let! i := arr_indexOf arr arg in
  recordTest (negb (i >? -1)) message.

Definition pass (message : value) : M Testify bool :=
  let message := or_else message (JString "Testify.pass") in
  recordTest true message.

Definition fail (message : value) : M Testify bool :=
  let message := or_else message (JString "Testify.fail") in
  recordTest false message.

Definition assertEqual (arg1 arg2 message : value) : M Testify bool :=
  let message := or_else message (JString (per_copy "" "Testify.assertEqual")) in
  assertEquals arg1 arg2 message.

Definition assertIdentical (arg1 arg2 message : value) : M Testify bool :=
  let message := or_else message (JString "Testify.assertIdentical") in
  recordTest (strict_eq arg1 arg2) message.

End Methods.

(** ** Client code and the world *)

(** One call of an assertion method by client code, with its arguments; an
    omitted argument is [undefined].  Client code gives [assertInArray] and
    [assertNotInArray] an array, as their documentation asks. *)
Inductive assertion :=
  | call_assert (arg message : value)
  | call_assertTrue (arg message : value)
  | call_assertFalse (arg message : value)
  | call_assertEquals (arg1 arg2 message : value)
  | call_assertNotEquals (arg1 arg2 message : value)
  | call_assertSame (arg1 arg2 message : value)
  | call_assertNotSame (arg1 arg2 message : value)
  | call_assertInArray (arg : value) (arr : list value) (message : value)
  | call_assertNotInArray (arg : value) (arr : list value) (message : value)
  | call_pass (message : value)
  | call_fail (message : value)
  | call_assertEqual (arg1 arg2 message : value)
  | call_assertIdentical (arg1 arg2 message : value).

Definition dispatch (env : environment) (a : assertion) : M Testify bool :=
  match a with
  | call_assert arg message => assert env arg message
  | call_assertTrue arg message => assertTrue env arg message
  | call_assertFalse arg message => assertFalse env arg message
  | call_assertEquals arg1 arg2 message => assertEquals env arg1 arg2 message
  | call_assertNotEquals arg1 arg2 message => assertNotEquals env arg1 arg2 message
  | call_assertSame arg1 arg2 message => assertSame env arg1 arg2 message
  | call_assertNotSame arg1 arg2 message => assertNotSame env arg1 arg2 message
  | call_assertInArray arg arr message => assertInArray env arg (Array arr) message
  | call_assertNotInArray arg arr message => assertNotInArray env arg (Array arr) message
  | call_pass message => pass env message
  | call_fail message => fail env message
  | call_assertEqual arg1 arg2 message => assertEqual env arg1 arg2 message
  | call_assertIdentical arg1 arg2 message => assertIdentical env arg1 arg2 message
  end.

(** The body of a hook or of a test case, as far as the runtime is
    concerned: the assertions it calls, each on its receiver ([this], one of
    its arguments, or an instance it holds a reference to), how it goes on
    from each outcome, and whether it returns or throws in the end. *)
Inductive receiver :=
  | This
  | Arg (n : nat)
  | Instance (r : nat).

Inductive prog :=
  | Return
  | Throw (v : value)
  | Call (on : receiver) (a : assertion) (k : bool -> prog).

(** What the trace keeps: a callback applied by [run], an assertion method
    called by client code, a report produced. *)
Inductive event :=
  | Applied (f : nat) (this : nat) (args : list nat)
  | Asserted (r : nat) (a : assertion)
  | Reported (r : nat).

(** The instances by reference, the functions of the client by the identity
    of the function object, the global [Testify.instances] (bundled copy
    only), and the trace of calls so far. *)
Record world := mkWorld {
  suites : gmap nat Testify;
  functions : gmap nat prog;
  instances : list nat;
  trace : list event
}.

Definition set_suite (r : nat) (s : Testify) (w : world) : world :=
  mkWorld (<[r := s]> (suites w)) (functions w) (instances w) (trace w).

Definition log (ev : event) : M world unit :=
  modify (fun w => mkWorld (suites w) (functions w) (instances w) (trace w ++ [ev])).

(** The instance behind a reference. *)
Definition suite (r : nat) : M world Testify :=
  fun w =>
    match suites w !! r with
    | Some s => (Normal s, w)
    | None => (Thrown ReferenceError, w)
    end.

(** A method of instance [r], run on its state. *)
Definition on_suite {A} (r : nat) (m : M Testify A) : M world A :=
  let! s := suite r in
  fun w => let '(c, s') := m s in (c, set_suite r s' w).

Inductive returned :=
  | Undefined
  | Boolean (b : bool)
  | Reference (r : nat).

Section Runtime.

Variable env : environment.

(** Client code calls assertion [a] on instance [r]. *)
Definition call_assertion (r : nat) (a : assertion) : M world bool :=
  suite r ;;; log (Asserted r a) ;;; on_suite r (dispatch env a).

Definition resolve (on : receiver) (this : nat) (args : list nat) : option nat :=
  match on with
  | This => Some this
  | Arg n => args !! n
  | Instance r => Some r
  end.

Fixpoint run_prog (p : prog) (this : nat) (args : list nat) : M world unit :=
  match p with
  | Return => ret tt
  | Throw v => throw (Uncaught v)
  | Call on a k =>
      match resolve on this args with
      | Some r => let! b := call_assertion r a in run_prog (k b) this args
      | None => throw TypeError
      end
  end.

(** [f.apply(this, args)]: the function behind the object runs, with its
    receiver and arguments; an [apply] that is no function cannot be called. *)
Definition apply (f : value) (this : nat) (args : list nat) : M world unit :=
  match f with
  | Prim _ => throw TypeError
  | Object o =>
      let! w := get in
      match apply_defined o, functions w !! identity o with
      | true, Some p => log (Applied (identity o) this args) ;;; run_prog p this args
      | _, _ => throw TypeError
      end
  end.

(** [report()]: both branches on [this.isCLI()] are empty in the source. *)
Definition report (r : nat) : M world returned :=
  let! this := suite r in
  (if ToBoolean (isCLI this) then ret tt else ret tt) ;;;
  log (Reported r) ;;;
  ret (Reference r).

(** [hook !== null && isCallable(hook)] *)
Definition set_and_callable (hook : value) : M world bool :=
  if negb (strict_eq hook JNull) then isCallable hook else ret false.

(** [run()].  The two copies differ in the test of the [before] hook and in
    the last statement but one. *)
Definition run (r : nat) : M world returned :=
  let arr := [r] in
  let! this := suite r in
  let! go := per_copy env (isCallable (_before this)) (set_and_callable (_before this)) in
  when go (apply (_before this) r arr) ;;;
  let! this := suite r in
  for_each (fun test =>
    on_suite r (modify (set_currentTestCase (TestCase.name test))) ;;;
    let! this := suite r in
    let! go := set_and_callable (_beforeEach this) in
    when go (apply (_beforeEach this) r arr) ;;;
    apply (TestCase.testCase test) r arr ;;;
    let! this := suite r in
    let! go := set_and_callable (_afterEach this) in
    when go (apply (_afterEach this) r arr)) (tests this) ;;;
  let! this := suite r in
  let! go := set_and_callable (_after this) in
  when go (apply (_after this) r arr) ;;;
  report r ;;;
  per_copy env (ret tt)
    (modify (fun w => mkWorld (suites w) (functions w) (instances w ++ [r]) (trace w))) ;;;
  ret (Reference r).

(** [new Testify(title, isCLI)] *)
Definition new (title isCLI : value) : M world returned :=
  fun w =>
    let r := fresh (dom (suites w)) in
    (Normal (Reference r), set_suite r (Constructor title isCLI) w).

(** The calls client code can make. *)
Inductive op :=
  | New (title isCLI : value)
  | Test (r : nat) (name testCase : value)
  | Before (r : nat) (callback : value)
  | After (r : nat) (callback : value)
  | BeforeEach (r : nat) (callback : value)
  | AfterEach (r : nat) (callback : value)
  | Run (r : nat)
  | Assertion (r : nat) (a : assertion)
  | Report (r : nat)
  | AffirmCallable (r : nat) (callback : value) (name : string).

Definition exec (o : op) : M world returned :=
  match o with
  | New title isCLI => new title isCLI
  | Test r name testCase => on_suite r (test name testCase) ;;; ret (Reference r)
  | Before r callback => on_suite r (before callback) ;;; ret Undefined
  | After r callback => on_suite r (after callback) ;;; ret Undefined
  | BeforeEach r callback => on_suite r (beforeEach callback) ;;; ret Undefined
  | AfterEach r callback => on_suite r (afterEach callback) ;;; ret Undefined
  | Run r => run r
  | Assertion r a => let! b := call_assertion r a in ret (Boolean b)
  | Report r => report r
  | AffirmCallable r callback name => on_suite r (affirmCallable callback name) ;;; ret Undefined
  end.

(** A client program: its calls in order.  A call that throws leaves its
    partial effects, and the client may go on (having caught the error). *)
Fixpoint exec_all (ops : list op) (w : world) : list (completion returned) * world :=
  match ops with
  | [] => ([], w)
  | o :: rest =>
      let '(c, w') := exec o w in
      let '(cs, w'') := exec_all rest w' in
      (c :: cs, w'')
  end.

End Runtime.

(** The world before any instance is made, with the client's functions. *)
Definition initial (fs : gmap nat prog) : world := mkWorld ∅ fs [] [].

(** The worlds a client program can reach. *)
Inductive reachable (env : environment) (fs : gmap nat prog) : world -> Prop :=
  | reachable_initial : reachable env fs (initial fs)
  | reachable_exec w o : reachable env fs w -> reachable env fs (exec env o w).2.

(** ** The helpers of the reports

    [percent] and [escapeHtml] of [src/unnamed/part_002] (repeated in the
    bundle), and the bindings and filters of [Testify.report.html]
    ([src/unnamed/part_001] and the bundle). *)

(** [Math.round(a / b)] for integers [a] and [b > 0]: the nearest integer, a
    tie going up.  The quotient is taken exactly; for counters below [2^45]
    the double the source divides into rounds to the same integer. *)
Definition Math_round_div (a b : Z) : Z := (2 * a + b) / (2 * b).

Definition percent (suiteResults : SuiteResults.t) : Z :=
  let sum := Z.of_nat (SuiteResults.pass suiteResults) +
             Z.of_nat (SuiteResults.fail suiteResults) in
  let result :=
    Math_round_div (Z.of_nat (SuiteResults.pass suiteResults) * 100) (Z.max sum 1) in
  result.

(** The [map] of [escapeHtml], extended by the identity to the characters
    the regular expression of the source leaves alone (the five it replaces
    are the ampersand, the two angle brackets and the two quotes). *)
Definition escape_char (m : ascii) : string :=
  if Ascii.eqb m "&"%char then "&amp;"
  else if Ascii.eqb m "<"%char then "&lt;"
  else if Ascii.eqb m ">"%char then "&gt;"
  else if Ascii.eqb m "034"%char then "&quot;"
  else if Ascii.eqb m "'"%char then "&#039;"
  else String m "".

Fixpoint replace_specials (text : string) : string :=
  match text with
  | EmptyString => ""
  | String m rest => escape_char m +:+ replace_specials rest
  end.

(** [escapeHtml(text)]: [(text || '').replace(...)].  A truthy number or
    boolean has no [replace] to call. *)
Definition escapeHtml (text : prim) : completion string :=
  match or_else text (JString "") with
  | Prim (JString s) => Normal (replace_specials s)
  | _ => Thrown TypeError
  end.

(** [result] in the data of the report:
    [testify.suiteResults.fail == 0 ? 'pass' : 'fail']. *)
Definition report_result (testify : Testify) : string :=
  if (SuiteResults.fail (suiteResults testify) =? 0)%nat then "pass" else "fail".

(** The filter [caseClass]: [fail > 0 ? 'fail' : 'pass']. *)
Definition caseClass (fail : nat) : string :=
  if (0 <? fail)%nat then "fail" else "pass".

(** The filter [identification]:
    [test.name == '' ? test.type + '()' : test.name]. *)
Definition identification (test : AssertionRecord.t) : value :=
  if loose_eq (AssertionRecord.name test) (JString "")
  then Prim (JString (AssertionRecord.type test +:+ "()"))
  else AssertionRecord.name test.

(** * Vocabulary of the statements *)

Definition current_key (s : Testify) : string := ToPropertyKey (currentTestCase s).

(** The results of the current case, as [recordTest] finds or creates them. *)
Definition current_item (s : Testify) : CaseResult.t :=
  default (CaseResult.mk (currentTestCase s) [] 0 0) (stack s !! current_key s).

Definition outcome (pass : bool) : string := if pass then "pass" else "fail".


(** A record made now is filed: the current case has an entry of its own,
    or its key is not the name of a member of [Object.prototype]. *)
Definition files (s : Testify) : bool :=
  bool_decide (is_Some (stack s !! current_key s)) || negb (inherited (current_key s)).

(** The state after a recording that got no further than [testIndex++]. *)
Definition skipped (s : Testify) : Testify := set_testIndex (S (testIndex s)) s.

(** The state after one recording that appended [r]. *)
Definition recorded (r : AssertionRecord.t) (s : Testify) : Testify :=
  set_suiteResults (SuiteResults.incr (AssertionRecord.result r) (suiteResults s))
    (set_stack (<[current_key s :=
        CaseResult.incr (AssertionRecord.result r) (CaseResult.push r (current_item s))]> (stack s))
      (set_testIndex (S (testIndex s)) s)).

Definition bt_toString (env : environment) (s : Testify) : string :=
  per_copy env (String.concat "," (printStackTrace env s)) "".

(** What an assertion call decides, and the message it records. *)
Definition verdict (a : assertion) : bool :=
  match a with
  | call_assert arg _ | call_assertTrue arg _ => loose_eq arg (JBool true)
  | call_assertFalse arg _ => loose_eq arg (JBool false)
  | call_assertEquals arg1 arg2 _ | call_assertEqual arg1 arg2 _ => loose_eq arg1 arg2
  | call_assertNotEquals arg1 arg2 _ => negb (loose_eq arg1 arg2)
  | call_assertSame arg1 arg2 _ | call_assertIdentical arg1 arg2 _ => strict_eq arg1 arg2
  | call_assertNotSame arg1 arg2 _ => negb (strict_eq arg1 arg2)
  | call_assertInArray arg arr _ => indexOf arr arg >? -1
  | call_assertNotInArray arg arr _ => negb (indexOf arr arg >? -1)
  | call_pass _ => true
  | call_fail _ => false
  end.

(** What [isCallable] lets through: an object with [call] and [apply]. *)
Definition callable (v : value) : Prop :=
  ∃ o, v = Object o ∧ call_defined o = true ∧ apply_defined o = true.

(** An update of an instance that records nothing: a registration, a hook
    stored, the current case set. *)
Inductive admin : Testify -> Testify -> Prop :=
  | admin_test s t :
      TestCase.pass t = 0%nat -> TestCase.fail t = 0%nat ->
      callable (TestCase.testCase t) ->
      admin s (set_tests (tests s ++ [t]) s)
  | admin_before s v : callable v -> admin s (set_before v s)
  | admin_after s v : callable v -> admin s (set_after v s)
  | admin_beforeEach s v : callable v -> admin s (set_beforeEach v s)
  | admin_afterEach s v : callable v -> admin s (set_afterEach v s)
  | admin_current s v : admin s (set_currentTestCase v s).

Definition logged (ev : event) (w : world) : world :=
  mkWorld (suites w) (functions w) (instances w) (trace w ++ [ev]).

Definition is_asserted (ev : event) : bool :=
  match ev with Asserted _ _ => true | _ => false end.

Inductive atomic (env : environment) : world -> world -> Prop :=
  | atomic_new w title isCLI :
      atomic env w (set_suite (fresh (dom (suites w))) (Constructor title isCLI) w)
  | atomic_admin w r s s' :
      suites w !! r = Some s -> admin s s' -> atomic env w (set_suite r s' w)
  | atomic_assert w r s a :
      suites w !! r = Some s ->
      atomic env w (set_suite r (dispatch env a s).2 (logged (Asserted r a) w))
  | atomic_log w ev :
      is_asserted ev = false -> atomic env w (logged ev w)
  | atomic_instances w r :
      atomic env w (mkWorld (suites w) (functions w) (instances w ++ [r]) (trace w)).

(** [m] only ever makes elementary updates. *)
Definition steps (env : environment) {A} (m : M world A) : Prop :=
  ∀ w, rtc (atomic env) w (m w).2.

(** A method that either leaves the instance as it is or makes one
    administrative update. *)
Definition administrative {A} (m : M Testify A) : Prop :=
  ∀ s, (m s).2 = s ∨ admin s (m s).2.

(** [s'] is [s] after one more recording with outcome [pass] under the
    current case: the matching counter of the suite and of the case went up
    by one, the other stayed, and the case's list grew by one record with
    that outcome and the next sequence index. *)
Definition records (pass : bool) (s s' : Testify) : Prop :=
  SuiteResults.pass (suiteResults s') =
    (SuiteResults.pass (suiteResults s) + Nat.b2n pass)%nat ∧
  SuiteResults.fail (suiteResults s') =
    (SuiteResults.fail (suiteResults s) + Nat.b2n (negb pass))%nat ∧
  CaseResult.pass (current_item s') = (CaseResult.pass (current_item s) + Nat.b2n pass)%nat ∧
  CaseResult.fail (current_item s') =
    (CaseResult.fail (current_item s) + Nat.b2n (negb pass))%nat ∧
  ∃ r, CaseResult.tests (current_item s') = (CaseResult.tests (current_item s) ++ [r])%list ∧
       AssertionRecord.result r = outcome pass ∧
       AssertionRecord.line r = S (testIndex s).

Definition case_total (item : CaseResult.t) : nat :=
  (CaseResult.pass item + CaseResult.fail item)%nat.

(** The sum of [pass + fail] over the entries of the case-result map. *)
Definition cases_total (s : Testify) : nat :=
  map_fold (fun _ item acc => (case_total item + acc)%nat) 0%nat (stack s).

Definition suite_total (s : Testify) : nat :=
  (SuiteResults.pass (suiteResults s) + SuiteResults.fail (suiteResults s))%nat.

Definition asserted_on (r : nat) (ev : event) : bool :=
  match ev with
  | Asserted r' _ => Nat.eqb r' r
  | _ => false
  end.

(** The number of assertion calls made on instance [r] in a trace. *)
Fixpoint assertion_calls (r : nat) (tr : list event) : nat :=
  match tr with
  | [] => 0
  | ev :: rest => ((if asserted_on r ev then 1 else 0) + assertion_calls r rest)%nat
  end.

(** The counting invariant of a world: in each suite the cases add up to
    the suite, [testIndex] is the number of assertion calls made on it, and
    no more were recorded than were called. *)
Definition counted (w : world) : Prop :=
  (∀ r s, suites w !! r = Some s ->
     cases_total s = suite_total s ∧
     testIndex s = assertion_calls r (trace w) ∧
     (suite_total s <= testIndex s)%nat) ∧
  (∀ r, suites w !! r = None -> assertion_calls r (trace w) = 0%nat).

Definition case_lines (item : CaseResult.t) : list nat :=
  AssertionRecord.line <$> CaseResult.tests item.

(** The sequence indices of all the records of a suite, case by case. *)
Definition all_lines (s : Testify) : list nat :=
  map_fold (fun _ item acc => case_lines item ++ acc) [] (stack s).

(** The indices handed out in a suite so far are [1 .. testIndex], each
    once: those of the records, and those that went to no record. *)
Definition numbered (w : world) : Prop :=
  ∀ r s, suites w !! r = Some s ->
    ∃ lost, all_lines s ++ lost ≡ₚ seq 1 (testIndex s).

(** No elementary update removes an instance or lowers its [testIndex]. *)
Definition index_kept (w w' : world) : Prop :=
  ∀ r s, suites w !! r = Some s ->
    ∃ s', suites w' !! r = Some s' ∧ (testIndex s <= testIndex s')%nat.

(** [s'] differs from [s] at most in [testIndex], [suiteResults] and the
    entry of the current case in [stack]. *)
Definition same_outside_results (s s' : Testify) : Prop :=
  tests s' = tests s ∧ fileCache s' = fileCache s ∧
  currentTestCase s' = currentTestCase s ∧ suiteTitle s' = suiteTitle s ∧
  _before s' = _before s ∧ _after s' = _after s ∧
  _beforeEach s' = _beforeEach s ∧ _afterEach s' = _afterEach s ∧
  data s' = data s ∧ isCLI_arg s' = isCLI_arg s ∧
  ∀ k, k ≠ current_key s -> stack s' !! k = stack s !! k.

Definition counters_untouched (t : TestCase.t) : Prop :=
  TestCase.pass t = 0%nat ∧ TestCase.fail t = 0%nat.

(** The counters of the registered entries are as registered. *)
Definition registered_untouched (w : world) : Prop :=
  ∀ r s, suites w !! r = Some s -> Forall counters_untouched (tests s).

(** A body that calls [assert(true)] and then [assert(false)]. *)
Definition true_then_false (on1 on2 : receiver) (message1 message2 : value) : prog :=
  Call on1 (call_assert (JBool true) message1) (fun _ =>
  Call on2 (call_assert (JBool false) message2) (fun _ => Return)).

(** The receiver is the suite the callback was applied to. *)
Definition the_suite (on : receiver) : Prop := on = This ∨ on = Arg 0.

(** A function object of the client, and sample programs. *)
Definition function (id : nat) : object := Obj id (JString "function") "function" true true.

Definition sample_functions : gmap nat prog :=
  {[ 1%nat := true_then_false This (Arg 0) JUndefined JUndefined;
     2%nat := Call This (call_pass (JString "set up")) (fun _ => Return) ]}.

Definition sample_env : environment := Env part_000 (fun _ => []).

(** The functions of the end-to-end scenario: the body of the case, and a
    hook that makes no assertion. *)
Definition scenario_functions : gmap nat prog :=
  {[ 1%nat := true_then_false This (Arg 0) JUndefined JUndefined;
     2%nat := Return ]}.

(** What the end-to-end scenario leaves of instance [r]: one registered
    case, one entry in the case-result map, with a pass and a fail, indexed 1
    and 2, and as much in [suiteResults]. *)
Definition one_pass_one_fail (r : nat) (n : string) (o : object) (w : world) : Prop :=
  ∃ s item,
    suites w !! r = Some s ∧
    tests s = [TestCase.mk (JString n) (Object o) 0 0] ∧
    stack s = {[ n := item ]} ∧
    suiteResults s = SuiteResults.mk 1 1 ∧
    CaseResult.pass item = 1%nat ∧ CaseResult.fail item = 1%nat ∧
    AssertionRecord.result <$> CaseResult.tests item = ["pass"; "fail"] ∧
    AssertionRecord.line <$> CaseResult.tests item = [1%nat; 2%nat].

(** Instance [r] is there without a record, with no more than [k] indices
    handed out. *)
Definition nothing_filed (r : nat) (k : nat) (w : world) : Prop :=
  ∃ s, suites w !! r = Some s ∧ stack s = ∅ ∧
       suiteResults s = SuiteResults.mk 0 0 ∧ testIndex s = k.

(** The same functions, with a message given to every [assert]. *)
Definition spelled_functions : gmap nat prog :=
  {[ 1%nat := true_then_false This (Arg 0) (JString "holds") (JString "fails");
     2%nat := Call This (call_pass (JString "set up")) (fun _ => Return) ]}.

(** A suite with the [name] and the [type] of its records blanked. *)
Definition erase_record (r : AssertionRecord.t) : AssertionRecord.t :=
  AssertionRecord.mk JUndefined "" (AssertionRecord.result r) (AssertionRecord.line r)
    (AssertionRecord.file r) (AssertionRecord.source r).

Definition erase_item (item : CaseResult.t) : CaseResult.t :=
  CaseResult.mk (CaseResult.name item) (erase_record <$> CaseResult.tests item)
    (CaseResult.pass item) (CaseResult.fail item).

Definition erase_suite (s : Testify) : Testify := set_stack (erase_item <$> stack s) s.

(** How the names of two records, one of each copy, are allowed to differ:
    not at all, or as the labels do that [assert] and [assertEqual] default
    to, in [src/lib/Testify/Testify.js] and in the bundled copy. *)
Definition name_rel (n_lib n_part_000 : value) : Prop :=
  n_lib = n_part_000 ∨
  (n_lib = Prim (JString "Testify.assertTrue") ∧
   n_part_000 = Prim (JString "Testify.assert")) ∨
  (n_lib = Prim (JString "Testify.assertEquals") ∧
   n_part_000 = Prim (JString "Testify.assertEqual")).

(** Two records, two case results, two suites, two worlds alike: the same
    but for the [type] of the records, for their names as far as [N] lets
    them differ, and for the global [Testify.instances]. *)
Definition record_alike (N : value -> value -> Prop) (r1 r2 : AssertionRecord.t) : Prop :=
  N (AssertionRecord.name r1) (AssertionRecord.name r2) ∧
  AssertionRecord.result r1 = AssertionRecord.result r2 ∧
  AssertionRecord.line r1 = AssertionRecord.line r2 ∧
  AssertionRecord.file r1 = AssertionRecord.file r2 ∧
  AssertionRecord.source r1 = AssertionRecord.source r2.

Definition item_alike (N : value -> value -> Prop) (i1 i2 : CaseResult.t) : Prop :=
  CaseResult.name i1 = CaseResult.name i2 ∧
  CaseResult.pass i1 = CaseResult.pass i2 ∧
  CaseResult.fail i1 = CaseResult.fail i2 ∧
  Forall2 (record_alike N) (CaseResult.tests i1) (CaseResult.tests i2).

Definition suite_alike (N : value -> value -> Prop) (s1 s2 : Testify) : Prop :=
  set_stack ∅ s1 = set_stack ∅ s2 ∧
  ∀ k, option_Forall2 (item_alike N) (stack s1 !! k) (stack s2 !! k).

Definition alike (N : value -> value -> Prop) (w1 w2 : world) : Prop :=
  functions w1 = functions w2 ∧ trace w1 = trace w2 ∧
  ∀ r, option_Forall2 (suite_alike N) (suites w1 !! r) (suites w2 !! r).

(** An assertion call that does not leave the name of its record to the
    default of [assert] or [assertEqual]; a callback, a call of a client and
    a set of functions that make only calls allowed by [ok]. *)
Definition spelled_out (a : assertion) : Prop :=
  match a with
  | call_assert _ m | call_assertEqual _ _ m => ToBoolean m = true
  | _ => True
  end.

Inductive prog_ok (ok : assertion -> Prop) : prog -> Prop :=
  | prog_ok_Return : prog_ok ok Return
  | prog_ok_Throw v : prog_ok ok (Throw v)
  | prog_ok_Call on a k :
      ok a -> (∀ b, prog_ok ok (k b)) -> prog_ok ok (Call on a k).

Definition op_ok (ok : assertion -> Prop) (o : op) : Prop :=
  match o with
  | Assertion _ a => ok a
  | _ => True
  end.

Definition functions_ok (ok : assertion -> Prop) (fs : gmap nat prog) : Prop :=
  ∀ f p, fs !! f = Some p -> prog_ok ok p.

(** Two completions agree: both return, with related values, or both throw
    the same error. *)
Definition agree {A} (R : A -> A -> Prop) (c1 c2 : completion A) : Prop :=
  match c1, c2 with
  | Normal a1, Normal a2 => R a1 a2
  | Thrown e1, Thrown e2 => e1 = e2
  | _, _ => False
  end.

(** Two computations that take alike states to alike states, with agreeing
    completions; on worlds, of functions that make only calls allowed by
    [ok]. *)
Definition sim_suite (N : value -> value -> Prop) {A} (R : A -> A -> Prop)
    (m1 m2 : M Testify A) : Prop :=
  ∀ s1 s2, suite_alike N s1 s2 ->
    suite_alike N (m1 s1).2 (m2 s2).2 ∧ agree R (m1 s1).1 (m2 s2).1.

Definition related (N : value -> value -> Prop) (ok : assertion -> Prop)
    (w1 w2 : world) : Prop :=
  alike N w1 w2 ∧ functions_ok ok (functions w1).

Definition sim (N : value -> value -> Prop) (ok : assertion -> Prop) {A}
    (R : A -> A -> Prop) (m1 m2 : M world A) : Prop :=
  ∀ w1 w2, related N ok w1 w2 ->
    related N ok (m1 w1).2 (m2 w2).2 ∧ agree R (m1 w1).1 (m2 w2).1.

(** Every [run] of the program finds a [before] hook set. *)
Definition has_before (w : world) (o : op) : Prop :=
  match o with
  | Run r => ∀ s, suites w !! r = Some s -> _before s ≠ JNull
  | _ => True
  end.

Fixpoint runs_have_before (env : environment) (ops : list op) (w : world) : Prop :=
  match ops with
  | [] => True
  | o :: rest => has_before w o ∧ runs_have_before env rest (exec env o w).2
  end.

Definition sample_ops : list op :=
  [New (JString "suite") JUndefined;
   Before 0 (Object (function 2));
   Test 0 (JString "case") (Object (function 1));
   Assertion 0 (call_fail JUndefined);
   Run 0].

Definition sample_world : world :=
  (exec_all sample_env sample_ops (initial sample_functions)).2.

Definition sample_suite : Testify :=
  default (Constructor JNull JNull) (suites sample_world !! 0%nat).

(** One thing [run] does with an instance: make a case the current one, or
    apply a callback to the instance. *)
Inductive step :=
  | SetCurrent (name : value)
  | Invoke (f : value).

Definition hook_steps (hook : value) : list step :=
  if strict_eq hook JNull then [] else [Invoke hook].

Definition case_steps (s : Testify) (t : TestCase.t) : list step :=
  SetCurrent (TestCase.name t) ::
  hook_steps (_beforeEach s) ++ [Invoke (TestCase.testCase t)] ++ hook_steps (_afterEach s).

(** The order of a run: [before], then per case in registration order
    [beforeEach], the body, [afterEach], then [after]. *)
Definition schedule (s : Testify) : list step :=
  hook_steps (_before s) ++ flat_map (case_steps s) (tests s) ++ hook_steps (_after s).

(** Callbacks are applied with the instance as receiver and sole argument. *)
Definition perform (env : environment) (r : nat) (st : step) : M world unit :=
  match st with
  | SetCurrent name => on_suite r (modify (set_currentTestCase name))
  | Invoke f => apply env f r [r]
  end.

Definition hook_ok (v : value) : Prop := v = Prim JNull ∨ callable v.

Definition hooks_ok (s : Testify) : Prop :=
  hook_ok (_before s) ∧ hook_ok (_after s) ∧
  hook_ok (_beforeEach s) ∧ hook_ok (_afterEach s).

Definition well_formed (w : world) : Prop :=
  ∀ r s, suites w !! r = Some s -> hooks_ok s.

Definition same_config (s s' : Testify) : Prop :=
  tests s' = tests s ∧ _before s' = _before s ∧ _after s' = _after s ∧
  _beforeEach s' = _beforeEach s ∧ _afterEach s' = _afterEach s.

(** Instance [r] is there, with the registrations and hooks of [s]. *)
Definition configured (r : nat) (s : Testify) (w : world) : Prop :=
  ∃ s', suites w !! r = Some s' ∧ same_config s s'.

Definition keeps (I : world -> Prop) {A} (m : M world A) : Prop :=
  ∀ w, I w -> I (m w).2.

Definition eqv_on (I : world -> Prop) {A} (m1 m2 : M world A) : Prop :=
  ∀ w, I w -> m1 w = m2 w.

(** The message argument of an assertion call. *)
Definition message_of (a : assertion) : value :=
  match a with
  | call_assert _ m | call_assertTrue _ m | call_assertFalse _ m
  | call_assertEquals _ _ m | call_assertNotEquals _ _ m
  | call_assertSame _ _ m | call_assertNotSame _ _ m
  | call_assertInArray _ _ m | call_assertNotInArray _ _ m
  | call_pass m | call_fail m
  | call_assertEqual _ _ m | call_assertIdentical _ _ m => m
  end.

(** The label an assertion call ends up with when it is given no message:
    its own, except that in [src/lib/Testify/Testify.js] the aliases [assert]
    and [assertEqual] pass an empty message on and get the label of the
    method they delegate to. *)
Definition default_label (env : environment) (a : assertion) : string :=
  match a with
  | call_assert _ _ => per_copy env "Testify.assertTrue" "Testify.assert"
  | call_assertTrue _ _ => "Testify.assertTrue"
  | call_assertFalse _ _ => "Testify.assertFalse"
  | call_assertEquals _ _ _ => "Testify.assertEquals"
  | call_assertNotEquals _ _ _ => "Testify.assertNotEquals"
  | call_assertSame _ _ _ => "Testify.assertSame"
  | call_assertNotSame _ _ _ => "Testify.assertNotSame"
  | call_assertInArray _ _ _ => "Testify.assertInArray"
  | call_assertNotInArray _ _ _ => "Testify.assertNotInArray"
  | call_pass _ => "Testify.pass"
  | call_fail _ => "Testify.fail"
  | call_assertEqual _ _ _ => per_copy env "Testify.assertEquals" "Testify.assertEqual"
  | call_assertIdentical _ _ _ => "Testify.assertIdentical"
  end.

Definition outcomes (item : CaseResult.t) : list string :=
  AssertionRecord.result <$> CaseResult.tests item.

(** How many records of a case have the outcome [o]. *)
Definition count_outcome (o : string) (item : CaseResult.t) : nat :=
  length (filter (fun x => x = o) (outcomes item)).

(** The sum of [f] over the entries of a case-result map. *)
Definition sum_over (f : CaseResult.t -> nat) (m : gmap string CaseResult.t) : nat :=
  map_fold (fun _ item acc => (f item + acc)%nat) 0%nat m.

(** An entry of the case-result map as the recorder keeps it, in a suite
    whose [testIndex] is [n]: filed under the key of its own name, its
    counters the numbers of its pass and fail records, its records in the
    order of their sequence indices, all handed out already. *)
Definition tallied_item (n : nat) (k : string) (item : CaseResult.t) : Prop :=
  ToPropertyKey (CaseResult.name item) = k ∧
  CaseResult.pass item = count_outcome "pass" item ∧
  CaseResult.fail item = count_outcome "fail" item ∧
  Forall (fun o => o = "pass" ∨ o = "fail") (outcomes item) ∧
  StronglySorted (fun a b => (a < b)%nat) (case_lines item) ∧
  Forall (fun l => (1 <= l <= n)%nat) (case_lines item).

Definition tallied (s : Testify) : Prop :=
  (suite_total s <= testIndex s)%nat ∧
  map_Forall (fun k item => tallied_item (testIndex s) k item ∧ CaseResult.tests item ≠ [])
    (stack s) ∧
  SuiteResults.pass (suiteResults s) = sum_over CaseResult.pass (stack s) ∧
  SuiteResults.fail (suiteResults s) = sum_over CaseResult.fail (stack s).

Definition is_reported (ev : event) : bool :=
  match ev with Reported _ => true | _ => false end.

(** The [Reported] events of a trace. *)
Definition reports (tr : list event) : list event := List.filter is_reported tr.

(** What [run] leaves of a world once its callbacks are through: the report
    in the trace and, in the bundled copy, the instance in
    [Testify.instances]. *)
Definition finished (env : environment) (r : nat) (w : world) : world :=
  mkWorld (suites w) (functions w) (instances w ++ per_copy env [] [r])
    (trace w ++ [Reported r]).



(** The current case of a suite is [null] or the name of one of its
    registered cases, and so is the name of every entry of its case-result
    map. *)
Definition case_of_suite (s : Testify) (v : value) : Prop :=
  v = Prim JNull ∨ ∃ t, t ∈ tests s ∧ TestCase.name t = v.

Definition filed (s : Testify) : Prop :=
  case_of_suite s (currentTestCase s) ∧
  ∀ k item, stack s !! k = Some item -> case_of_suite s (CaseResult.name item).

Definition all_filed (w : world) : Prop :=
  ∀ r s, suites w !! r = Some s -> filed s.

(** [Testify.instances] holds suites that exist and were reported; the copy
    [src/lib/Testify/Testify.js] keeps no such list. *)
Definition registry_ok (env : environment) (w : world) : Prop :=
  (∀ r, r ∈ instances w -> is_Some (suites w !! r) ∧ Reported r ∈ trace w) ∧
  (file env = lib_Testify_js -> instances w = []).

(** What a call of a client can do to a world, one elementary update at a
    time, with what the runtime has checked by then: a case or a hook is
    stored once it is found to have [call] and [apply], a case becomes the
    current one when it is a registered one, a report is made of a suite
    that exists. *)
Inductive move (env : environment) : world -> world -> Prop :=
  | move_new w title isCLI :
      move env w (set_suite (fresh (dom (suites w))) (Constructor title isCLI) w)
  | move_test w r s t :
      suites w !! r = Some s -> callable (TestCase.testCase t) ->
      TestCase.pass t = 0%nat -> TestCase.fail t = 0%nat ->
      move env w (set_suite r (set_tests (tests s ++ [t]) s) w)
  | move_hook w r s v s' :
      suites w !! r = Some s -> callable v ->
      s' ∈ [set_before v s; set_after v s; set_beforeEach v s; set_afterEach v s] ->
      move env w (set_suite r s' w)
  | move_current w r s t :
      suites w !! r = Some s -> t ∈ tests s ->
      move env w (set_suite r (set_currentTestCase (TestCase.name t) s) w)
  | move_assert w r s a :
      suites w !! r = Some s ->
      move env w (set_suite r (dispatch env a s).2 (logged (Asserted r a) w))
  | move_applied w f this args :
      move env w (logged (Applied f this args) w)
  | move_report w r :
      is_Some (suites w !! r) -> move env w (logged (Reported r) w)
  | move_finish w r :
      is_Some (suites w !! r) -> move env w (finished env r w).

Definition sample_item : CaseResult.t :=
  default (CaseResult.mk JNull [] 0 0) (stack sample_suite !! "case").

(** Two cases, the second under a name that [Object.prototype] has a
    member for, run twice. *)
Definition prototype_ops : list op :=
  [New (JString "suite") JUndefined;
   Test 0 (JString "first") (Object (function 2));
   Test 0 (JString "toString") (Object (function 2));
   Run 0].

Definition prototype_world : world :=
  (exec_all sample_env prototype_ops (initial sample_functions)).2.

Definition prototype_suite : Testify :=
  default (Constructor JNull JNull) (suites prototype_world !! 0%nat).

(** A callback that throws after one passing assertion. *)
Definition throwing_functions : gmap nat prog :=
  {[ 1%nat := Call This (call_pass JUndefined) (fun _ => Throw (JString "boom"));
     2%nat := Call This (call_fail JUndefined) (fun _ => Return) ]}.

Definition throwing_world : world :=
  (exec_all sample_env
     [New (JString "suite") JUndefined;
      Test 0 (JString "first") (Object (function 1));
      Test 0 (JString "second") (Object (function 2))]
     (initial throwing_functions)).2.

Definition throwing_suite : Testify :=
  default (Constructor JNull JNull) (suites throwing_world !! 0%nat).

(** [s'] has the cases of [s], in their order, and then maybe more; its
    title and its CLI flag are those of [s]. *)
Definition grown (s s' : Testify) : Prop :=
  tests s `prefix_of` tests s' ∧
  suiteTitle s' = suiteTitle s ∧ isCLI_arg s' = isCLI_arg s.

(** Every registered body is an object with [call] and [apply]. *)
Definition bodies_callable (s : Testify) : Prop :=
  Forall (fun t => callable (TestCase.testCase t)) (tests s).

(** The state after [test] has registered [t]. *)
Definition registered (t : TestCase.t) (s : Testify) : Testify :=
  set_tests (tests s ++ [t]) s.

(** The characters of a string, and the five that [escapeHtml] replaces. *)
Definition chars (s : string) : list ascii := String.list_ascii_of_string s.

Definition special (c : ascii) : Prop :=
  c = "&"%char ∨ c = "<"%char ∨ c = ">"%char ∨ c = "034"%char ∨ c = "'"%char.

(** * Theorems *)

(** ** The JavaScript fragment on samples *)

Example string_to_number_samples :
  (StringToNumber "", StringToNumber "  42 ", StringToNumber "-1337",
   StringToNumber "1.50", StringToNumber ".5e1", StringToNumber "0x1F",
   StringToNumber "yes", StringToNumber "-Infinity", StringToNumber "1e",
   StringToNumber ".", StringToNumber "5.", StringToNumber "-0x10")
  = (Finite 0 0, Finite 42 0, Finite (-1337) 0, Finite 150 (-2), Finite 5 0,
     Finite 31 0, NaN, Infinity true, NaN, NaN, Finite 5 0, NaN).
Proof. vm_compute. reflexivity. Qed.

Example number_to_string_samples :
  (NumberToString (int 0), NumberToString (int 1200), NumberToString (Finite 15 (-1)),
   NumberToString (Finite (-5) (-3)), NumberToString (Finite 1 21),
   NumberToString (Finite 123 (-9)), NumberToString (Finite 12 2))
  = ("0", "1200", "1.5", "-0.005", "1e+21", "1.23e-7", "1200").
Proof. vm_compute. reflexivity. Qed.

Example loose_eq_samples :
  (loose_eq (num 0) (JString ""), loose_eq (num 0) JNull, loose_eq JNull JUndefined,
   loose_eq (num 1) (JBool true), loose_eq (num (-1337)) (JString "-1337"),
   loose_eq (JNumber NaN) (JNumber NaN), loose_eq (JString "1") (JBool true),
   loose_eq (num (-1)) (JString ""), loose_eq (JNumber (Finite 10 (-1))) (num 1))
  = (true, false, true, true, true, false, true, false, true).
Proof. vm_compute. reflexivity. Qed.

(** ** The recorder in closed form *)

Lemma bind_ret_l {S A B} (a : A) (k : A -> M S B) s : bind (ret a) k s = k a s.
Proof. done. Qed.

Lemma bool_decide_is_Some {A} (o : option A) :
  bool_decide (is_Some o) = match o with Some _ => true | None => false end.
Proof.
  destruct o; [by apply bool_decide_eq_true_2|].
  apply bool_decide_eq_false_2. by intros [? ?].
Qed.

Lemma recordTest_cases env pass message s :
  recordTest env pass message s =
  if files s
  then (Normal pass,
        recorded (AssertionRecord.mk
                    (or_else message (JString (per_copy env "" "Testify.recordTest")))
                    (bt_toString env s) (outcome pass) (S (testIndex s)) "" "") s)
  else (Thrown TypeError, skipped s).
Proof.
  unfold recordTest, files, recorded, skipped, current_item, current_key, bt_toString, outcome.
  unfold bind, when, modify, get, ret, throw. cbn beta.
  rewrite bool_decide_is_Some.
  destruct (stack s !! ToPropertyKey (currentTestCase s)) as [item|] eqn:Hitem; simpl.
  - do 2 f_equal. unfold set_suiteResults, set_stack, set_testIndex; simpl.
    f_equal. rewrite alter_alter_eq. by erewrite alter_alt_Some by eassumption.
  - destruct (inherited (ToPropertyKey (currentTestCase s))); simpl; [done|].
    do 2 f_equal. unfold set_suiteResults, set_stack, set_testIndex; simpl.
    f_equal. by rewrite !alter_insert_eq.
Qed.

Lemma recordTest_eq env pass message s :
  files s = true ->
  recordTest env pass message s =
  (Normal pass,
   recorded (AssertionRecord.mk
               (or_else message (JString (per_copy env "" "Testify.recordTest")))
               (bt_toString env s) (outcome pass) (S (testIndex s)) "" "") s).
Proof. intros H. by rewrite recordTest_cases, H. Qed.

Lemma recordTest_skipped env pass message s :
  files s = false -> recordTest env pass message s = (Thrown TypeError, skipped s).
Proof. intros H. by rewrite recordTest_cases, H. Qed.

Lemma or_else_label m l l' :
  l ≠ "" -> or_else (or_else m (JString l)) (JString l') = or_else m (JString l).
Proof.
  intros Hl. unfold or_else. destruct (ToBoolean m) eqn:Hm; [by rewrite Hm|].
  simpl. by destruct l.
Qed.

(** An assertion call in full: with the name of its record. *)
Lemma dispatch_named env a s :
  dispatch env a s =
  if files s
  then (Normal (verdict a),
        recorded (AssertionRecord.mk (or_else (message_of a) (JString (default_label env a)))
                    (bt_toString env s) (outcome (verdict a)) (S (testIndex s)) "" "") s)
  else (Thrown TypeError, skipped s).
Proof.
  destruct a; simpl;
    unfold assert, assertEqual, assertTrue, assertFalse, assertEquals, assertNotEquals,
      assertSame, assertNotSame, assertInArray, assertNotInArray, pass, fail, assertIdentical;
    try (unfold arr_indexOf; rewrite bind_ret_l);
    rewrite recordTest_cases; try (by rewrite or_else_label).
  - unfold per_copy. destruct (file env).
    + unfold or_else at 1 2 3 4.
      destruct (ToBoolean message) eqn:Hm; simpl; rewrite ?Hm; simpl; by rewrite ?Hm.
    + by rewrite !or_else_label.
  - unfold per_copy. destruct (file env).
    + unfold or_else at 1 2 3 4.
      destruct (ToBoolean message) eqn:Hm; simpl; rewrite ?Hm; simpl; by rewrite ?Hm.
    + by rewrite !or_else_label.
Qed.

Lemma dispatch_cases env a s :
  ∃ name,
    dispatch env a s =
    if files s
    then (Normal (verdict a),
          recorded (AssertionRecord.mk name (bt_toString env s) (outcome (verdict a))
                      (S (testIndex s)) "" "") s)
    else (Thrown TypeError, skipped s).
Proof. eexists. apply dispatch_named. Qed.

Lemma dispatch_recorded env a s :
  files s = true ->
  ∃ name,
    dispatch env a s =
    (Normal (verdict a),
     recorded (AssertionRecord.mk name (bt_toString env s) (outcome (verdict a))
                 (S (testIndex s)) "" "") s).
Proof. intros H. destruct (dispatch_cases env a s) as [name Hd]. rewrite H in Hd. eauto. Qed.

Lemma dispatch_skipped env a s :
  files s = false -> dispatch env a s = (Thrown TypeError, skipped s).
Proof. intros H. destruct (dispatch_cases env a s) as [name Hd]. by rewrite H in Hd. Qed.

(** The state an assertion call leaves: one more record, or only one more
    index handed out. *)
Lemma dispatch_state env a s :
  (files s = true ∧ ∃ name,
     (dispatch env a s).2 =
     recorded (AssertionRecord.mk name (bt_toString env s) (outcome (verdict a))
                 (S (testIndex s)) "" "") s) ∨
  (files s = false ∧ (dispatch env a s).2 = skipped s).
Proof.
  destruct (dispatch_cases env a s) as [name ->].
  destruct (files s); [left|right]; eauto.
Qed.

(** ** Every call is made of a few kinds of elementary updates *)

Lemma set_suite_same r s w : suites w !! r = Some s -> set_suite r s w = w.
Proof. intros H. destruct w; unfold set_suite; simpl in *. by rewrite insert_id. Qed.

Section Steps.

Variable env : environment.

Lemma steps_ret {A} (a : A) : steps env (ret a).
Proof. intros w. apply rtc_refl. Qed.

Lemma steps_throw {A} e : steps env (@throw world A e).
Proof. intros w. apply rtc_refl. Qed.

Lemma steps_bind {A B} (m : M world A) (k : A -> M world B) :
  steps env m -> (∀ a, steps env (k a)) -> steps env (bind m k).
Proof.
  intros Hm Hk w. unfold bind. specialize (Hm w).
  destruct (m w) as [[a|e] w']; simpl in *; [|done].
  etrans; [exact Hm|apply Hk].
Qed.

Lemma steps_get : steps env get.
Proof. intros w. apply rtc_refl. Qed.

Lemma steps_suite r : steps env (suite r).
Proof. intros w. unfold suite. destruct (suites w !! r); apply rtc_refl. Qed.

Lemma steps_when c (m : M world unit) : steps env m -> steps env (when c m).
Proof. destruct c; simpl; auto using steps_ret. Qed.

Lemma steps_isCallable v : steps env (isCallable v).
Proof. destruct v as [[]|]; simpl; auto using steps_ret, steps_throw. Qed.

Lemma steps_set_and_callable v : steps env (set_and_callable v).
Proof. unfold set_and_callable. destruct (negb _); auto using steps_ret, steps_isCallable. Qed.

Lemma steps_for_each {A} (body : A -> M world unit) l :
  (∀ x, steps env (body x)) -> steps env (for_each body l).
Proof. intros Hb. induction l; simpl; auto using steps_ret, steps_bind. Qed.

Lemma steps_log ev : is_asserted ev = false -> steps env (log ev).
Proof. intros H w. apply rtc_once. by apply atomic_log. Qed.

Lemma steps_on_suite {A} r (m : M Testify A) : administrative m -> steps env (on_suite r m).
Proof.
  intros Hm w. unfold on_suite, bind, suite.
  destruct (suites w !! r) as [s|] eqn:Hs; simpl; [|apply rtc_refl].
  destruct (Hm s) as [Heq|Hadm]; destruct (m s) as [c s']; simpl in *.
  - subst. rewrite set_suite_same by done. apply rtc_refl.
  - apply rtc_once. by eapply atomic_admin.
Qed.

Lemma isCallable_state {S} v (s : S) : (isCallable v s).2 = s.
Proof. by destruct v as [[]|]. Qed.

Lemma affirmCallable_state callback name s : (affirmCallable callback name s).2 = s.
Proof.
  unfold affirmCallable, bind. destruct callback as [[]|o]; simpl; auto.
  by destruct (call_defined o && apply_defined o).
Qed.

Lemma affirmCallable_callable callback name s :
  (affirmCallable callback name s).1 = Normal tt -> callable callback.
Proof.
  unfold affirmCallable, bind. destruct callback as [[]|o]; simpl; try done.
  destruct (call_defined o) eqn:Hc, (apply_defined o) eqn:Ha; simpl; try done.
  intros _. by exists o.
Qed.

Lemma administrative_affirmCallable_then callback name (f : Testify -> Testify) :
  (∀ s, callable callback -> admin s (f s)) ->
  administrative (affirmCallable callback name ;;; modify f).
Proof.
  intros Hf s. unfold bind.
  pose proof (affirmCallable_state callback name s) as Hst.
  pose proof (affirmCallable_callable callback name s) as Hc.
  destruct (affirmCallable callback name s) as [[[]|e] s1]; simpl in *; subst; auto.
Qed.

Lemma administrative_test name testCase : administrative (test name testCase).
Proof.
  intros s. unfold test, bind, get.
  pose proof (isCallable_state name s) as Hst.
  destruct (isCallable name s) as [[named|e] s0]; simpl in *; subst; auto.
  match goal with
  | |- context [affirmCallable ?c ?n ?x] =>
      pose proof (affirmCallable_state c n x) as Hst;
      pose proof (affirmCallable_callable c n x) as Hc;
      destruct (affirmCallable c n x) as [[[]|e] s1]
  end; simpl in *; subst; auto.
  right. apply admin_test; auto.
Qed.

Lemma steps_call_assertion r a : steps env (call_assertion env r a).
Proof.
  intros w. unfold call_assertion, on_suite, bind, suite, log, modify; simpl.
  destruct (suites w !! r) as [s|] eqn:Hs; simpl; [|apply rtc_refl].
  rewrite Hs. destruct (dispatch env a s) as [c s'] eqn:Hd; simpl.
  apply rtc_once.
  replace s' with (dispatch env a s).2 by (by rewrite Hd).
  by apply (atomic_assert env w r s a).
Qed.

Lemma steps_run_prog p this args : steps env (run_prog env p this args).
Proof.
  induction p as [| |on a k IH]; simpl; auto using steps_ret, steps_throw.
  destruct (resolve on this args); auto using steps_throw.
  apply steps_bind; auto using steps_call_assertion.
Qed.

Lemma steps_apply f this args : steps env (apply env f this args).
Proof.
  destruct f as [[]|o]; simpl; auto using steps_throw.
  apply steps_bind; [apply steps_get|]. intros w.
  destruct (apply_defined o), (functions w !! identity o); auto using steps_throw.
  apply steps_bind; [by apply steps_log|auto using steps_run_prog].
Qed.

Lemma steps_report r : steps env (report r).
Proof.
  unfold report. apply steps_bind; [apply steps_suite|]. intros s.
  apply steps_bind; [destruct (ToBoolean _); apply steps_ret|]. intros _.
  apply steps_bind; [by apply steps_log|]. intros _. apply steps_ret.
Qed.

Lemma steps_hook hook r (guard : M world bool) :
  steps env guard -> steps env (let! go := guard in when go (apply env hook r [r])).
Proof. intros Hg. apply steps_bind; [done|]. intros go. apply steps_when, steps_apply. Qed.

Lemma steps_run r : steps env (run env r).
Proof.
  unfold run.
  apply steps_bind; [apply steps_suite|]. intros s0.
  apply steps_bind.
  { unfold per_copy. destruct (file env); auto using steps_isCallable, steps_set_and_callable. }
  intros go. apply steps_bind; [apply steps_when, steps_apply|]. intros _.
  apply steps_bind; [apply steps_suite|]. intros s1.
  apply steps_bind.
  { apply steps_for_each. intros t.
    apply steps_bind.
    { apply steps_on_suite. intros s. right. apply admin_current. }
    intros _. apply steps_bind; [apply steps_suite|]. intros s2.
    apply steps_bind; [apply steps_set_and_callable|]. intros go1.
    apply steps_bind; [apply steps_when, steps_apply|]. intros _.
    apply steps_bind; [apply steps_apply|]. intros _.
    apply steps_bind; [apply steps_suite|]. intros s3.
    apply steps_bind; [apply steps_set_and_callable|]. intros go2.
    apply steps_when, steps_apply. }
  intros _. apply steps_bind; [apply steps_suite|]. intros s4.
  apply steps_bind; [apply steps_set_and_callable|]. intros go3.
  apply steps_bind; [apply steps_when, steps_apply|]. intros _.
  apply steps_bind; [apply steps_report|]. intros _.
  apply steps_bind; [|intros _; apply steps_ret].
  unfold per_copy. destruct (file env); [apply steps_ret|].
  intros w. apply rtc_once. apply atomic_instances.
Qed.

Lemma steps_exec o : steps env (exec env o).
Proof.
  destruct o; simpl.
  - intros w. apply rtc_once. apply atomic_new.
  - apply steps_bind; [|intros; apply steps_ret].
    apply steps_on_suite, administrative_test.
  - apply steps_bind; [|intros; apply steps_ret].
    apply steps_on_suite, administrative_affirmCallable_then. intros; by constructor.
  - apply steps_bind; [|intros; apply steps_ret].
    apply steps_on_suite, administrative_affirmCallable_then. intros; by constructor.
  - apply steps_bind; [|intros; apply steps_ret].
    apply steps_on_suite, administrative_affirmCallable_then. intros; by constructor.
  - apply steps_bind; [|intros; apply steps_ret].
    apply steps_on_suite, administrative_affirmCallable_then. intros; by constructor.
  - apply steps_run.
  - apply steps_bind; [apply steps_call_assertion|intros; apply steps_ret].
  - apply steps_report.
  - apply steps_bind; [|intros; apply steps_ret].
    apply steps_on_suite. intros s. left. apply affirmCallable_state.
Qed.

(** A property of worlds kept by every elementary update holds of every
    reachable world. *)
Lemma reachable_ind_atomic (I : world -> Prop) fs :
  I (initial fs) ->
  (∀ w w', atomic env w w' -> I w -> I w') ->
  ∀ w, reachable env fs w -> I w.
Proof.
  intros H0 Hstep w Hw. induction Hw as [|w o _ IH]; [done|].
  pose proof (steps_exec o w) as Hrtc.
  induction Hrtc; eauto.
Qed.

End Steps.

Lemma fresh_suite_None (w : world) : suites w !! fresh (dom (suites w)) = None.
Proof. apply not_elem_of_dom, is_fresh. Qed.

(** A property of suites that the constructor establishes and that
    registrations, hook settings, the choice of the current case and both
    ways an assertion call can end all keep, holds of every suite of every
    reachable world. *)
Lemma reachable_suite_ind env fs (P : Testify -> Prop) :
  (∀ title isCLI, P (Constructor title isCLI)) ->
  (∀ s s', admin s s' -> P s -> P s') ->
  (∀ s name type b, files s = true -> P s ->
     P (recorded (AssertionRecord.mk name type (outcome b) (S (testIndex s)) "" "") s)) ->
  (∀ s, files s = false -> P s -> P (skipped s)) ->
  ∀ w, reachable env fs w -> ∀ r s, suites w !! r = Some s -> P s.
Proof.
  intros Hnew Hadmin Hrec Hskip.
  apply (reachable_ind_atomic env (fun w => ∀ r s, suites w !! r = Some s -> P s) fs).
  { intros r s. simpl. by rewrite lookup_empty. }
  intros w w' Hstep Hw r0 s0.
  destruct Hstep as [w title isCLI|w r s s' Hs Hadm|w r s a Hs|w ev Hev|w r];
    simpl; try apply Hw.
  - destruct (decide (r0 = fresh (dom (suites w)))) as [->|Hne].
    + rewrite lookup_insert_eq. intros [= <-]. apply Hnew.
    + rewrite lookup_insert_ne by done. apply Hw.
  - destruct (decide (r0 = r)) as [->|Hne].
    + rewrite lookup_insert_eq. intros [= <-]. eauto.
    + rewrite lookup_insert_ne by done. apply Hw.
  - destruct (decide (r0 = r)) as [->|Hne].
    + rewrite lookup_insert_eq. intros [= <-].
      destruct (dispatch_state env a s) as [[Hf [name ->]]|[Hf ->]]; eauto.
    + rewrite lookup_insert_ne by done. apply Hw.
Qed.

(** A relation between the states of a suite that holds across each
    elementary update, holds across every call. *)
Lemma suites_atomic env (R : Testify -> Testify -> Prop) :
  (∀ s, R s s) ->
  (∀ s s', admin s s' -> R s s') ->
  (∀ s rec, R s (recorded rec s)) ->
  (∀ s, R s (skipped s)) ->
  ∀ w w', atomic env w w' ->
  ∀ r s, suites w !! r = Some s -> ∃ s', suites w' !! r = Some s' ∧ R s s'.
Proof.
  intros Hrefl Hadmin Hrec Hskip w w' Hstep r0 s0 Hs0.
  destruct Hstep as [w title isCLI|w r s s' Hs Hadm|w r s a Hs|w ev Hev|w r]; simpl; eauto.
  - destruct (decide (r0 = fresh (dom (suites w)))) as [->|Hne].
    + by rewrite fresh_suite_None in Hs0.
    + rewrite lookup_insert_ne by done. eauto.
  - destruct (decide (r0 = r)) as [->|Hne].
    + rewrite lookup_insert_eq. assert (s = s0) as -> by congruence. eauto.
    + rewrite lookup_insert_ne by done. eauto.
  - destruct (decide (r0 = r)) as [->|Hne].
    + rewrite lookup_insert_eq. assert (s = s0) as -> by congruence.
      destruct (dispatch_state env a s0) as [[_ [name ->]]|[_ ->]]; eauto.
    + rewrite lookup_insert_ne by done. eauto.
Qed.

Lemma suites_rtc env (R : Testify -> Testify -> Prop) :
  (∀ s, R s s) ->
  (∀ s1 s2 s3, R s1 s2 -> R s2 s3 -> R s1 s3) ->
  (∀ s s', admin s s' -> R s s') ->
  (∀ s rec, R s (recorded rec s)) ->
  (∀ s, R s (skipped s)) ->
  ∀ w w', rtc (atomic env) w w' ->
  ∀ r s, suites w !! r = Some s -> ∃ s', suites w' !! r = Some s' ∧ R s s'.
Proof.
  intros Hrefl Htrans Hadmin Hrec Hskip w w'.
  induction 1 as [w|w w1 w2 Hstep _ IH]; intros r s Hs; [eauto|].
  destruct (suites_atomic env R Hrefl Hadmin Hrec Hskip _ _ Hstep r s Hs) as (s1 & Hs1 & H1).
  destruct (IH r s1 Hs1) as (s2 & Hs2 & H2). eauto.
Qed.

Lemma admin_keeps s s' :
  admin s s' ->
  stack s' = stack s ∧ suiteResults s' = suiteResults s ∧ testIndex s' = testIndex s.
Proof. by destruct 1. Qed.

(** ** What an assertion records *)

Lemma current_item_recorded r s :
  current_item (recorded r s) =
  CaseResult.incr (AssertionRecord.result r) (CaseResult.push r (current_item s)).
Proof.
  unfold current_item at 1. unfold current_key, recorded; simpl.
  by rewrite lookup_insert_eq.
Qed.

Lemma recorded_records pass name type s :
  records pass s
    (recorded (AssertionRecord.mk name type (outcome pass) (S (testIndex s)) "" "") s).
Proof.
  unfold records. rewrite current_item_recorded.
  destruct pass; simpl; repeat split; try lia; eauto.
Qed.

Lemma recordTest_records env pass message s :
  files s = true ->
  (recordTest env pass message s).1 = Normal pass ∧
  records pass s (recordTest env pass message s).2.
Proof. intros H. rewrite recordTest_eq by done. split; [done|apply recorded_records]. Qed.

(** A suite as the constructor leaves it files what is recorded: its
    current case is [null]. *)
Lemma files_Constructor title isCLI : files (Constructor title isCLI) = true.
Proof. reflexivity. Qed.

(** ** Equality assertions *)

(** C1: on any suite that files what is recorded, [assertEquals(0, "")]
    and [assertEquals(1, true)] each record a pass and return [true]
    (coercive equality), while [assertSame(0, "")] and [assertSame(1, true)]
    each record a fail and return [false] (strict identity); in both copies,
    whatever the message. *)
Theorem assertEquals_coerces_assertSame_does_not env s message :
  files s = true ->
  let e0 := assertEquals env (num 0) (JString "") message s in
  let e1 := assertEquals env (num 1) (JBool true) message s in
  let s0 := assertSame env (num 0) (JString "") message s in
  let s1 := assertSame env (num 1) (JBool true) message s in
  (e0.1 = Normal true ∧ records true s e0.2) ∧
  (e1.1 = Normal true ∧ records true s e1.2) ∧
  (s0.1 = Normal false ∧ records false s s0.2) ∧
  (s1.1 = Normal false ∧ records false s s1.2).
Proof.
  intros Hfiles. unfold assertEquals, assertSame.
  repeat apply conj; try (by apply recordTest_records); by rewrite recordTest_eq.
Qed.

Lemma assertEquals_coerces_assertSame_does_not_witness :
  let s := Constructor (JString "suite") JUndefined in
  let e0 := assertEquals sample_env (num 0) (JString "") JUndefined s in
  let e1 := assertEquals sample_env (num 1) (JBool true) JUndefined s in
  let s0 := assertSame sample_env (num 0) (JString "") JUndefined s in
  let s1 := assertSame sample_env (num 1) (JBool true) JUndefined s in
  (e0.1 = Normal true ∧ records true s e0.2) ∧
  (e1.1 = Normal true ∧ records true s e1.2) ∧
  (s0.1 = Normal false ∧ records false s s0.2) ∧
  (s1.1 = Normal false ∧ records false s s1.2).
Proof.
  exact (assertEquals_coerces_assertSame_does_not sample_env
           (Constructor (JString "suite") JUndefined) JUndefined eq_refl).
Defined.

(** C10: the predicate of [assert] and [assertTrue] is [arg == true] and that
    of [assertFalse] is [arg == false], not truthiness: [2] and ["yes"] are
    truthy, yet [assertTrue(2)], [assertTrue("yes")] (and [assert] of them)
    record a fail and return [false]; [assertFalse("")] records a pass and
    returns [true].  On any suite that files what is recorded. *)
Theorem assertTrue_is_loose_equality_to_true env s message :
  files s = true ->
  let t2 := assertTrue env (num 2) message s in
  let ty := assertTrue env (JString "yes") message s in
  let a2 := assert env (num 2) message s in
  let ay := assert env (JString "yes") message s in
  let fe := assertFalse env (JString "") message s in
  (∀ arg,
     (assertTrue env arg message s).1 = Normal (loose_eq arg (JBool true)) ∧
     (assert env arg message s).1 = Normal (loose_eq arg (JBool true)) ∧
     (assertFalse env arg message s).1 = Normal (loose_eq arg (JBool false))) ∧
  ToBoolean (num 2) = true ∧ ToBoolean (JString "yes") = true ∧
  (t2.1 = Normal false ∧ records false s t2.2) ∧
  (ty.1 = Normal false ∧ records false s ty.2) ∧
  (a2.1 = Normal false ∧ records false s a2.2) ∧
  (ay.1 = Normal false ∧ records false s ay.2) ∧
  (fe.1 = Normal true ∧ records true s fe.2).
Proof.
  intros Hfiles. unfold assert, assertTrue, assertFalse.
  split; [intros arg; by rewrite !recordTest_eq|].
  do 2 (split; [reflexivity|]).
  repeat apply conj; try (by apply recordTest_records); by rewrite recordTest_eq.
Qed.

Lemma assertTrue_is_loose_equality_to_true_witness :
  let s := Constructor (JString "suite") JUndefined in
  let t2 := assertTrue sample_env (num 2) JUndefined s in
  let ty := assertTrue sample_env (JString "yes") JUndefined s in
  let a2 := assert sample_env (num 2) JUndefined s in
  let ay := assert sample_env (JString "yes") JUndefined s in
  let fe := assertFalse sample_env (JString "") JUndefined s in
  (∀ arg,
     (assertTrue sample_env arg JUndefined s).1 = Normal (loose_eq arg (JBool true)) ∧
     (assert sample_env arg JUndefined s).1 = Normal (loose_eq arg (JBool true)) ∧
     (assertFalse sample_env arg JUndefined s).1 = Normal (loose_eq arg (JBool false))) ∧
  ToBoolean (num 2) = true ∧ ToBoolean (JString "yes") = true ∧
  (t2.1 = Normal false ∧ records false s t2.2) ∧
  (ty.1 = Normal false ∧ records false s ty.2) ∧
  (a2.1 = Normal false ∧ records false s a2.2) ∧
  (ay.1 = Normal false ∧ records false s ay.2) ∧
  (fe.1 = Normal true ∧ records true s fe.2).
Proof.
  exact (assertTrue_is_loose_equality_to_true sample_env
           (Constructor (JString "suite") JUndefined) JUndefined eq_refl).
Defined.

(** ** Membership assertions *)

Lemma indexOf_from_found i arr x :
  (indexOf_from i arr x >? -1) = ((i >? -1) && existsb (fun y => strict_eq y x) arr)
  ∨ i < 0.
Proof.
  revert i. induction arr as [|y arr IH]; intros i; simpl.
  - destruct (Z.gtb_spec i (-1)); simpl; [by left|right; lia].
  - destruct (strict_eq y x); simpl.
    + destruct (Z.gtb_spec i (-1)); simpl; [by left|right; lia].
    + destruct (IH (i + 1)) as [->|?]; [|right; lia].
      destruct (Z.gtb_spec (i + 1) (-1)), (Z.gtb_spec i (-1)); simpl; auto; right; lia.
Qed.

(** The membership test of [assertInArray] is a scan of the array with
    [===]. *)
Lemma indexOf_scan arr x : (indexOf arr x >? -1) = existsb (fun y => strict_eq y x) arr.
Proof. unfold indexOf. destruct (indexOf_from_found 0 arr x) as [->|?]; [done|lia]. Qed.

(** The array the self-test of the bundled copy searches
    ([src/unnamed/part_000], lines 805 to 809). *)
Lemma self_test_array_scan :
  let arr := [num 1; num 2; Prim JNull; Prim (JBool false);
              Prim (JString "1"); Prim (JString "2")] in
  (indexOf arr (num 0) >? -1) = false ∧ (indexOf arr (JBool true) >? -1) = false ∧
  (indexOf arr (num 1) >? -1) = true ∧ (indexOf arr (JBool false) >? -1) = true.
Proof. vm_compute. by repeat split. Qed.

(** C7, where the code falls short of it: the membership test of
    [assertInArray] is a scan of the array with [===], so
    [assertInArray(0, [false])] records a fail and returns [false], as
    [assertInArray(false, [0])] does; and on the array of the self-test
    of the bundled copy, [[1, 2, null, false, "1", "2"]], it fails for [0]
    and for [true], which the self-test expects to be found, and passes for
    [1] and [false]. *)
Theorem assertInArray_scans_with_strict_equality env s message :
  files s = true ->
  let arr := [num 1; num 2; Prim JNull; Prim (JBool false);
              Prim (JString "1"); Prim (JString "2")] in
  (∀ arg elements,
     (assertInArray env arg (Array elements) message s).1 =
       Normal (existsb (fun y => strict_eq y arg) elements) ∧
     records (existsb (fun y => strict_eq y arg) elements) s
       (assertInArray env arg (Array elements) message s).2) ∧
  ((assertInArray env (num 0) (Array [Prim (JBool false)]) message s).1 = Normal false ∧
   records false s (assertInArray env (num 0) (Array [Prim (JBool false)]) message s).2) ∧
  ((assertInArray env (JBool false) (Array [num 0]) message s).1 = Normal false ∧
   records false s (assertInArray env (JBool false) (Array [num 0]) message s).2) ∧
  ((assertInArray env (num 0) (Array arr) message s).1 = Normal false ∧
   records false s (assertInArray env (num 0) (Array arr) message s).2) ∧
  ((assertInArray env (JBool true) (Array arr) message s).1 = Normal false ∧
   records false s (assertInArray env (JBool true) (Array arr) message s).2) ∧
  (assertInArray env (num 1) (Array arr) message s).1 = Normal true ∧
  (assertInArray env (JBool false) (Array arr) message s).1 = Normal true.
Proof.
  intros Hfiles arr.
  assert (∀ arg elements,
    (assertInArray env arg (Array elements) message s).1 =
      Normal (existsb (fun y => strict_eq y arg) elements) ∧
    records (existsb (fun y => strict_eq y arg) elements) s
      (assertInArray env arg (Array elements) message s).2) as Hscan.
  { intros arg elements. unfold assertInArray, arr_indexOf. rewrite bind_ret_l.
    rewrite indexOf_scan. by apply recordTest_records. }
  split; [exact Hscan|].
  split; [exact (Hscan (num 0) [Prim (JBool false)])|].
  split; [exact (Hscan (JBool false) [num 0])|].
  split; [exact (Hscan (num 0) arr)|].
  split; [exact (Hscan (JBool true) arr)|].
  split; [exact (proj1 (Hscan (num 1) arr))|exact (proj1 (Hscan (JBool false) arr))].
Qed.

Lemma assertInArray_scans_with_strict_equality_witness :
  let s := Constructor (JString "suite") JUndefined in
  let after := assertInArray sample_env (num 0) (Array [Prim (JBool false)]) JUndefined s in
  after.1 = Normal false ∧ records false s after.2.
Proof.
  intros s after.
  destruct (assertInArray_scans_with_strict_equality sample_env s JUndefined eq_refl)
    as (_ & H & _).
  exact H.
Defined.

(** [assertInArray(0, [false])] on a new suite does not return [true], and
    what it records is a fail. *)
Example assertInArray_0_in_false_not_true :
  let s := Constructor (JString "suite") JUndefined in
  let env := Env part_000 (fun _ => []) in
  let after := assertInArray env (num 0) (Array [Prim (JBool false)]) JUndefined s in
  after.1 ≠ Normal true ∧
  after.1 = Normal false ∧
  suiteResults after.2 = SuiteResults.mk 0 1.
Proof. vm_compute. split; [discriminate|done]. Qed.

(** ** Counting: cases, suite and calls agree *)

Lemma assertion_calls_snoc r tr ev :
  assertion_calls r (tr ++ [ev]) =
  (assertion_calls r tr + (if asserted_on r ev then 1 else 0))%nat.
Proof. induction tr as [|e tr IH]; simpl; [lia|rewrite IH; lia]. Qed.

Lemma totals_insert (m : gmap string CaseResult.t) k x :
  (map_fold (fun _ item acc => (case_total item + acc)%nat) 0%nat (<[k := x]> m)
   + from_option case_total 0%nat (m !! k))%nat =
  (case_total x + map_fold (fun _ item acc => (case_total item + acc)%nat) 0%nat m)%nat.
Proof.
  destruct (m !! k) as [old|] eqn:Hk; simpl.
  - rewrite <- insert_delete_eq.
    rewrite map_fold_insert_L; [|intros; lia|by rewrite lookup_delete_eq].
    rewrite (map_fold_delete_L _ _ k old m); [lia|intros; lia|done].
  - rewrite map_fold_insert_L; [lia|intros; lia|done].
Qed.

Lemma case_total_incr_push pass r item :
  case_total (CaseResult.incr (outcome pass) (CaseResult.push r item)) = S (case_total item).
Proof. destruct pass; unfold case_total; simpl; lia. Qed.

Lemma cases_total_recorded pass name type s :
  cases_total (recorded (AssertionRecord.mk name type (outcome pass) (S (testIndex s)) "" "") s)
  = S (cases_total s).
Proof.
  unfold cases_total, recorded; simpl.
  pose proof (totals_insert (stack s) (current_key s)
    (CaseResult.incr (outcome pass)
       (CaseResult.push (AssertionRecord.mk name type (outcome pass) (S (testIndex s)) "" "")
          (current_item s)))) as H.
  rewrite case_total_incr_push in H. unfold current_item in *.
  destruct (stack s !! current_key s); unfold case_total in *; simpl in *; lia.
Qed.

Lemma suite_total_recorded pass name type s :
  suite_total (recorded (AssertionRecord.mk name type (outcome pass) (S (testIndex s)) "" "") s)
  = S (suite_total s).
Proof. destruct pass; unfold suite_total; simpl; lia. Qed.

Lemma testIndex_recorded r s : testIndex (recorded r s) = S (testIndex s).
Proof. done. Qed.

Lemma cases_total_skipped s : cases_total (skipped s) = cases_total s.
Proof. done. Qed.

Lemma counted_atomic env w w' : atomic env w w' -> counted w -> counted w'.
Proof.
  intros Hstep [Hsome Hnone]. destruct Hstep as [w title isCLI|w r s s' Hs Hadm|w r s a Hs|w ev Hev|w r]; split; simpl.
  - intros r s. destruct (decide (r = fresh (dom (suites w)))) as [->|Hne].
    + rewrite lookup_insert_eq. intros [= <-]. rewrite (Hnone _ (fresh_suite_None w)). done.
    + rewrite lookup_insert_ne by done. apply Hsome.
  - intros r. destruct (decide (r = fresh (dom (suites w)))) as [->|Hne].
    + by rewrite lookup_insert_eq.
    + rewrite lookup_insert_ne by done. apply Hnone.
  - intros r0 s0. destruct (decide (r0 = r)) as [->|Hne].
    + rewrite lookup_insert_eq. intros [= <-].
      destruct (admin_keeps _ _ Hadm) as (Hst & Hsr & Hti).
      unfold cases_total, suite_total. rewrite Hst, Hsr, Hti. by apply Hsome.
    + rewrite lookup_insert_ne by done. apply Hsome.
  - intros r0. destruct (decide (r0 = r)) as [->|Hne].
    + by rewrite lookup_insert_eq.
    + rewrite lookup_insert_ne by done. apply Hnone.
  - intros r0 s0. rewrite assertion_calls_snoc; simpl.
    destruct (decide (r0 = r)) as [->|Hne].
    + rewrite lookup_insert_eq. intros [= <-]. rewrite Nat.eqb_refl.
      destruct (Hsome _ _ Hs) as (Hc & Hi & Hle).
      destruct (dispatch_state env a s) as [[_ [name ->]]|[_ ->]].
      * rewrite cases_total_recorded, suite_total_recorded, testIndex_recorded. lia.
      * rewrite cases_total_skipped. unfold skipped, suite_total in *. simpl. lia.
    + rewrite lookup_insert_ne by done. intros Hs0.
      destruct (Nat.eqb_spec r r0); [congruence|].
      destruct (Hsome _ _ Hs0) as (? & ? & ?). lia.
  - intros r0. rewrite assertion_calls_snoc; simpl.
    destruct (decide (r0 = r)) as [->|Hne].
    + by rewrite lookup_insert_eq.
    + rewrite lookup_insert_ne by done. intros Hs0.
      destruct (Nat.eqb_spec r r0); [congruence|]. rewrite (Hnone _ Hs0). done.
  - intros r s Hs. rewrite assertion_calls_snoc.
    replace (asserted_on r ev) with false by (by destruct ev).
    destruct (Hsome _ _ Hs) as (? & ? & ?). lia.
  - intros r Hr. rewrite assertion_calls_snoc.
    replace (asserted_on r ev) with false by (by destruct ev).
    rewrite (Hnone _ Hr). done.
  - apply Hsome.
  - apply Hnone.
Qed.

Lemma reachable_counted env fs w : reachable env fs w -> counted w.
Proof.
  apply (reachable_ind_atomic env counted fs); [|apply counted_atomic].
  split; intros r; simpl; [intros s|]; by rewrite ?lookup_empty.
Qed.

Lemma call_assertion_there env r a w s :
  suites w !! r = Some s ->
  call_assertion env r a w =
  ((dispatch env a s).1, set_suite r (dispatch env a s).2 (logged (Asserted r a) w)).
Proof.
  intros Hs. unfold call_assertion, on_suite, bind, suite, log, modify; simpl.
  rewrite Hs; simpl. rewrite Hs. by destruct (dispatch env a s).
Qed.

(** C3, where the code falls short of it.  In every world a client program
    can reach, the sum of [pass + fail] over the entries of a suite's
    case-result map equals [suiteResults.pass + suiteResults.fail], and
    [testIndex] is the number of assertion calls made on the suite; but the
    total is the number of calls only as long as every call was filed.  A
    call made while the current case is named after a member of
    [Object.prototype] (and has no entry yet) finds that member for its
    entry: it is counted by [testIndex], throws a [TypeError] and leaves
    [suiteResults] and the case-result map as they were, so that from then
    on the total is short of the calls. *)
Theorem assertion_calls_under_a_prototype_name_are_not_counted env fs w r s :
  reachable env fs w ->
  suites w !! r = Some s ->
  cases_total s = suite_total s ∧
  testIndex s = assertion_calls r (trace w) ∧
  (suite_total s <= assertion_calls r (trace w))%nat ∧
  (∀ a, files s = true ->
     let out := call_assertion env r a w in
     out.1 = Normal (verdict a) ∧
     ∃ s', suites out.2 !! r = Some s' ∧
           suite_total s' = S (suite_total s) ∧
           assertion_calls r (trace out.2) = S (assertion_calls r (trace w))) ∧
  (∀ a, files s = false ->
     let out := call_assertion env r a w in
     out.1 = Thrown TypeError ∧
     ∃ s', suites out.2 !! r = Some s' ∧
           suiteResults s' = suiteResults s ∧ stack s' = stack s ∧
           suite_total s' = suite_total s ∧
           assertion_calls r (trace out.2) = S (assertion_calls r (trace w))).
Proof.
  intros Hw Hs.
  destruct (reachable_counted env fs w Hw) as [Hsome _].
  destruct (Hsome r s Hs) as (Hc & Hi & Hle).
  split; [done|]. split; [done|]. split; [lia|]. split.
  - intros a Hf out. subst out. rewrite (call_assertion_there env r a w s Hs).
    destruct (dispatch_recorded env a s Hf) as [name ->]. cbn [fst snd].
    split; [done|]. eexists. simpl. rewrite lookup_insert_eq. split; [done|].
    rewrite suite_total_recorded, assertion_calls_snoc. simpl.
    rewrite Nat.eqb_refl. split; [done|lia].
  - intros a Hf out. subst out. rewrite (call_assertion_there env r a w s Hs).
    rewrite (dispatch_skipped env a s Hf). cbn [fst snd].
    split; [done|]. eexists. simpl. rewrite lookup_insert_eq. split; [done|].
    rewrite assertion_calls_snoc. simpl. rewrite Nat.eqb_refl.
    repeat split; lia.
Qed.

(** ** Sequence indices *)

Lemma lines_insert (m : gmap string CaseResult.t) k x :
  map_fold (fun _ item acc => case_lines item ++ acc) [] (<[k := x]> m)
    ++ from_option case_lines [] (m !! k)
  ≡ₚ case_lines x ++ map_fold (fun _ item acc => case_lines item ++ acc) [] m.
Proof.
  assert (∀ (j : string) z, Proper ((≡ₚ) ==> (≡ₚ)) (fun acc => case_lines z ++ acc))
    as Hproper by (intros _ z l1 l2 Hl; by rewrite Hl).
  assert (∀ z1 z2 (y : list nat),
    case_lines z1 ++ case_lines z2 ++ y ≡ₚ case_lines z2 ++ case_lines z1 ++ y) as Hcomm.
  { intros. rewrite !app_assoc. by rewrite (Permutation_app_comm (case_lines z1)). }
  destruct (m !! k) as [old|] eqn:Hk; simpl.
  - rewrite <- insert_delete_eq.
    rewrite (map_fold_insert (≡ₚ)); [|done|intros; apply Hcomm|by rewrite lookup_delete_eq].
    rewrite (map_fold_delete (≡ₚ) _ _ k old m); [|done|intros; apply Hcomm|done].
    rewrite <- !app_assoc. apply Permutation_app_head, Permutation_app_comm.
  - rewrite app_nil_r.
    rewrite (map_fold_insert (≡ₚ)); [done|done|intros; apply Hcomm|done].
Qed.

Lemma all_lines_recorded r s :
  all_lines (recorded r s) ≡ₚ all_lines s ++ [AssertionRecord.line r].
Proof.
  unfold all_lines, recorded; simpl.
  pose proof (lines_insert (stack s) (current_key s)
    (CaseResult.incr (AssertionRecord.result r) (CaseResult.push r (current_item s)))) as H.
  assert (case_lines (CaseResult.incr (AssertionRecord.result r)
                        (CaseResult.push r (current_item s)))
          = case_lines (current_item s) ++ [AssertionRecord.line r]) as Hl.
  { unfold CaseResult.incr, case_lines.
    repeat case_match; simpl; by rewrite fmap_app. }
  rewrite Hl in H. clear Hl.
  assert (case_lines (current_item s) = from_option case_lines [] (stack s !! current_key s))
    as Hc by (unfold current_item; by destruct (stack s !! current_key s)).
  rewrite Hc in H.
  apply (Permutation_app_inv_r (from_option case_lines [] (stack s !! current_key s))).
  rewrite H. rewrite (Permutation_app_comm (_ ++ [_])).
  rewrite <- (app_assoc _ [_]). apply Permutation_app_head, Permutation_app_comm.
Qed.

Lemma reachable_numbered env fs w r s :
  reachable env fs w -> suites w !! r = Some s ->
  ∃ lost, all_lines s ++ lost ≡ₚ seq 1 (testIndex s).
Proof.
  intros Hw Hs.
  refine (reachable_suite_ind env fs
            (fun s => ∃ lost, all_lines s ++ lost ≡ₚ seq 1 (testIndex s))
            _ _ _ _ w Hw r s Hs); clear.
  - intros title isCLI. by exists [].
  - intros s s' Hadm [lost Hl]. destruct (admin_keeps _ _ Hadm) as (Hst & _ & Hti).
    exists lost. unfold all_lines. by rewrite Hst, Hti.
  - intros s name type b _ [lost Hl]. exists lost.
    rewrite all_lines_recorded, testIndex_recorded. cbn [AssertionRecord.line].
    rewrite (seq_S (testIndex s) 1), <- Hl.
    rewrite <- !app_assoc. apply Permutation_app_head, Permutation_app_comm.
  - intros s _ [lost Hl]. exists (lost ++ [S (testIndex s)]).
    change (all_lines (skipped s)) with (all_lines s).
    change (testIndex (skipped s)) with (S (testIndex s)).
    by rewrite (seq_S (testIndex s) 1), <- Hl, app_assoc.
Qed.

Lemma index_kept_rtc env w w' : rtc (atomic env) w w' -> index_kept w w'.
Proof.
  intros Hrtc r s Hs.
  refine (suites_rtc env (fun s s' => (testIndex s <= testIndex s')%nat)
            _ _ _ _ _ w w' Hrtc r s Hs); clear; simpl.
  - intros; lia.
  - intros; lia.
  - intros s s' Hadm. destruct (admin_keeps _ _ Hadm) as (_ & _ & ->). lia.
  - intros; lia.
  - intros; lia.
Qed.

(** C4, where the code falls short of it.  Within a suite's lifetime no
    sequence index is handed out twice and none is reset: the indices of the
    records, together with those that went to no record, are [1 ..
    testIndex], each once, and no operation of a client removes the suite or
    lowers its [testIndex].  An assertion that is filed gets [testIndex + 1],
    one more than the last index handed out.  But an assertion made while
    the current case is named after a member of [Object.prototype] takes the
    next index and throws a [TypeError] without a record, so that the record
    after it is more than one beyond the record before it, and the first
    record of a suite need not have the index 1. *)
Theorem sequence_indices_skip_under_a_prototype_name env fs w r s :
  reachable env fs w ->
  suites w !! r = Some s ->
  (∃ lost, all_lines s ++ lost ≡ₚ seq 1 (testIndex s)) ∧
  (∀ a, files s = true ->
        (dispatch env a s).1 = Normal (verdict a) ∧
        testIndex (dispatch env a s).2 = S (testIndex s) ∧
        all_lines (dispatch env a s).2 ≡ₚ all_lines s ++ [S (testIndex s)]) ∧
  (∀ a, files s = false ->
        (dispatch env a s).1 = Thrown TypeError ∧
        testIndex (dispatch env a s).2 = S (testIndex s) ∧
        all_lines (dispatch env a s).2 = all_lines s) ∧
  (∀ o, ∃ s', suites (exec env o w).2 !! r = Some s' ∧
              (testIndex s <= testIndex s')%nat).
Proof.
  intros Hw Hs.
  split; [exact (reachable_numbered env fs w r s Hw Hs)|]. split; [|split].
  - intros a Hf. destruct (dispatch_recorded env a s Hf) as [name ->]; simpl.
    split; [done|]. split; [done|]. by rewrite all_lines_recorded.
  - intros a Hf. by rewrite (dispatch_skipped env a s Hf).
  - intros o. exact (index_kept_rtc env _ _ (steps_exec env o w) r s Hs).
Qed.

(** ** What a recording leaves alone *)

Lemma recorded_same_outside r s : same_outside_results s (recorded r s).
Proof.
  unfold same_outside_results, recorded; simpl. repeat apply conj; try reflexivity.
  intros k Hk. by rewrite lookup_insert_ne.
Qed.

Lemma skipped_same_outside s : same_outside_results s (skipped s).
Proof. unfold same_outside_results, skipped; simpl. by repeat apply conj. Qed.

Lemma reachable_registered_untouched env fs w r s :
  reachable env fs w -> suites w !! r = Some s -> Forall counters_untouched (tests s).
Proof.
  intros Hw Hs.
  refine (reachable_suite_ind env fs (fun s => Forall counters_untouched (tests s))
            _ _ _ _ w Hw r s Hs); clear.
  - intros title isCLI. constructor.
  - intros s s' Hadm Hs. destruct Hadm; simpl; try done.
    apply Forall_app. split; [done|]. by repeat constructor.
  - by intros.
  - by intros.
Qed.

(** C8: a recording changes nothing but the owning instance, and of it only
    [testIndex], [suiteResults] and the current case's entry of [stack]:
    the other instances, the global [Testify.instances] and the client's
    functions are as before (the trace, which is not program state, gains
    the call); and in every reachable world the [pass] and [fail] counters
    of the registered [tests] entries are still [0]. *)
Theorem recording_changes_only_the_results_of_its_suite env fs w r s :
  reachable env fs w ->
  suites w !! r = Some s ->
  Forall counters_untouched (tests s) ∧
  (∀ pass message, same_outside_results s (recordTest env pass message s).2) ∧
  (∀ a,
     let w' := (call_assertion env r a w).2 in
     instances w' = instances w ∧ functions w' = functions w ∧
     (∀ r', r' ≠ r -> suites w' !! r' = suites w !! r') ∧
     ∃ s', suites w' !! r = Some s' ∧ same_outside_results s s' ∧
           Forall counters_untouched (tests s')).
Proof.
  intros Hw Hs.
  pose proof (reachable_registered_untouched env fs w r s Hw Hs) as Hreg.
  split; [done|]. split.
  - intros pass message. rewrite recordTest_cases.
    destruct (files s); [apply recorded_same_outside|apply skipped_same_outside].
  - intros a. rewrite (call_assertion_there env r a w s Hs). cbn [snd].
    repeat apply conj; try reflexivity.
    + intros r' Hr'. simpl. by rewrite lookup_insert_ne.
    + eexists. simpl. rewrite lookup_insert_eq. split; [done|].
      destruct (dispatch_state env a s) as [[_ [name ->]]|[_ ->]].
      * split; [apply recorded_same_outside|done].
      * split; [apply skipped_same_outside|done].
Qed.

(** ** Running on an instance whose state is known *)

Lemma set_suite_set_suite r s s' w : set_suite r s' (set_suite r s w) = set_suite r s' w.
Proof. unfold set_suite; simpl. by rewrite insert_insert_eq. Qed.

Lemma suite_set_suite r s w : suite r (set_suite r s w) = (Normal s, set_suite r s w).
Proof. unfold suite; simpl. by rewrite lookup_insert_eq. Qed.

Lemma on_suite_set_suite {A} r (m : M Testify A) s w :
  on_suite r m (set_suite r s w) = ((m s).1, set_suite r (m s).2 w).
Proof.
  unfold on_suite, bind. rewrite suite_set_suite.
  destruct (m s) as [c s']. by rewrite set_suite_set_suite.
Qed.

Lemma call_assertion_set_suite env r a s w :
  call_assertion env r a (set_suite r s w) =
  ((dispatch env a s).1, set_suite r (dispatch env a s).2 (logged (Asserted r a) w)).
Proof.
  unfold call_assertion, bind. rewrite suite_set_suite.
  unfold log, modify.
  change (mkWorld (suites (set_suite r s w)) (functions (set_suite r s w))
            (instances (set_suite r s w)) (trace (set_suite r s w) ++ [Asserted r a]))
    with (set_suite r s (logged (Asserted r a) w)).
  apply on_suite_set_suite.
Qed.

Lemma log_set_suite ev r s w :
  log ev (set_suite r s w) = (Normal tt, set_suite r s (logged ev w)).
Proof. done. Qed.

(** ** Running a callback that asserts twice *)

Lemma bind_normal {S A B} (m : M S A) (k : A -> M S B) s a s' :
  m s = (Normal a, s') -> bind m k s = k a s'.
Proof. unfold bind. by intros ->. Qed.

Lemma bind_thrown {S A B} (m : M S A) (k : A -> M S B) s e s' :
  m s = (Thrown e, s') -> bind m k s = (Thrown e, s').
Proof. unfold bind. by intros ->. Qed.

Lemma files_recorded rec s : files (recorded rec s) = true.
Proof.
  unfold files. apply orb_true_intro. left. apply bool_decide_eq_true_2.
  unfold recorded, current_key; simpl. rewrite lookup_insert_eq. eauto.
Qed.

Lemma true_then_false_runs env r s w on1 on2 message1 message2 :
  files s = true ->
  the_suite on1 -> the_suite on2 ->
  ∃ name1 name2 w',
    run_prog env (true_then_false on1 on2 message1 message2) r [r] (set_suite r s w) =
    (Normal tt,
     set_suite r
       (recorded (AssertionRecord.mk name2 (bt_toString env
                    (recorded (AssertionRecord.mk name1 (bt_toString env s) "pass"
                                 (S (testIndex s)) "" "") s))
                    "fail" (S (S (testIndex s))) "" "")
          (recorded (AssertionRecord.mk name1 (bt_toString env s) "pass"
                       (S (testIndex s)) "" "") s)) w') ∧
    suites w' = suites w ∧ functions w' = functions w ∧ instances w' = instances w.
Proof.
  intros Hfiles Hon1 Hon2.
  assert (∀ on, the_suite on -> resolve on r [r] = Some r) as Hres
    by (by intros on [-> | ->]).
  destruct (dispatch_recorded env (call_assert (JBool true) message1) s Hfiles) as [name1 H1].
  set (s1 := recorded (AssertionRecord.mk name1 (bt_toString env s) "pass"
                         (S (testIndex s)) "" "") s).
  destruct (dispatch_recorded env (call_assert (JBool false) message2) s1
              (files_recorded _ _)) as [name2 H2].
  exists name1, name2, (logged (Asserted r (call_assert (JBool false) message2))
                          (logged (Asserted r (call_assert (JBool true) message1)) w)).
  split; [|done].
  unfold true_then_false; simpl. rewrite (Hres _ Hon1).
  erewrite bind_normal; [|rewrite call_assertion_set_suite, H1; reflexivity].
  simpl. rewrite (Hres _ Hon2).
  erewrite bind_normal; [|rewrite call_assertion_set_suite; fold s1; rewrite H2; reflexivity].
  reflexivity.
Qed.

Lemma exec_all_cons env o rest w c w' :
  exec env o w = (c, w') ->
  exec_all env (o :: rest) w = (c :: (exec_all env rest w').1, (exec_all env rest w').2).
Proof. simpl. intros ->. by destruct (exec_all env rest w'). Qed.

Lemma apply_function env o p this args w :
  apply_defined o = true ->
  functions w !! identity o = Some p ->
  apply env (Object o) this args w =
  run_prog env p this args (logged (Applied (identity o) this args) w).
Proof. intros Ha Hp. unfold apply, bind, get; simpl. by rewrite Ha, Hp. Qed.

(** ** [run] without a [before] hook *)

(** C5, in [src/lib/Testify/Testify.js]: [run()] tests [isCallable(this._before)]
    without the [!== null] guard its other three hooks have, so on a suite
    whose [before] hook was never set it throws a [TypeError] at once: no
    hook or case body is applied, nothing is reported, the world is as it
    was. *)
Theorem lib_run_without_before_hook_throws pst w r s :
  suites w !! r = Some s ->
  _before s = JNull ->
  run (Env lib_Testify_js pst) r w = (Thrown TypeError, w).
Proof.
  intros Hs Hb. unfold run.
  erewrite bind_normal; [|unfold suite; by rewrite Hs].
  erewrite bind_thrown; [reflexivity|].
  unfold per_copy; simpl. by rewrite Hb.
Qed.

Lemma lib_run_without_before_hook_throws_witness :
  let w := (exec_all (Env lib_Testify_js (fun _ => []))
              [New (JString "suite") JUndefined;
               Test 0 (JString "case") (Object (function 1))]
              (initial sample_functions)).2 in
  run (Env lib_Testify_js (fun _ => [])) 0 w = (Thrown TypeError, w).
Proof.
  intros w.
  refine (lib_run_without_before_hook_throws (fun _ => []) w 0
            (set_tests [TestCase.mk (JString "case") (Object (function 1)) 0 0]
               (Constructor (JString "suite") JUndefined)) _ _).
  - vm_compute. reflexivity.
  - reflexivity.
Defined.

(** ** Registration of what is not invokable *)

(** C6, where the code falls short of it: given [null] or [undefined] as a
    hook or as a test-case body, registration throws a [TypeError] from
    [isCallable] reading [fn.call], not the [TestifyException] that
    [affirmCallable] documents; for every other primitive it does throw the
    [TestifyException], and in either case the suite is left as it was; an
    object whose [call] and [apply] properties are defined is stored without
    being asked whether it can be invoked. *)
Theorem registration_of_null_throws_TypeError s :
  (∀ v, v = Prim JNull ∨ v = Prim JUndefined ->
     before v s = (Thrown TypeError, s) ∧
     after v s = (Thrown TypeError, s) ∧
     beforeEach v s = (Thrown TypeError, s) ∧
     afterEach v s = (Thrown TypeError, s) ∧
     (∀ n, test (JString n) v s = (Thrown TypeError, s)) ∧
     test v JUndefined s = (Thrown TypeError, s)) ∧
  (∀ v, v = Prim JNull ∨ v = Prim JUndefined ->
     ∀ name, affirmCallable v name s ≠
               (Thrown (TestifyException (name +:+ "(): is not a valid callback function!")), s)) ∧
  (∀ p, p ≠ JNull -> p ≠ JUndefined ->
     before (Prim p) s =
       (Thrown (TestifyException "before(): is not a valid callback function!"), s) ∧
     (∀ n, test (JString n) (Prim p) s =
       (Thrown (TestifyException "test(): is not a valid callback function!"), s))) ∧
  (∀ o, call_defined o = true -> apply_defined o = true ->
     before (Object o) s = (Normal tt, set_before (Object o) s)).
Proof.
  split; [|split; [|split]].
  - intros v [-> | ->]; repeat apply conj; reflexivity.
  - intros v [-> | ->] name; discriminate.
  - intros p Hn Hu. destruct p; try done; split; reflexivity.
  - intros o Hc Ha. unfold before, affirmCallable, isCallable, bind, ret, modify; simpl.
    by rewrite Hc, Ha.
Qed.

Lemma registration_of_null_throws_TypeError_witness :
  let s := Constructor (JString "suite") JUndefined in
  before JNull s = (Thrown TypeError, s) ∧
  test (JString "case") JNull s = (Thrown TypeError, s).
Proof.
  intros s.
  destruct (registration_of_null_throws_TypeError s) as (H & _).
  destruct (H JNull (or_introl eq_refl)) as (Hb & _ & _ & _ & Ht & _).
  exact (conj Hb (Ht "case")).
Defined.

(** ** The two copies side by side *)

Lemma erase_suite_inv s1 s2 :
  erase_suite s1 = erase_suite s2 ->
  testIndex s1 = testIndex s2 ∧ tests s1 = tests s2 ∧
  erase_item <$> stack s1 = erase_item <$> stack s2 ∧
  currentTestCase s1 = currentTestCase s2 ∧ suiteResults s1 = suiteResults s2 ∧
  _before s1 = _before s2 ∧ _after s1 = _after s2 ∧
  _beforeEach s1 = _beforeEach s2 ∧ _afterEach s1 = _afterEach s2 ∧
  fileCache s1 = fileCache s2 ∧ suiteTitle s1 = suiteTitle s2 ∧
  data s1 = data s2 ∧ isCLI_arg s1 = isCLI_arg s2.
Proof. unfold erase_suite, set_stack. intros [=]. by repeat split. Qed.

Lemma erase_item_recorded r item :
  erase_item (CaseResult.incr (AssertionRecord.result r) (CaseResult.push r item)) =
  CaseResult.incr (AssertionRecord.result r)
    (CaseResult.push (erase_record r) (erase_item item)).
Proof.
  unfold CaseResult.incr, CaseResult.push, erase_item; simpl.
  repeat case_match; simpl; by rewrite fmap_app.
Qed.

Lemma erase_suite_recorded r1 r2 s1 s2 :
  erase_record r1 = erase_record r2 ->
  erase_suite s1 = erase_suite s2 ->
  erase_suite (recorded r1 s1) = erase_suite (recorded r2 s2).
Proof.
  intros Hr H.
  destruct (erase_suite_inv _ _ H)
    as (Hti & Ht & Hst & Hc & Hsr & Hb & Ha & Hbe & Hae & Hfc & Hsu & Hd & Hcli).
  assert (AssertionRecord.result r1 = AssertionRecord.result r2) as Hres
    by (by injection Hr).
  assert (erase_item (current_item s1) = erase_item (current_item s2)) as Hitem.
  { unfold current_item, current_key. rewrite Hc.
    pose proof (f_equal (fun m => m !! ToPropertyKey (currentTestCase s2)) Hst) as Hl.
    simpl in Hl. rewrite !lookup_fmap in Hl.
    destruct (stack s1 !! _), (stack s2 !! _); simpl in *; congruence. }
  unfold erase_suite, recorded, set_stack, set_suiteResults, set_testIndex; simpl.
  rewrite !fmap_insert, !erase_item_recorded.
  unfold current_key.
  by rewrite Hti, Ht, Hst, Hc, Hsr, Hb, Ha, Hbe, Hae, Hfc, Hsu, Hd, Hcli, Hres, Hr, Hitem.
Qed.

Lemma suite_alike_fields N s1 s2 :
  suite_alike N s1 s2 ->
  testIndex s1 = testIndex s2 ∧ tests s1 = tests s2 ∧
  currentTestCase s1 = currentTestCase s2 ∧ suiteResults s1 = suiteResults s2 ∧
  _before s1 = _before s2 ∧ _after s1 = _after s2 ∧
  _beforeEach s1 = _beforeEach s2 ∧ _afterEach s1 = _afterEach s2.
Proof. unfold suite_alike, set_stack. intros [[=] _]. by repeat split. Qed.

Lemma suite_alike_update N (f : Testify -> Testify) s1 s2 :
  (∀ s, set_stack ∅ (f s) = f (set_stack ∅ s)) -> (∀ s, stack (f s) = stack s) ->
  suite_alike N s1 s2 -> suite_alike N (f s1) (f s2).
Proof.
  intros Hf Hst [H Hk]. split; [by rewrite !Hf, H|].
  intros k. rewrite !Hst. apply Hk.
Qed.

Lemma files_alike N s1 s2 : suite_alike N s1 s2 -> files s1 = files s2.
Proof.
  intros H. destruct (suite_alike_fields _ _ _ H) as (_ & _ & Hc & _).
  destruct H as [_ Hk]. specialize (Hk (ToPropertyKey (currentTestCase s2))).
  unfold files, current_key. rewrite Hc, !bool_decide_is_Some.
  destruct (stack s1 !! _), (stack s2 !! _); by inversion Hk.
Qed.

Lemma current_item_alike N s1 s2 :
  suite_alike N s1 s2 -> item_alike N (current_item s1) (current_item s2).
Proof.
  intros H. destruct (suite_alike_fields _ _ _ H) as (_ & _ & Hc & _).
  destruct H as [_ Hk]. specialize (Hk (ToPropertyKey (currentTestCase s2))).
  unfold current_item, current_key. rewrite Hc.
  destruct (stack s1 !! _), (stack s2 !! _); inversion Hk; subst; simpl; [done|].
  repeat split. constructor.
Qed.

Lemma item_alike_recorded N r1 r2 i1 i2 :
  record_alike N r1 r2 -> item_alike N i1 i2 ->
  item_alike N (CaseResult.incr (AssertionRecord.result r1) (CaseResult.push r1 i1))
    (CaseResult.incr (AssertionRecord.result r2) (CaseResult.push r2 i2)).
Proof.
  intros Hr (Hn & Hp & Hf & Ht).
  assert (Forall2 (record_alike N) (CaseResult.tests i1 ++ [r1]) (CaseResult.tests i2 ++ [r2]))
    by (apply Forall2_app; [done|by constructor]).
  destruct Hr as (_ & <- & _).
  unfold CaseResult.incr, CaseResult.push, item_alike.
  repeat case_match; simpl; repeat split; congruence.
Qed.

Lemma suite_alike_recorded N r1 r2 s1 s2 :
  record_alike N r1 r2 -> suite_alike N s1 s2 ->
  suite_alike N (recorded r1 s1) (recorded r2 s2).
Proof.
  intros Hr H. pose proof (current_item_alike _ _ _ H) as Hitem.
  destruct (suite_alike_fields _ _ _ H) as (Hti & _ & Hc & Hsr & _).
  assert (AssertionRecord.result r1 = AssertionRecord.result r2) as Hres by apply Hr.
  destruct H as [H0 Hk]. split.
  - revert H0. unfold recorded, set_suiteResults, set_stack, set_testIndex; simpl.
    intros [=]. congruence.
  - intros k. unfold recorded, current_key; simpl. rewrite Hc.
    destruct (decide (k = ToPropertyKey (currentTestCase s2))) as [->|Hne].
    + rewrite !lookup_insert_eq. constructor. by apply item_alike_recorded.
    + rewrite !lookup_insert_ne by done. apply Hk.
Qed.

Lemma suite_alike_skipped N s1 s2 :
  suite_alike N s1 s2 -> suite_alike N (skipped s1) (skipped s2).
Proof.
  intros H. destruct (suite_alike_fields _ _ _ H) as (Hti & _).
  destruct H as [H0 Hk]. split; [|done].
  revert H0. unfold skipped, set_stack, set_testIndex; simpl. intros [=]. congruence.
Qed.

Lemma alike_set_suite N r s1 s2 w1 w2 :
  alike N w1 w2 -> suite_alike N s1 s2 -> alike N (set_suite r s1 w1) (set_suite r s2 w2).
Proof.
  intros (Hf & Ht & Hs) H. repeat split; [done..|]. intros r'. simpl.
  destruct (decide (r' = r)) as [->|Hne].
  - rewrite !lookup_insert_eq. by constructor.
  - rewrite !lookup_insert_ne by done. apply Hs.
Qed.

Lemma alike_dom N w1 w2 : alike N w1 w2 -> dom (suites w1) = dom (suites w2).
Proof.
  intros (_ & _ & Hs). apply set_eq. intros r. rewrite !elem_of_dom.
  specialize (Hs r). destruct (suites w1 !! r), (suites w2 !! r); inversion Hs;
    split; intros [? ?]; by eauto.
Qed.

Lemma alike_initial N fs : alike N (initial fs) (initial fs).
Proof. repeat split. intros r. simpl. rewrite lookup_empty. constructor. Qed.

Lemma spelled_functions_ok : functions_ok spelled_out spelled_functions.
Proof.
  intros f p Hp. unfold spelled_functions in Hp.
  apply lookup_insert_Some in Hp as [[_ <-]|[_ Hp]].
  { repeat (constructor; try done; intros). }
  apply lookup_singleton_Some in Hp as [_ <-].
  repeat (constructor; try done; intros).
Qed.

Lemma prog_ok_any p : prog_ok (fun _ => True) p.
Proof. induction p; by constructor. Qed.

Lemma agree_eq {A} (c1 c2 : completion A) : agree eq c1 c2 -> c1 = c2.
Proof. destruct c1, c2; simpl; intros H; try done; by subst. Qed.

Lemma strict_eq_null h : h ≠ Prim JNull -> strict_eq h JNull = false.
Proof. by destruct h as [[]|]. Qed.

(** The labels: by default related, and the same once spelled out. *)
Lemma default_labels_related pst pst' a :
  name_rel (or_else (message_of a) (JString (default_label (Env lib_Testify_js pst) a)))
    (or_else (message_of a) (JString (default_label (Env part_000 pst') a))).
Proof.
  unfold name_rel, or_else.
  destruct a; simpl; destruct (ToBoolean _); auto.
Qed.

Lemma spelled_out_labels_equal pst pst' a :
  spelled_out a ->
  or_else (message_of a) (JString (default_label (Env lib_Testify_js pst) a))
  = or_else (message_of a) (JString (default_label (Env part_000 pst') a)).
Proof. unfold or_else. destruct a; simpl; try done; by intros ->. Qed.

Section Copies.

Variables (N : value -> value -> Prop) (ok : assertion -> Prop).
Variables (lib bundled : environment).

Hypothesis lib_file : file lib = lib_Testify_js.
Hypothesis bundled_file : file bundled = part_000.

Hypothesis labels :
  ∀ a, ok a ->
    N (or_else (message_of a) (JString (default_label lib a)))
      (or_else (message_of a) (JString (default_label bundled a))).

Lemma sim_suite_ret {A} (R : A -> A -> Prop) a1 a2 :
  R a1 a2 -> sim_suite N R (ret a1) (ret a2).
Proof. intros HR s1 s2 H. by split. Qed.

Lemma sim_suite_bind {A B} (R : A -> A -> Prop) (Q : B -> B -> Prop) m1 m2 k1 k2 :
  sim_suite N R m1 m2 ->
  (∀ a1 a2, R a1 a2 -> sim_suite N Q (k1 a1) (k2 a2)) ->
  sim_suite N Q (bind m1 k1) (bind m2 k2).
Proof.
  intros Hm Hk s1 s2 H. unfold bind. destruct (Hm s1 s2 H) as [Hs Hc].
  destruct (m1 s1) as [[a1|e1] s1'], (m2 s2) as [[a2|e2] s2']; simpl in *; try done.
  by apply Hk.
Qed.

Lemma sim_suite_isCallable v : sim_suite N eq (isCallable v) (isCallable v).
Proof. intros s1 s2 H. by destruct v as [[]|]. Qed.

Lemma sim_suite_affirmCallable v name :
  sim_suite N eq (affirmCallable v name) (affirmCallable v name).
Proof.
  apply (sim_suite_bind eq); [apply sim_suite_isCallable|].
  intros c ? <-. destruct (negb c); by intros s1 s2 H.
Qed.

Lemma sim_suite_modify (f : Testify -> Testify) :
  (∀ s, set_stack ∅ (f s) = f (set_stack ∅ s)) -> (∀ s, stack (f s) = stack s) ->
  sim_suite N eq (modify f) (modify f).
Proof. intros Hf Hst s1 s2 H. split; [|done]. by apply suite_alike_update. Qed.

Lemma sim_suite_hook name (f : value -> Testify -> Testify) v :
  (∀ s, set_stack ∅ (f v s) = f v (set_stack ∅ s)) -> (∀ s, stack (f v s) = stack s) ->
  sim_suite N eq (affirmCallable v name ;;; modify (f v)) (affirmCallable v name ;;; modify (f v)).
Proof.
  intros Hf Hst. apply (sim_suite_bind eq); [apply sim_suite_affirmCallable|].
  intros _ _ _. by apply sim_suite_modify.
Qed.

Lemma sim_suite_test name testCase : sim_suite N eq (test name testCase) (test name testCase).
Proof.
  apply (sim_suite_bind eq); [apply sim_suite_isCallable|]. intros named ? <-.
  apply (sim_suite_bind (suite_alike N)); [by intros s1 s2 H|].
  intros this1 this2 Hthis. destruct (suite_alike_fields _ _ _ Hthis) as (_ & Ht & _).
  rewrite Ht.
  apply (sim_suite_bind eq); [apply sim_suite_affirmCallable|]. intros _ _ _.
  intros s1 s2 H. destruct (suite_alike_fields _ _ _ H) as (_ & Ht' & _).
  split; [|done]. unfold modify; simpl. rewrite Ht'.
  by apply (suite_alike_update _ (set_tests _)).
Qed.

Lemma sim_suite_dispatch a : ok a -> sim_suite N eq (dispatch lib a) (dispatch bundled a).
Proof.
  intros Ha s1 s2 H. rewrite !dispatch_named, (files_alike _ _ _ H).
  destruct (files s2); simpl; (split; [|done]).
  - apply suite_alike_recorded; [|done]. unfold record_alike; simpl.
    destruct (suite_alike_fields _ _ _ H) as (-> & _). repeat split. by apply labels.
  - by apply suite_alike_skipped.
Qed.

Lemma related_alike {A} (m1 m2 : M world A) w1 w2 :
  related N ok w1 w2 ->
  functions (m1 w1).2 = functions w1 -> alike N (m1 w1).2 (m2 w2).2 ->
  related N ok (m1 w1).2 (m2 w2).2.
Proof. intros [_ Hok] Hf H. split; [done|]. by rewrite Hf. Qed.

Lemma sim_ret {A} (R : A -> A -> Prop) a1 a2 : R a1 a2 -> sim N ok R (ret a1) (ret a2).
Proof. intros HR w1 w2 H. by split. Qed.

Lemma sim_throw {A} (R : A -> A -> Prop) e : sim N ok R (throw e) (throw e).
Proof. intros w1 w2 H. by split. Qed.

Lemma sim_bind {A B} (R : A -> A -> Prop) (Q : B -> B -> Prop) m1 m2 k1 k2 :
  sim N ok R m1 m2 ->
  (∀ a1 a2, R a1 a2 -> sim N ok Q (k1 a1) (k2 a2)) ->
  sim N ok Q (bind m1 k1) (bind m2 k2).
Proof.
  intros Hm Hk w1 w2 H. unfold bind. destruct (Hm w1 w2 H) as [Hw Hc].
  destruct (m1 w1) as [[a1|e1] w1'], (m2 w2) as [[a2|e2] w2']; simpl in *; try done.
  by apply Hk.
Qed.

Lemma sim_when c m1 m2 : sim N ok eq m1 m2 -> sim N ok eq (when c m1) (when c m2).
Proof. destruct c; simpl; [done|intros; by apply sim_ret]. Qed.

Lemma sim_for_each {A} (body1 body2 : A -> M world unit) l :
  (∀ x, sim N ok eq (body1 x) (body2 x)) -> sim N ok eq (for_each body1 l) (for_each body2 l).
Proof.
  intros Hb. induction l as [|x l IH]; simpl; [by apply sim_ret|].
  apply (sim_bind eq); [apply Hb|by intros].
Qed.

Lemma sim_suite_lookup r : sim N ok (suite_alike N) (suite r) (suite r).
Proof.
  intros w1 w2 H. unfold suite. pose proof H as [(_ & _ & Hs) _].
  pose proof (Hs r) as Hr.
  destruct (suites w1 !! r), (suites w2 !! r); inversion Hr; subst; simpl;
    (split; [exact H|done]).
Qed.

Lemma sim_log ev : sim N ok eq (log ev) (log ev).
Proof.
  intros w1 w2 [(Hf & Ht & Hs) Hok]. unfold log, modify; simpl.
  split; [|done]. split; [|done]. split; [done|]. split; [simpl; by rewrite Ht|done].
Qed.

Lemma sim_on_suite {A} (R : A -> A -> Prop) r m1 m2 :
  sim_suite N R m1 m2 -> sim N ok R (on_suite r m1) (on_suite r m2).
Proof.
  intros Hm. apply (sim_bind _ _ _ _ _ _ (sim_suite_lookup r)).
  intros s1 s2 Hs w1 w2 [H Hok]. destruct (Hm s1 s2 Hs) as [Hs' Hc].
  destruct (m1 s1), (m2 s2); simpl in *. split; [|done].
  split; [by apply alike_set_suite|done].
Qed.

Lemma sim_isCallable v : sim N ok eq (isCallable v) (isCallable v).
Proof. intros w1 w2 H. by destruct v as [[]|]. Qed.

Lemma sim_set_and_callable v : sim N ok eq (set_and_callable v) (set_and_callable v).
Proof.
  unfold set_and_callable. destruct (negb _); [apply sim_isCallable|by apply sim_ret].
Qed.

Lemma sim_call_assertion r a :
  ok a -> sim N ok eq (call_assertion lib r a) (call_assertion bundled r a).
Proof.
  intros Ha.
  apply (sim_bind _ _ _ _ _ _ (sim_suite_lookup r)). intros _ _ _.
  apply (sim_bind eq); [apply sim_log|]. intros _ _ _.
  by apply sim_on_suite, sim_suite_dispatch.
Qed.

Lemma sim_run_prog p this args :
  prog_ok ok p -> sim N ok eq (run_prog lib p this args) (run_prog bundled p this args).
Proof.
  induction 1 as [| |on a k Ha Hk IH]; simpl; [by apply sim_ret|apply sim_throw|].
  destruct (resolve on this args); [|apply sim_throw].
  apply (sim_bind eq); [by apply sim_call_assertion|]. by intros b ? <-.
Qed.

Lemma sim_apply f this args :
  sim N ok eq (apply lib f this args) (apply bundled f this args).
Proof.
  destruct f as [[]|o]; simpl; try apply sim_throw.
  apply (sim_bind (fun w1 w2 => functions w1 = functions w2 ∧ functions_ok ok (functions w1))).
  { intros w1 w2 H. split; [done|]. destruct H as [(? & _) ?]. by split. }
  intros w1 w2 [<- Hok].
  destruct (apply_defined o), (functions w1 !! identity o) as [p|] eqn:Hp; try apply sim_throw.
  apply (sim_bind eq); [apply sim_log|]. intros _ _ _. apply sim_run_prog. by eapply Hok.
Qed.

Lemma sim_report r : sim N ok eq (report r) (report r).
Proof.
  unfold report.
  apply (sim_bind _ _ _ _ _ _ (sim_suite_lookup r)). intros s1 s2 Hs.
  apply (sim_bind eq). { by destruct (ToBoolean _), (ToBoolean _); apply sim_ret. }
  intros _ _ _. apply (sim_bind eq); [apply sim_log|]. intros _ _ _. by apply sim_ret.
Qed.

Lemma sim_hook hook r :
  sim N ok eq (let! go := set_and_callable hook in when go (apply lib hook r [r]))
    (let! go := set_and_callable hook in when go (apply bundled hook r [r])).
Proof.
  apply (sim_bind eq); [apply sim_set_and_callable|]. intros go ? <-.
  apply sim_when, sim_apply.
Qed.

(** After the test of the [before] hook, the two copies run alike. *)
Lemma sim_run_rest r (push1 push2 : M world unit) :
  sim N ok eq push1 push2 ->
  sim N ok eq
    (let! this := suite r in
     for_each (fun test =>
       on_suite r (modify (set_currentTestCase (TestCase.name test))) ;;;
       let! this := suite r in
       let! go := set_and_callable (_beforeEach this) in
       when go (apply lib (_beforeEach this) r [r]) ;;;
       apply lib (TestCase.testCase test) r [r] ;;;
       let! this := suite r in
       let! go := set_and_callable (_afterEach this) in
       when go (apply lib (_afterEach this) r [r])) (tests this) ;;;
     let! this := suite r in
     let! go := set_and_callable (_after this) in
     when go (apply lib (_after this) r [r]) ;;;
     report r ;;; push1 ;;; ret (Reference r))
    (let! this := suite r in
     for_each (fun test =>
       on_suite r (modify (set_currentTestCase (TestCase.name test))) ;;;
       let! this := suite r in
       let! go := set_and_callable (_beforeEach this) in
       when go (apply bundled (_beforeEach this) r [r]) ;;;
       apply bundled (TestCase.testCase test) r [r] ;;;
       let! this := suite r in
       let! go := set_and_callable (_afterEach this) in
       when go (apply bundled (_afterEach this) r [r])) (tests this) ;;;
     let! this := suite r in
     let! go := set_and_callable (_after this) in
     when go (apply bundled (_after this) r [r]) ;;;
     report r ;;; push2 ;;; ret (Reference r)).
Proof.
  intros Hpush.
  apply (sim_bind _ _ _ _ _ _ (sim_suite_lookup r)). intros s1 s2 Hs.
  destruct (suite_alike_fields _ _ _ Hs) as (_ & -> & _).
  apply (sim_bind eq).
  { apply sim_for_each. intros t.
    apply (sim_bind eq).
    { apply sim_on_suite, sim_suite_modify; by intros []. }
    intros _ _ _.
    apply (sim_bind _ _ _ _ _ _ (sim_suite_lookup r)). intros s3 s4 Hs34.
    destruct (suite_alike_fields _ _ _ Hs34) as (_ & _ & _ & _ & _ & _ & -> & _).
    apply (sim_bind eq); [apply sim_set_and_callable|]. intros go ? <-.
    apply (sim_bind eq); [apply sim_when, sim_apply|]. intros _ _ _.
    apply (sim_bind eq); [apply sim_apply|]. intros _ _ _.
    apply (sim_bind _ _ _ _ _ _ (sim_suite_lookup r)). intros s5 s6 Hs56.
    destruct (suite_alike_fields _ _ _ Hs56) as (_ & _ & _ & _ & _ & _ & _ & ->).
    apply sim_hook. }
  intros _ _ _.
  apply (sim_bind _ _ _ _ _ _ (sim_suite_lookup r)). intros s3 s4 Hs34.
  destruct (suite_alike_fields _ _ _ Hs34) as (_ & _ & _ & _ & _ & -> & _).
  apply (sim_bind eq); [apply sim_set_and_callable|]. intros go ? <-.
  apply (sim_bind eq); [apply sim_when, sim_apply|]. intros _ _ _.
  apply (sim_bind eq); [apply sim_report|]. intros _ _ _.
  apply (sim_bind eq); [done|intros; by apply sim_ret].
Qed.

Lemma sim_run r w1 w2 :
  related N ok w1 w2 ->
  (∀ s, suites w1 !! r = Some s -> _before s ≠ JNull) ->
  related N ok (run lib r w1).2 (run bundled r w2).2 ∧
  agree eq (run lib r w1).1 (run bundled r w2).1.
Proof.
  intros H Hguard.
  destruct (sim_suite_lookup r w1 w2 H) as [_ Hc]. unfold suite in Hc.
  unfold run.
  destruct (suites w1 !! r) as [s1|] eqn:Hs1, (suites w2 !! r) as [s2|] eqn:Hs2;
    simpl in Hc; try done.
  - rewrite (bind_normal (suite r) _ w1 s1 w1) by (unfold suite; by rewrite Hs1).
    rewrite (bind_normal (suite r) _ w2 s2 w2) by (unfold suite; by rewrite Hs2).
    destruct (suite_alike_fields _ _ _ Hc) as (_ & _ & _ & _ & Hb & _).
    specialize (Hguard s1 eq_refl). rewrite Hb in *.
    match goal with
    | |- related N ok (?m1 w1).2 (?m2 w2).2 ∧ _ =>
        cut (sim N ok eq m1 m2); [intros Hsim; exact (Hsim w1 w2 H)|]
    end.
    apply (sim_bind eq).
    { unfold per_copy. rewrite lib_file, bundled_file. unfold set_and_callable.
      rewrite strict_eq_null by done. simpl. apply sim_isCallable. }
    intros go ? <-. apply (sim_bind eq); [apply sim_when, sim_apply|]. intros _ _ _.
    apply sim_run_rest. intros w3 w4 [(Hf & Ht & Hsu) Hok].
    unfold per_copy. rewrite lib_file, bundled_file. simpl.
    by repeat split.
  - rewrite (bind_thrown (suite r) _ w1 ReferenceError w1) by (unfold suite; by rewrite Hs1).
    rewrite (bind_thrown (suite r) _ w2 ReferenceError w2) by (unfold suite; by rewrite Hs2).
    done.
Qed.

Lemma sim_exec o w1 w2 :
  related N ok w1 w2 -> op_ok ok o -> has_before w1 o ->
  related N ok (exec lib o w1).2 (exec bundled o w2).2 ∧
  (exec lib o w1).1 = (exec bundled o w2).1.
Proof.
  intros H Ho Hguard.
  cut (related N ok (exec lib o w1).2 (exec bundled o w2).2 ∧
       agree eq (exec lib o w1).1 (exec bundled o w2).1).
  { intros [? ?]. split; [done|by apply agree_eq]. }
  destruct o; simpl in *.
  - destruct H as [H Hok]. rewrite (alike_dom _ _ _ H).
    split; [|done]. split; [|done]. apply alike_set_suite; [done|].
    split; [done|]. intros k. simpl. rewrite lookup_empty. constructor.
  - revert w1 w2 H Hguard. intros w1 w2 H _. revert w1 w2 H.
    apply (sim_bind eq); [apply sim_on_suite, sim_suite_test|intros; by apply sim_ret].
  - revert w1 w2 H Hguard. intros w1 w2 H _. revert w1 w2 H.
    apply (sim_bind eq); [|intros; by apply sim_ret].
    apply sim_on_suite, (sim_suite_hook _ set_before); by intros [].
  - revert w1 w2 H Hguard. intros w1 w2 H _. revert w1 w2 H.
    apply (sim_bind eq); [|intros; by apply sim_ret].
    apply sim_on_suite, (sim_suite_hook _ set_after); by intros [].
  - revert w1 w2 H Hguard. intros w1 w2 H _. revert w1 w2 H.
    apply (sim_bind eq); [|intros; by apply sim_ret].
    apply sim_on_suite, (sim_suite_hook _ set_beforeEach); by intros [].
  - revert w1 w2 H Hguard. intros w1 w2 H _. revert w1 w2 H.
    apply (sim_bind eq); [|intros; by apply sim_ret].
    apply sim_on_suite, (sim_suite_hook _ set_afterEach); by intros [].
  - by apply sim_run.
  - revert w1 w2 H Hguard. intros w1 w2 H _. revert w1 w2 H.
    apply (sim_bind eq); [by apply sim_call_assertion|]. intros b ? <-. by apply sim_ret.
  - by apply sim_report.
  - revert w1 w2 H Hguard. intros w1 w2 H _. revert w1 w2 H.
    apply (sim_bind eq); [|intros; by apply sim_ret].
    apply sim_on_suite, sim_suite_affirmCallable.
Qed.

Lemma sim_exec_all ops w1 w2 :
  related N ok w1 w2 -> Forall (op_ok ok) ops -> runs_have_before lib ops w1 ->
  (exec_all lib ops w1).1 = (exec_all bundled ops w2).1 ∧
  related N ok (exec_all lib ops w1).2 (exec_all bundled ops w2).2.
Proof.
  revert w1 w2. induction ops as [|o ops IH]; intros w1 w2 H Hops Hguard; [done|].
  destruct Hguard as [Ho Hrest]. apply Forall_cons in Hops as [Hok Hops].
  destruct (sim_exec o w1 w2 H Hok Ho) as [Hw Hc].
  simpl.
  destruct (exec lib o w1) as [c1 w1'], (exec bundled o w2) as [c2 w2']; simpl in *.
  destruct (IH w1' w2' Hw Hops Hrest) as [Hcs Hws].
  destruct (exec_all lib ops w1') as [cs1 w1''], (exec_all bundled ops w2') as [cs2 w2''];
    simpl in *.
  by subst.
Qed.

End Copies.

(** C9, as far as it holds: for every client program in which each [run]
    finds a [before] hook set, [src/lib/Testify/Testify.js] and the bundled
    copy return the same values and throw the same errors, call for call,
    and leave the same trace and the same suites: the same [testIndex],
    [suiteResults], registrations and hooks, and case for case the same
    counters and, record for record, the same outcome, sequence index and
    name, but that a record made by [assert] or [assertEqual] without a
    truthy message is named [Testify.assertTrue] or [Testify.assertEquals]
    in [src/lib/Testify/Testify.js] where the bundled copy names it
    [Testify.assert] or [Testify.assertEqual].  Where the client gives these
    two methods a truthy message every time, all names are the same.  The
    [type] of a record may differ, and only the bundled copy keeps
    [Testify.instances]. *)
Theorem copies_agree_up_to_default_labels pst pst' ops w1 w2 :
  alike name_rel w1 w2 ->
  runs_have_before (Env lib_Testify_js pst) ops w1 ->
  (exec_all (Env lib_Testify_js pst) ops w1).1 = (exec_all (Env part_000 pst') ops w2).1 ∧
  alike name_rel (exec_all (Env lib_Testify_js pst) ops w1).2
    (exec_all (Env part_000 pst') ops w2).2 ∧
  (alike eq w1 w2 -> functions_ok spelled_out (functions w1) ->
   Forall (op_ok spelled_out) ops ->
   alike eq (exec_all (Env lib_Testify_js pst) ops w1).2
     (exec_all (Env part_000 pst') ops w2).2).
Proof.
  intros H Hguard.
  destruct (sim_exec_all name_rel (fun _ => True) (Env lib_Testify_js pst) (Env part_000 pst')
              eq_refl eq_refl (fun a _ => default_labels_related pst pst' a) ops w1 w2)
    as [Hc [Hw _]].
  - split; [done|]. intros f p _. apply prog_ok_any.
  - apply Forall_forall. intros o _. by destruct o.
  - done.
  - split; [done|]. split; [done|]. intros Heq Hfs Hops.
    by destruct (sim_exec_all eq spelled_out (Env lib_Testify_js pst) (Env part_000 pst')
                   eq_refl eq_refl (spelled_out_labels_equal pst pst') ops w1 w2)
      as [_ [? _]].
Qed.

Lemma copies_agree_up_to_default_labels_witness :
  let lib := Env lib_Testify_js (fun _ => ["at recordTest"; "at assert"]) in
  let w := initial sample_functions in
  let w' := initial spelled_functions in
  ((exec_all lib sample_ops w).1 = (exec_all sample_env sample_ops w).1 ∧
   alike name_rel (exec_all lib sample_ops w).2 (exec_all sample_env sample_ops w).2) ∧
  alike eq (exec_all lib sample_ops w').2 (exec_all sample_env sample_ops w').2.
Proof.
  intros lib w w'.
  assert (∀ fs, runs_have_before lib sample_ops (initial fs)) as Hguard.
  { intros fs. vm_compute. repeat split. intros s Hs Hb. injection Hs as <-. discriminate Hb. }
  split.
  - destruct (copies_agree_up_to_default_labels _ (fun _ => []) sample_ops w w
                (alike_initial _ _) (Hguard _)) as (Hc & Hw & _).
    by split.
  - destruct (copies_agree_up_to_default_labels _ (fun _ => []) sample_ops w' w'
                (alike_initial _ _) (Hguard _)) as (_ & _ & Heq).
    apply Heq; [apply alike_initial|apply spelled_functions_ok|repeat constructor].
Defined.

(** C9 as the spec words it fails twice over: after [assert(true)] on a new
    suite the two copies hold different messages (["Testify.assertTrue"] in
    [src/lib/Testify/Testify.js], ["Testify.assert"] in the bundled copy);
    and [run()] on a new suite throws in the one and returns in the other. *)
Lemma copies_differ :
  let lib := Env lib_Testify_js (fun _ => []) in
  let w := initial ∅ in
  let asserted env :=
    (exec_all env [New (JString "suite") JUndefined;
                   Assertion 0 (call_assert (JBool true) JUndefined)] w).2 in
  let ran env := (exec_all env [New (JString "suite") JUndefined; Run 0] w).1 in
  (stack <$> suites (asserted lib) !! 0%nat) ≠ (stack <$> suites (asserted sample_env) !! 0%nat) ∧
  ((λ item, AssertionRecord.name <$> CaseResult.tests item) <$>
     (suites (asserted lib) !! 0%nat ≫= λ s, stack s !! "null"))
    = Some [Prim (JString "Testify.assertTrue")] ∧
  ((λ item, AssertionRecord.name <$> CaseResult.tests item) <$>
     (suites (asserted sample_env) !! 0%nat ≫= λ s, stack s !! "null"))
    = Some [Prim (JString "Testify.assert")] ∧
  ran lib = [Normal (Reference 0); Thrown TypeError] ∧
  ran sample_env = [Normal (Reference 0); Normal (Reference 0)].
Proof.
  intros lib w asserted ran.
  assert (∀ (m1 m2 : option (gmap string CaseResult.t)),
            (m1 ≫= λ m, m !! "null") ≠ (m2 ≫= λ m, m !! "null") -> m1 ≠ m2) as Hne
    by (intros m1 m2 Hm ->; done).
  split; [|by vm_compute].
  apply Hne. vm_compute. discriminate.
Qed.

(** ** A sample run, for the theorems above *)

Lemma reachable_exec_all env fs ops w :
  reachable env fs w -> reachable env fs (exec_all env ops w).2.
Proof.
  revert w. induction ops as [|o ops IH]; intros w Hw; [done|].
  simpl. pose proof (reachable_exec env fs w o Hw) as Hw'.
  destruct (exec env o w) as [c w']; simpl in *.
  specialize (IH w' Hw'). by destruct (exec_all env ops w').
Qed.

Lemma sample_world_reachable : reachable sample_env sample_functions sample_world.
Proof. apply reachable_exec_all, reachable_initial. Qed.

Lemma sample_suite_lookup : suites sample_world !! 0%nat = Some sample_suite.
Proof. vm_compute. reflexivity. Qed.

Lemma prototype_world_reachable : reachable sample_env sample_functions prototype_world.
Proof. apply reachable_exec_all, reachable_initial. Qed.

Lemma prototype_suite_lookup : suites prototype_world !! 0%nat = Some prototype_suite.
Proof. vm_compute. reflexivity. Qed.

Lemma assertion_calls_under_a_prototype_name_are_not_counted_witness :
  let s := prototype_suite in
  let w := prototype_world in
  cases_total s = suite_total s ∧
  testIndex s = assertion_calls 0 (trace w) ∧
  (suite_total s <= assertion_calls 0 (trace w))%nat ∧
  (∀ a, files s = true ->
     let out := call_assertion sample_env 0 a w in
     out.1 = Normal (verdict a) ∧
     ∃ s', suites out.2 !! 0%nat = Some s' ∧
           suite_total s' = S (suite_total s) ∧
           assertion_calls 0 (trace out.2) = S (assertion_calls 0 (trace w))) ∧
  (∀ a, files s = false ->
     let out := call_assertion sample_env 0 a w in
     out.1 = Thrown TypeError ∧
     ∃ s', suites out.2 !! 0%nat = Some s' ∧
           suiteResults s' = suiteResults s ∧ stack s' = stack s ∧
           suite_total s' = suite_total s ∧
           assertion_calls 0 (trace out.2) = S (assertion_calls 0 (trace w))).
Proof.
  exact (assertion_calls_under_a_prototype_name_are_not_counted sample_env sample_functions
           prototype_world 0 prototype_suite prototype_world_reachable prototype_suite_lookup).
Defined.

(** The run of a suite with the cases [first] and [toString], one passing
    assertion each: two calls, two indices handed out, one record; and the
    call of the client that follows is not filed either. *)
Example prototype_suite_counts :
  (exec_all sample_env prototype_ops (initial sample_functions)).1
    = [Normal (Reference 0); Normal (Reference 0); Normal (Reference 0); Thrown TypeError] ∧
  (testIndex prototype_suite, suite_total prototype_suite, cases_total prototype_suite,
   assertion_calls 0 (trace prototype_world), files prototype_suite)
  = (2%nat, 1%nat, 1%nat, 2%nat, false).
Proof. vm_compute. by split. Qed.

Lemma sequence_indices_skip_under_a_prototype_name_witness :
  let s := prototype_suite in
  (∃ lost, all_lines s ++ lost ≡ₚ seq 1 (testIndex s)) ∧
  (∀ a, files s = true ->
        (dispatch sample_env a s).1 = Normal (verdict a) ∧
        testIndex (dispatch sample_env a s).2 = S (testIndex s) ∧
        all_lines (dispatch sample_env a s).2 ≡ₚ all_lines s ++ [S (testIndex s)]) ∧
  (∀ a, files s = false ->
        (dispatch sample_env a s).1 = Thrown TypeError ∧
        testIndex (dispatch sample_env a s).2 = S (testIndex s) ∧
        all_lines (dispatch sample_env a s).2 = all_lines s) ∧
  (∀ o, ∃ s', suites (exec sample_env o prototype_world).2 !! 0%nat = Some s' ∧
              (testIndex s <= testIndex s')%nat).
Proof.
  exact (sequence_indices_skip_under_a_prototype_name sample_env sample_functions
           prototype_world 0 prototype_suite prototype_world_reachable prototype_suite_lookup).
Defined.

(** The same suite run a second time: its records have the indices 1 and 3,
    and 2 and 4 went to no record. *)
Example prototype_suite_lines :
  let w := (exec_all sample_env (prototype_ops ++ [Run 0]) (initial sample_functions)).2 in
  (λ s, (all_lines s, testIndex s)) <$> suites w !! 0%nat = Some ([1; 3]%nat, 4%nat).
Proof. vm_compute. reflexivity. Qed.

Lemma recording_changes_only_the_results_of_its_suite_witness :
  Forall counters_untouched (tests sample_suite) ∧
  (∀ pass message,
     same_outside_results sample_suite (recordTest sample_env pass message sample_suite).2) ∧
  (∀ a,
     let w' := (call_assertion sample_env 0 a sample_world).2 in
     instances w' = instances sample_world ∧ functions w' = functions sample_world ∧
     (∀ r', r' ≠ 0%nat -> suites w' !! r' = suites sample_world !! r') ∧
     ∃ s', suites w' !! 0%nat = Some s' ∧ same_outside_results sample_suite s' ∧
           Forall counters_untouched (tests s')).
Proof.
  exact (recording_changes_only_the_results_of_its_suite sample_env sample_functions
           sample_world 0 sample_suite sample_world_reachable sample_suite_lookup).
Defined.

Example sample_suite_counts :
  (testIndex sample_suite, suiteResults sample_suite, instances sample_world,
   assertion_calls 0 (trace sample_world))
  = (4%nat, SuiteResults.mk 2 2, [0%nat], 4%nat).
Proof. vm_compute. reflexivity. Qed.

(** ** [run] in order *)

Lemma well_formed_atomic env w w' : atomic env w w' -> well_formed w -> well_formed w'.
Proof.
  intros Hstep Hw.
  destruct Hstep as [w title isCLI|w r s s' Hs Hadm|w r s a Hs|w ev Hev|w r];
    intros r0 s0; simpl; try apply Hw.
  - destruct (decide (r0 = fresh (dom (suites w)))) as [->|Hne].
    + rewrite lookup_insert_eq. intros [= <-]. repeat split; by left.
    + rewrite lookup_insert_ne by done. apply Hw.
  - destruct (decide (r0 = r)) as [->|Hne].
    + rewrite lookup_insert_eq. intros [= <-].
      destruct (Hw r s Hs) as (Hb & Ha & Hbe & Hae).
      destruct Hadm; repeat split; simpl; auto; by right.
    + rewrite lookup_insert_ne by done. apply Hw.
  - destruct (decide (r0 = r)) as [->|Hne].
    + rewrite lookup_insert_eq. intros [= <-].
      destruct (dispatch_state env a s) as [[_ [name ->]]|[_ ->]]; by apply (Hw r s).
    + rewrite lookup_insert_ne by done. apply Hw.
Qed.

Lemma bind_assoc {S A B C} (m : M S A) (k : A -> M S B) (k' : B -> M S C) s :
  bind (bind m k) k' s = bind m (fun a => bind (k a) k') s.
Proof. unfold bind. by destruct (m s) as [[a|e] s']. Qed.

Lemma bind_ext {S A B} (m : M S A) (k k' : A -> M S B) s :
  (∀ a s', k a s' = k' a s') -> bind m k s = bind m k' s.
Proof. intros Hk. unfold bind. by destruct (m s) as [[a|e] s']. Qed.

Lemma for_each_app {S A} (f : A -> M S unit) l1 l2 s :
  for_each f (l1 ++ l2) s = (for_each f l1 ;;; for_each f l2) s.
Proof.
  revert s. induction l1 as [|x l1 IH]; intros s; simpl; [done|].
  rewrite bind_assoc. apply bind_ext. intros _ s'. apply IH.
Qed.

Lemma for_each_app_then {S A B} (f : A -> M S unit) l1 l2 (K : M S B) s :
  (for_each f (l1 ++ l2) ;;; K) s = (for_each f l1 ;;; for_each f l2 ;;; K) s.
Proof.
  rewrite <- bind_assoc. unfold bind at 1 3. by rewrite for_each_app.
Qed.

Lemma keeps_bind I {A B} (m : M world A) (k : A -> M world B) :
  keeps I m -> (∀ a, keeps I (k a)) -> keeps I (bind m k).
Proof.
  intros Hm Hk w Hw. unfold bind. specialize (Hm w Hw).
  destruct (m w) as [[a|e] w']; simpl in *; [by apply Hk|done].
Qed.

Lemma keeps_for_each I {A} (f : A -> M world unit) l :
  (∀ x, keeps I (f x)) -> keeps I (for_each f l).
Proof.
  intros Hf. induction l; simpl; [by intros w|]. apply keeps_bind; auto.
Qed.

Lemma eqv_on_bind I {A B} (m m' : M world A) (k k' : A -> M world B) :
  eqv_on I m m' -> keeps I m' -> (∀ a, eqv_on I (k a) (k' a)) ->
  eqv_on I (bind m k) (bind m' k').
Proof.
  intros Hm Hkeep Hk w Hw. unfold bind. rewrite (Hm w Hw). specialize (Hkeep w Hw).
  destruct (m' w) as [[a|e] w']; simpl in *; [by apply Hk|done].
Qed.

Lemma eqv_on_suite r s {A} (k : Testify -> M world A) k' :
  (∀ s', same_config s s' -> eqv_on (configured r s) (k s') k') ->
  eqv_on (configured r s) (bind (suite r) k) k'.
Proof.
  intros Hk w Hw. destruct Hw as (s' & Hs' & Hc).
  unfold bind, suite. rewrite Hs'. apply Hk; [done|by exists s'].
Qed.

Section Order.

Variable env : environment.
Variable r : nat.
Variable s : Testify.

Lemma same_config_recorded rec s' : same_config s s' -> same_config s (recorded rec s').
Proof. by intros (? & ? & ? & ? & ?). Qed.

Lemma same_config_skipped s' : same_config s s' -> same_config s (skipped s').
Proof. by intros (? & ? & ? & ? & ?). Qed.

Lemma same_config_dispatch a s' : same_config s s' -> same_config s (dispatch env a s').2.
Proof.
  intros H. destruct (dispatch_state env a s') as [[_ [name ->]]|[_ ->]];
    [by apply same_config_recorded|by apply same_config_skipped].
Qed.

Lemma keeps_call_assertion r' a : keeps (configured r s) (call_assertion env r' a).
Proof.
  intros w (s' & Hs' & Hc).
  unfold call_assertion, on_suite, bind, suite, log, modify; simpl.
  destruct (suites w !! r') as [s0|] eqn:Hs0; simpl; [|by exists s'].
  rewrite Hs0. pose proof (same_config_dispatch a s0) as Hd.
  destruct (dispatch env a s0) as [c s1]; simpl in *.
  unfold configured; simpl. destruct (decide (r = r')) as [->|Hne].
  - rewrite lookup_insert_eq. eexists; split; [done|].
    apply Hd. by simplify_eq.
  - rewrite lookup_insert_ne by done. by exists s'.
Qed.

Lemma keeps_run_prog p this args : keeps (configured r s) (run_prog env p this args).
Proof.
  induction p as [| |on a k IH]; simpl; try by intros w.
  destruct (resolve on this args); [|by intros w].
  apply keeps_bind; [apply keeps_call_assertion|done].
Qed.

Lemma keeps_apply f this args : keeps (configured r s) (apply env f this args).
Proof.
  destruct f as [[]|o]; simpl; try by intros w.
  intros w Hw. unfold bind, get; simpl.
  destruct (apply_defined o), (functions w !! identity o) as [p|]; try done.
  apply (keeps_run_prog p this args (logged (Applied (identity o) this args) w)).
  destruct Hw as (s' & Hs' & Hc). by exists s'.
Qed.

Lemma keeps_perform st : keeps (configured r s) (perform env r st).
Proof.
  destruct st as [name|f]; simpl; [|apply keeps_apply].
  intros w (s' & Hs' & Hc). unfold on_suite, bind, suite, modify; simpl.
  rewrite Hs'; simpl. unfold configured; simpl. rewrite lookup_insert_eq.
  eexists; split; [done|]. by destruct Hc as (? & ? & ? & ? & ?).
Qed.

Lemma set_and_callable_hook_ok h :
  hook_ok h ->
  ∀ w, set_and_callable h w = (Normal (negb (strict_eq h JNull)), w).
Proof.
  intros [->|(o & -> & Hc & Ha)] w; [done|].
  unfold set_and_callable; simpl. by rewrite Hc, Ha.
Qed.

(** A hook, tested and applied, is its part of the schedule. *)
Lemma hook_then {A} h (K : M world A) w :
  hook_ok h ->
  (let! go := set_and_callable h in when go (apply env h r [r]) ;;; K) w =
  (for_each (perform env r) (hook_steps h) ;;; K) w.
Proof.
  intros Hh. erewrite bind_normal; [|by apply set_and_callable_hook_ok].
  unfold hook_steps. destruct (strict_eq h JNull); simpl; [done|].
  rewrite bind_assoc. unfold bind. by destruct (apply env h r [r] w) as [[[]|e] w'].
Qed.

Lemma hook_last h w :
  hook_ok h ->
  (let! go := set_and_callable h in when go (apply env h r [r])) w =
  for_each (perform env r) (hook_steps h) w.
Proof.
  intros Hh. erewrite bind_normal; [|by apply set_and_callable_hook_ok].
  unfold hook_steps. destruct (strict_eq h JNull); simpl; [done|].
  unfold bind. by destruct (apply env h r [r] w) as [[[]|e] w'].
Qed.

Lemma cases_in_order l :
  hooks_ok s ->
  eqv_on (configured r s)
    (for_each (fun test =>
       on_suite r (modify (set_currentTestCase (TestCase.name test))) ;;;
       let! this := suite r in
       let! go := set_and_callable (_beforeEach this) in
       when go (apply env (_beforeEach this) r [r]) ;;;
       apply env (TestCase.testCase test) r [r] ;;;
       let! this := suite r in
       let! go := set_and_callable (_afterEach this) in
       when go (apply env (_afterEach this) r [r])) l)
    (for_each (perform env r) (flat_map (case_steps s) l)).
Proof.
  intros (Hb & Ha & Hbe & Hae).
  induction l as [|t l IH]; [by intros w|].
  intros w Hw.
  change (flat_map (case_steps s) (t :: l))
    with (case_steps s t ++ flat_map (case_steps s) l).
  rewrite for_each_app. revert w Hw.
  apply eqv_on_bind; [|apply keeps_for_each, keeps_perform|by intros].
  unfold case_steps.
  change (for_each (perform env r) (SetCurrent (TestCase.name t) :: ?l))
    with (perform env r (SetCurrent (TestCase.name t)) ;;; for_each (perform env r) l).
  apply eqv_on_bind; [by intros w|apply (keeps_perform (SetCurrent _))|]. intros _.
  apply eqv_on_suite. intros s1 (_ & _ & _ & -> & _).
  intros w Hw. rewrite hook_then by done. rewrite for_each_app. revert w Hw.
  apply eqv_on_bind; [by intros w|apply keeps_for_each, keeps_perform|]. intros _.
  change (for_each (perform env r) ([Invoke (TestCase.testCase t)] ++ ?l))
    with (perform env r (Invoke (TestCase.testCase t)) ;;; for_each (perform env r) l).
  apply eqv_on_bind; [by intros w|apply (keeps_perform (Invoke _))|]. intros _.
  apply eqv_on_suite. intros s2 (_ & _ & _ & _ & ->).
  intros w Hw. by apply hook_last.
Qed.

End Order.

Lemma reachable_well_formed env fs w : reachable env fs w -> well_formed w.
Proof.
  apply (reachable_ind_atomic env well_formed fs); [|apply well_formed_atomic].
  intros r s. simpl. by rewrite lookup_empty.
Qed.

Lemma run_as_schedule env w r s :
  hooks_ok s ->
  suites w !! r = Some s ->
  file env = part_000 ∨ _before s ≠ JNull ->
  run env r w =
  (for_each (perform env r) (schedule s) ;;;
   report r ;;;
   per_copy env (ret tt)
     (modify (fun w => mkWorld (suites w) (functions w) (instances w ++ [r]) (trace w))) ;;;
   ret (Reference r)) w.
Proof.
  intros (Hb & Ha & Hbe & Hae) Hs Hfirst.
  assert (configured r s w) as Hcfg by (by exists s).
  clear Hs. revert w Hcfg. unfold run, schedule.
  apply eqv_on_suite. intros s0 (Ht0 & Hb0 & _).
  assert (per_copy env (isCallable (_before s0)) (set_and_callable (_before s0))
          = @set_and_callable (_before s0)) as ->.
  { rewrite Hb0. unfold per_copy. destruct (file env) eqn:Hf; [|done].
    destruct Hfirst as [?|Hnn]; [done|].
    destruct Hb as [?|(o & -> & Hc & Hap)]; done. }
  rewrite Hb0. clear s0 Ht0 Hb0.
  intros w Hw. rewrite hook_then by done. rewrite for_each_app_then. revert w Hw.
  apply eqv_on_bind; [by intros w|apply keeps_for_each, keeps_perform|]. intros _.
  apply eqv_on_suite. intros s1 (-> & _).
  intros w Hw. rewrite for_each_app_then. revert w Hw.
  apply eqv_on_bind;
    [by apply cases_in_order|apply keeps_for_each, keeps_perform|]. intros _.
  apply eqv_on_suite. intros s2 (_ & _ & -> & _).
  intros w Hw. by rewrite hook_then.
Qed.

(** X1: [run], in either copy, on a suite with a [before] hook, and in the
    bundled copy on every suite: the schedule in order, each callback applied
    with the suite as receiver and sole argument, then the report (and, in
    the bundled copy, the entry in [Testify.instances]); the suite is
    returned unless a callback throws. *)
Theorem run_follows_the_schedule env fs w r s :
  reachable env fs w ->
  suites w !! r = Some s ->
  file env = part_000 ∨ _before s ≠ JNull ->
  run env r w =
  (for_each (perform env r) (schedule s) ;;;
   report r ;;;
   per_copy env (ret tt)
     (modify (fun w => mkWorld (suites w) (functions w) (instances w ++ [r]) (trace w))) ;;;
   ret (Reference r)) w.
Proof.
  intros Hw Hs Hfirst.
  pose proof (reachable_well_formed env fs w Hw r s Hs) as Hok.
  by apply run_as_schedule.
Qed.

Lemma run_follows_the_schedule_witness :
  let w := (exec_all sample_env
              [New (JString "suite") JUndefined;
               Before 0 (Object (function 2));
               Test 0 (JString "case") (Object (function 1))]
              (initial sample_functions)).2 in
  let s := default (Constructor JNull JNull) (suites w !! 0%nat) in
  run sample_env 0 w =
  (for_each (perform sample_env 0) (schedule s) ;;;
   report 0 ;;;
   per_copy sample_env (ret tt)
     (modify (fun w => mkWorld (suites w) (functions w) (instances w ++ [0%nat]) (trace w))) ;;;
   ret (Reference 0)) w.
Proof.
  intros w s.
  refine (run_follows_the_schedule sample_env sample_functions w 0 s _ _ (or_introl eq_refl)).
  - apply reachable_exec_all, reachable_initial.
  - vm_compute. reflexivity.
Defined.

Example sample_schedule :
  schedule sample_suite =
  [Invoke (Object (function 2)); SetCurrent (JString "case"); Invoke (Object (function 1))]
  ∧ trace sample_world =
    [Asserted 0 (call_fail JUndefined);
     Applied 2 0 [0%nat]; Asserted 0 (call_pass (JString "set up"));
     Applied 1 0 [0%nat]; Asserted 0 (call_assert (JBool true) JUndefined);
     Asserted 0 (call_assert (JBool false) JUndefined);
     Reported 0].
Proof. vm_compute. split; reflexivity. Qed.

(** ** The end-to-end scenario *)

Lemma run_lib_without_before env w r s :
  suites w !! r = Some s ->
  file env = lib_Testify_js -> _before s = JNull ->
  run env r w = (Thrown TypeError, w).
Proof.
  intros Hs Hf Hb. unfold run.
  erewrite bind_normal; [|unfold suite; by rewrite Hs].
  erewrite bind_thrown; [reflexivity|].
  unfold per_copy. by rewrite Hf, Hb.
Qed.

Lemma scenario_cases env r s1 w n o on1 on2 message1 message2 :
  files (set_currentTestCase (JString n) s1) = true ->
  apply_defined o = true ->
  the_suite on1 -> the_suite on2 ->
  functions w !! identity o = Some (true_then_false on1 on2 message1 message2) ->
  ∃ name1 name2 type1 type2 w',
    (for_each (perform env r) [SetCurrent (JString n); Invoke (Object o)] ;;;
     report r ;;;
     per_copy env (ret tt)
       (modify (fun w => mkWorld (suites w) (functions w) (instances w ++ [r]) (trace w))) ;;;
     ret (Reference r)) (set_suite r s1 w) = (Normal (Reference r), w') ∧
    suites w' !! r =
    Some (recorded (AssertionRecord.mk name2 type2 "fail" (S (S (testIndex s1))) "" "")
            (recorded (AssertionRecord.mk name1 type1 "pass" (S (testIndex s1)) "" "")
               (set_currentTestCase (JString n) s1))).
Proof.
  intros Hfiles Happly Hon1 Hon2 Hbody.
  set (s2 := set_currentTestCase (JString n) s1).
  destruct (true_then_false_runs env r s2
              (logged (Applied (identity o) r [r]) w) on1 on2 message1 message2
              Hfiles Hon1 Hon2)
    as (name1 & name2 & w' & Hrun & Hsu & Hfs & Hin).
  set (s4 := recorded _ (recorded _ s2)) in Hrun.
  exists name1, name2, (bt_toString env s2),
    (bt_toString env (recorded (AssertionRecord.mk name1 (bt_toString env s2) "pass"
                                  (S (testIndex s2)) "" "") s2)).
  assert ((for_each (perform env r) [SetCurrent (JString n); Invoke (Object o)] ;;;
           report r) (set_suite r s1 w)
          = (Normal (Reference r), set_suite r s4 (logged (Reported r) w'))) as Hfirst.
  { unfold for_each. rewrite bind_assoc.
    erewrite bind_normal; [|simpl; rewrite on_suite_set_suite; reflexivity].
    cbn [snd modify]. fold s2. rewrite bind_assoc.
    erewrite bind_normal; cycle 1.
    { cbn [perform]. change (set_suite r _ w) with (set_suite r s2 w).
      rewrite (apply_function env o _ r [r] (set_suite r s2 w) Happly Hbody).
      exact Hrun. }
    rewrite bind_ret_l. unfold report.
    erewrite bind_normal; [|apply suite_set_suite].
    erewrite bind_normal; [|by destruct (ToBoolean _)].
    erewrite bind_normal; [|apply log_set_suite].
    reflexivity. }
  rewrite <- bind_assoc. erewrite bind_normal; [|exact Hfirst].
  unfold per_copy. destruct (file env); eexists; (split; [reflexivity|]);
    simpl; by rewrite lookup_insert_eq.
Qed.

Lemma scenario_run env r hook title cli w n o on1 on2 message1 message2 :
  inherited n = false ->
  apply_defined o = true ->
  the_suite on1 -> the_suite on2 ->
  functions w !! identity o = Some (true_then_false on1 on2 message1 message2) ->
  (hook = Prim JNull ∧ file env = part_000) ∨
  (∃ ob, hook = Object ob ∧ call_defined ob = true ∧ apply_defined ob = true ∧
         functions w !! identity ob = Some Return) ->
  let s1 := set_tests [TestCase.mk (JString n) (Object o) 0 0]
              (set_before hook (Constructor title cli)) in
  (run env r (set_suite r s1 w)).1 = Normal (Reference r) ∧
  one_pass_one_fail r n o (run env r (set_suite r s1 w)).2.
Proof.
  intros Hn Happly Hon1 Hon2 Hbody Hhook s1.
  assert (files (set_currentTestCase (JString n) s1) = true) as Hfiles.
  { unfold files, current_key; simpl. by rewrite Hn, orb_true_r. }
  assert (∃ name1 name2 type1 type2 w',
            run env r (set_suite r s1 w) = (Normal (Reference r), w') ∧
            suites w' !! r =
            Some (recorded (AssertionRecord.mk name2 type2 "fail" 2 "" "")
                    (recorded (AssertionRecord.mk name1 type1 "pass" 1 "" "")
                       (set_currentTestCase (JString n) s1)))) as Hrun.
  { rewrite (run_as_schedule env (set_suite r s1 w) r s1); cycle 1.
    - destruct Hhook as [[-> _]|(ob & -> & ? & ? & _)]; repeat split; try (by left).
      right. by exists ob.
    - simpl. by rewrite lookup_insert_eq.
    - destruct Hhook as [[_ ?]|(ob & -> & _)]; [by left|by right].
    - destruct Hhook as [[-> _]|(ob & -> & Hc & Ha & Hob)].
      + exact (scenario_cases env r s1 w n o on1 on2 message1 message2
                 Hfiles Happly Hon1 Hon2 Hbody).
      + unfold schedule. cbn [_before _after _beforeEach _afterEach tests s1 set_tests
          set_before Constructor hook_steps flat_map case_steps TestCase.name
          TestCase.testCase strict_eq app negb].
        simpl hook_steps. cbn [app for_each].
        rewrite bind_assoc.
        erewrite bind_normal; cycle 1.
        { cbn [perform]. rewrite (apply_function env ob Return r [r] (set_suite r s1 w) Ha Hob).
          simpl run_prog. unfold ret.
          change (logged ?ev (set_suite r s1 w)) with (set_suite r s1 (logged ev w)).
          reflexivity. }
        exact (scenario_cases env r s1 (logged (Applied (identity ob) r [r]) w)
                 n o on1 on2 message1 message2 Hfiles Happly Hon1 Hon2 Hbody). }
  destruct Hrun as (name1 & name2 & type1 & type2 & w' & -> & Hs).
  split; [done|]. cbn [snd].
  eexists _, _. split; [exact Hs|]. split; [done|]. split.
  { unfold recorded at 1. cbn [stack set_suiteResults set_stack set_testIndex].
    rewrite current_item_recorded.
    unfold recorded, current_item, current_key; simpl.
    rewrite lookup_empty; simpl. rewrite insert_insert_eq. reflexivity. }
  by repeat split.
Qed.

Lemma exec_Test_new env r title cli hook name o w :
  call_defined o = true -> apply_defined o = true ->
  exec env (Test r (JString name) (Object o))
    (set_suite r (set_before hook (Constructor title cli)) w)
  = (Normal (Reference r),
     set_suite r (set_tests [TestCase.mk (JString name) (Object o) 0 0]
                    (set_before hook (Constructor title cli))) w).
Proof.
  intros Hcall Happly. unfold exec. erewrite bind_normal; [reflexivity|].
  rewrite on_suite_set_suite.
  unfold test, affirmCallable, isCallable, bind, get, modify, ret; simpl.
  by rewrite Hcall, Happly.
Qed.

Lemma exec_Before_new env r title cli ob w :
  call_defined ob = true -> apply_defined ob = true ->
  exec env (Before r (Object ob)) (set_suite r (Constructor title cli) w)
  = (Normal Undefined, set_suite r (set_before (Object ob) (Constructor title cli)) w).
Proof.
  intros Hcall Happly. unfold exec. erewrite bind_normal; [reflexivity|].
  rewrite on_suite_set_suite.
  unfold before, affirmCallable, isCallable, bind, get, modify, ret; simpl.
  by rewrite Hcall, Happly.
Qed.

Lemma scenario_unfiled env r title cli w n o on1 on2 message1 message2 :
  file env = part_000 ->
  inherited n = true ->
  apply_defined o = true ->
  the_suite on1 ->
  functions w !! identity o = Some (true_then_false on1 on2 message1 message2) ->
  let s1 := set_tests [TestCase.mk (JString n) (Object o) 0 0] (Constructor title cli) in
  (run env r (set_suite r s1 w)).1 = Thrown TypeError ∧
  nothing_filed r 1 (run env r (set_suite r s1 w)).2.
Proof.
  intros Hfile Hn Happly Hon1 Hbody s1.
  set (s2 := set_currentTestCase (JString n) s1).
  assert (files s2 = false) as Hfiles.
  { unfold files, current_key; simpl. by rewrite Hn. }
  assert (resolve on1 r [r] = Some r) as Hres by (by destruct Hon1 as [-> | ->]).
  assert (run env r (set_suite r s1 w) =
          (Thrown TypeError,
           set_suite r (skipped s2)
             (logged (Asserted r (call_assert (JBool true) message1))
                (logged (Applied (identity o) r [r]) w)))) as ->.
  { rewrite (run_as_schedule env (set_suite r s1 w) r s1); cycle 1.
    - repeat split; by left.
    - simpl. by rewrite lookup_insert_eq.
    - by left.
    - apply bind_thrown.
      change (schedule s1) with [SetCurrent (JString n); Invoke (Object o)].
      unfold for_each.
      erewrite bind_normal; [|simpl; rewrite on_suite_set_suite; reflexivity].
      cbn [snd modify]. fold s2. apply bind_thrown.
      cbn [perform]. change (set_suite r _ w) with (set_suite r s2 w).
      rewrite (apply_function env o _ r [r] (set_suite r s2 w) Happly Hbody).
      unfold true_then_false. cbn [run_prog]. rewrite Hres. apply bind_thrown.
      change (logged ?ev (set_suite r s2 w)) with (set_suite r s2 (logged ev w)).
      by rewrite call_assertion_set_suite, (dispatch_skipped env _ s2 Hfiles). }
  split; [done|]. exists (skipped s2). simpl. by rewrite lookup_insert_eq.
Qed.

(** C2, where the code falls short of it.  A new suite with exactly one
    registered test case whose body calls [assert(true)] and then
    [assert(false)] is run.  In the bundled copy, under a case name that is
    not the name of a member of [Object.prototype], the suite then has a
    case-result map with that one case, [pass = 1] and [fail = 1] for it,
    [suiteResults] with [pass = 1] and [fail = 1], and exactly two records,
    a pass with sequence index 1 followed by a fail with index 2, and
    construction, registration and [run] each return the suite; so it is
    in either copy once a [before] hook is set, one that makes no
    assertion.  But in the bundled copy under a case named after a member
    of [Object.prototype], [run] throws a [TypeError] from the first
    assertion, with one index handed out and no record; and in
    [src/lib/Testify/Testify.js] without a [before] hook, [run] throws a
    [TypeError] before the case is run. *)
Theorem one_case_assert_true_then_false env w title cli n o on1 on2 message1 message2 :
  call_defined o = true ->
  apply_defined o = true ->
  the_suite on1 -> the_suite on2 ->
  functions w !! identity o = Some (true_then_false on1 on2 message1 message2) ->
  let r := fresh (dom (suites w)) in
  let out := exec_all env [New title cli; Test r (JString n) (Object o); Run r] w in
  (file env = part_000 -> inherited n = false ->
   out.1 = [Normal (Reference r); Normal (Reference r); Normal (Reference r)] ∧
   one_pass_one_fail r n o out.2) ∧
  (file env = part_000 -> inherited n = true ->
   out.1 = [Normal (Reference r); Normal (Reference r); Thrown TypeError] ∧
   nothing_filed r 1 out.2) ∧
  (file env = lib_Testify_js ->
   out.1 = [Normal (Reference r); Normal (Reference r); Thrown TypeError] ∧
   nothing_filed r 0 out.2) ∧
  (inherited n = false ->
   ∀ ob,
     call_defined ob = true -> apply_defined ob = true ->
     functions w !! identity ob = Some Return ->
     let out := exec_all env [New title cli; Before r (Object ob);
                              Test r (JString n) (Object o); Run r] w in
     out.1 = [Normal (Reference r); Normal Undefined;
              Normal (Reference r); Normal (Reference r)] ∧
     one_pass_one_fail r n o out.2).
Proof.
  intros Hcall Happly Hon1 Hon2 Hbody r out.
  set (s1 := set_tests [TestCase.mk (JString n) (Object o) 0 0] (Constructor title cli)).
  assert (out = ([Normal (Reference r); Normal (Reference r); (run env r (set_suite r s1 w)).1],
                 (run env r (set_suite r s1 w)).2)) as ->.
  { subst out. erewrite exec_all_cons; [|reflexivity].
    erewrite exec_all_cons;
      [|exact (exec_Test_new env r title cli JNull n o w Hcall Happly)].
    erewrite exec_all_cons; [|apply surjective_pairing]. reflexivity. }
  cbn [fst snd].
  split; [|split; [|split]].
  - intros Hfile Hn.
    destruct (scenario_run env r JNull title cli w n o on1 on2 message1 message2
                Hn Happly Hon1 Hon2 Hbody (or_introl (conj eq_refl Hfile))) as [Hc Hw].
    split; [|exact Hw].
    exact (f_equal (fun c => [Normal (Reference r); Normal (Reference r); c]) Hc).
  - intros Hfile Hn.
    destruct (scenario_unfiled env r title cli w n o on1 on2 message1 message2
                Hfile Hn Happly Hon1 Hbody) as [Hc Hw].
    split; [|exact Hw].
    exact (f_equal (fun c => [Normal (Reference r); Normal (Reference r); c]) Hc).
  - intros Hfile.
    erewrite run_lib_without_before; [|simpl; apply lookup_insert_eq|done|done].
    split; [done|]. eexists. simpl. by rewrite lookup_insert_eq.
  - intros Hn ob Hcall' Happly' Hob.
    destruct (scenario_run env r (Object ob) title cli w n o on1 on2 message1 message2
                Hn Happly Hon1 Hon2 Hbody
                (or_intror (ex_intro _ ob (conj eq_refl (conj Hcall' (conj Happly' Hob))))))
      as [Hc Hw].
    erewrite exec_all_cons; [|reflexivity].
    erewrite exec_all_cons; [|exact (exec_Before_new env r title cli ob w Hcall' Happly')].
    erewrite exec_all_cons;
      [|exact (exec_Test_new env r title cli (Object ob) n o w Hcall Happly)].
    erewrite exec_all_cons; [|apply surjective_pairing].
    cbn [exec_all fst snd]. unfold exec.
    split; [|exact Hw].
    exact (f_equal (fun c => [Normal (Reference r); Normal Undefined;
                              Normal (Reference r); c]) Hc).
Qed.

Lemma one_case_assert_true_then_false_witness :
  let w := initial scenario_functions in
  let lib := Env lib_Testify_js (fun _ => ["at recordTest"; "at assert"]) in
  let program n := [New (JString "suite") JUndefined;
                    Test 0 (JString n) (Object (function 1)); Run 0] in
  ((exec_all sample_env (program "case") w).1
     = [Normal (Reference 0); Normal (Reference 0); Normal (Reference 0)] ∧
   one_pass_one_fail 0 "case" (function 1) (exec_all sample_env (program "case") w).2) ∧
  ((exec_all sample_env (program "toString") w).1
     = [Normal (Reference 0); Normal (Reference 0); Thrown TypeError] ∧
   nothing_filed 0 1 (exec_all sample_env (program "toString") w).2) ∧
  ((exec_all lib (program "case") w).1
     = [Normal (Reference 0); Normal (Reference 0); Thrown TypeError] ∧
   nothing_filed 0 0 (exec_all lib (program "case") w).2).
Proof.
  intros w lib program.
  pose proof (fun env n =>
    one_case_assert_true_then_false env w (JString "suite") JUndefined n (function 1)
      This (Arg 0) JUndefined JUndefined eq_refl eq_refl
      (or_introl eq_refl) (or_intror eq_refl) eq_refl) as H.
  split; [exact (proj1 (H sample_env "case") eq_refl eq_refl)|].
  split; [exact (proj1 (proj2 (H sample_env "toString")) eq_refl eq_refl)|].
  exact (proj1 (proj2 (proj2 (H lib "case"))) eq_refl).
Defined.

(** * More of the runtime *)

(** ** The assertion methods as a family *)

Lemma dispatch_name env a s :
  files s = true ->
  dispatch env a s =
  (Normal (verdict a),
   recorded (AssertionRecord.mk (or_else (message_of a) (JString (default_label env a)))
               (bt_toString env s) (outcome (verdict a)) (S (testIndex s)) "" "") s).
Proof. intros H. by rewrite dispatch_named, H. Qed.

Lemma tests_incr_push result r item :
  CaseResult.tests (CaseResult.incr result (CaseResult.push r item))
  = CaseResult.tests item ++ [r].
Proof. unfold CaseResult.incr. by repeat case_match. Qed.

(** X2: An assertion method called with an array where it takes one, on a
    suite that files what is recorded, returns the outcome it has recorded:
    [true] with a pass, [false] with a fail.  On a suite whose current case
    is named after a member of [Object.prototype] and has no entry yet, it
    throws a [TypeError], having handed out an index and nothing more.
    [assertInArray] and [assertNotInArray] called with [undefined], [null],
    a boolean or a number for the array throw a [TypeError] and leave the
    suite as it was; called with a string they look for the argument, as a
    string, within it. *)
Theorem assertion_returns_what_it_records env a s :
  (files s = true ->
   (dispatch env a s).1 = Normal (verdict a) ∧
   records (verdict a) s (dispatch env a s).2) ∧
  (files s = false -> dispatch env a s = (Thrown TypeError, skipped s)) ∧
  (∀ arg p message,
     (∀ str, p ≠ JString str) ->
     assertInArray env arg (NotArray p) message s = (Thrown TypeError, s) ∧
     assertNotInArray env arg (NotArray p) message s = (Thrown TypeError, s)) ∧
  (∀ arg str message,
     files s = true ->
     (assertInArray env arg (NotArray (JString str)) message s).1
       = Normal (String_indexOf str arg >? -1) ∧
     (assertNotInArray env arg (NotArray (JString str)) message s).1
       = Normal (negb (String_indexOf str arg >? -1))).
Proof.
  split; [|split; [|split]].
  - intros Hf. destruct (dispatch_recorded env a s Hf) as [name ->].
    split; [done|apply recorded_records].
  - apply dispatch_skipped.
  - intros arg p message Hp. unfold assertInArray, assertNotInArray, arr_indexOf.
    destruct p; try done. by destruct (Hp s0).
  - intros arg str message Hf. unfold assertInArray, assertNotInArray, arr_indexOf.
    rewrite !bind_ret_l, !recordTest_eq by done. by split.
Qed.

Example assertInArray_without_an_array :
  let s := Constructor (JString "suite") JUndefined in
  assertInArray sample_env (num 1) (NotArray JUndefined) JUndefined s = (Thrown TypeError, s) ∧
  assertInArray sample_env (num 1) (NotArray (JNumber (int 1))) JUndefined s
    = (Thrown TypeError, s) ∧
  (assertInArray sample_env (num 1) (NotArray (JString "a1b")) JUndefined s).1 = Normal true ∧
  (assertInArray sample_env (JString "c") (NotArray (JString "a1b")) JUndefined s).1
    = Normal false.
Proof. vm_compute. by repeat split. Qed.

(** X3: The record an assertion appends, on a suite that files what is
    recorded, is named by the message it was given when that is truthy, and
    by the method's label otherwise (for a missing, empty, zero, [null],
    [false] or [NaN] message); either way by something truthy. *)
Theorem assertion_records_message_or_label env a s :
  files s = true ->
  ∃ r,
    CaseResult.tests (current_item (dispatch env a s).2)
      = CaseResult.tests (current_item s) ++ [r] ∧
    AssertionRecord.name r =
      (if ToBoolean (message_of a) then message_of a
       else Prim (JString (default_label env a))) ∧
    ToBoolean (AssertionRecord.name r) = true.
Proof.
  intros Hf. rewrite dispatch_name by done. cbn [snd]. rewrite current_item_recorded.
  eexists. split; [apply tests_incr_push|].
  cbn [AssertionRecord.name]. unfold or_else.
  destruct (ToBoolean (message_of a)) eqn:Hm; [done|]. split; [done|].
  destruct a; simpl; unfold per_copy; by destruct (file env).
Qed.

Lemma assertion_records_message_or_label_witness :
  let s := Constructor (JString "suite") JUndefined in
  let a := call_assertSame (num 1) (num 1) (num 0) in
  ∃ r,
    CaseResult.tests (current_item (dispatch sample_env a s).2)
      = CaseResult.tests (current_item s) ++ [r] ∧
    AssertionRecord.name r = Prim (JString "Testify.assertSame") ∧
    ToBoolean (AssertionRecord.name r) = true.
Proof.
  exact (assertion_records_message_or_label sample_env
           (call_assertSame (num 1) (num 1) (num 0))
           (Constructor (JString "suite") JUndefined) eq_refl).
Defined.

Lemma strict_eq_loose_eq x y : strict_eq x y = true -> loose_eq x y = true.
Proof.
  destruct x as [p|o], y as [q|o']; simpl; try done.
  destruct p, q; simpl; try done.
Qed.

(** X4: Whatever [assertSame] passes, [assertEquals] passes too, on a suite
    that files what is recorded. *)
Theorem assertSame_pass_implies_assertEquals_pass env arg1 arg2 message s message' s' :
  files s' = true ->
  (assertSame env arg1 arg2 message s).1 = Normal true ->
  (assertEquals env arg1 arg2 message' s').1 = Normal true.
Proof.
  intros Hf'. unfold assertSame, assertEquals.
  rewrite recordTest_cases, (recordTest_eq _ _ _ s') by done. cbn [fst].
  destruct (files s); [|done]. cbn [fst].
  intros [= H]. by rewrite (strict_eq_loose_eq _ _ H).
Qed.

Lemma assertSame_pass_implies_assertEquals_pass_witness :
  (assertEquals sample_env (JString "a") (JString "a") JUndefined sample_suite).1
  = Normal true.
Proof.
  exact (assertSame_pass_implies_assertEquals_pass sample_env (JString "a") (JString "a")
           JUndefined sample_suite JUndefined sample_suite eq_refl eq_refl).
Defined.

(** X5: On a suite that files what is recorded, [assertNotEquals],
    [assertNotSame] and [assertNotInArray] return the opposite of
    [assertEquals], [assertSame] and [assertInArray] on the same arguments:
    of each pair exactly one passes. *)
Theorem negative_assertions_are_opposites env arg1 arg2 arr message s :
  files s = true ->
  (∃ b, (assertEquals env arg1 arg2 message s).1 = Normal b ∧
        (assertNotEquals env arg1 arg2 message s).1 = Normal (negb b)) ∧
  (∃ b, (assertSame env arg1 arg2 message s).1 = Normal b ∧
        (assertNotSame env arg1 arg2 message s).1 = Normal (negb b)) ∧
  (∃ b, (assertInArray env arg1 (Array arr) message s).1 = Normal b ∧
        (assertNotInArray env arg1 (Array arr) message s).1 = Normal (negb b)).
Proof.
  intros Hf.
  unfold assertEquals, assertNotEquals, assertSame, assertNotSame,
    assertInArray, assertNotInArray, arr_indexOf.
  rewrite !bind_ret_l, !recordTest_eq by done. repeat split; by eexists.
Qed.

Lemma negative_assertions_are_opposites_witness :
  let s := Constructor (JString "suite") JUndefined in
  (∃ b, (assertEquals sample_env (num 1) (JString "1") JUndefined s).1 = Normal b ∧
        (assertNotEquals sample_env (num 1) (JString "1") JUndefined s).1
          = Normal (negb b)) ∧
  (∃ b, (assertSame sample_env (num 1) (JString "1") JUndefined s).1 = Normal b ∧
        (assertNotSame sample_env (num 1) (JString "1") JUndefined s).1
          = Normal (negb b)) ∧
  (∃ b, (assertInArray sample_env (num 1) (Array [Prim (JString "1")]) JUndefined s).1
          = Normal b ∧
        (assertNotInArray sample_env (num 1) (Array [Prim (JString "1")]) JUndefined s).1
          = Normal (negb b)).
Proof.
  exact (negative_assertions_are_opposites sample_env (num 1) (JString "1")
           [Prim (JString "1")] JUndefined (Constructor (JString "suite") JUndefined)
           eq_refl).
Defined.

(** X6: The aliases decide as the methods they stand for and leave the same
    suite, up to the message of the record: [assert] as [assertTrue],
    [assertEqual] as [assertEquals], [assertIdentical] as [assertSame]. *)
Theorem aliases_agree_with_their_methods env arg1 arg2 message s :
  ((assert env arg1 message s).1 = (assertTrue env arg1 message s).1 ∧
   erase_suite (assert env arg1 message s).2
     = erase_suite (assertTrue env arg1 message s).2) ∧
  ((assertEqual env arg1 arg2 message s).1 = (assertEquals env arg1 arg2 message s).1 ∧
   erase_suite (assertEqual env arg1 arg2 message s).2
     = erase_suite (assertEquals env arg1 arg2 message s).2) ∧
  ((assertIdentical env arg1 arg2 message s).1 = (assertSame env arg1 arg2 message s).1 ∧
   erase_suite (assertIdentical env arg1 arg2 message s).2
     = erase_suite (assertSame env arg1 arg2 message s).2).
Proof.
  unfold assert, assertTrue, assertEqual, assertEquals, assertIdentical, assertSame.
  rewrite !recordTest_cases. destruct (files s); cbn [fst snd]; [|done].
  repeat split; by apply erase_suite_recorded.
Qed.

Lemma indexOf_from_NaN i arr : indexOf_from i arr (JNumber NaN) = -1.
Proof.
  revert i. induction arr as [|y arr IH]; intros i; simpl; [done|].
  destruct y as [[| | |[]|]|]; simpl; apply IH.
Qed.

(** X7: On a suite that files what is recorded, [assertInArray] fails on an
    empty array whatever is looked for, and fails for [NaN] whatever the
    array, one that holds [NaN] included; [assertNotInArray] passes in both
    cases. *)
Theorem assertInArray_empty_and_NaN env message s :
  files s = true ->
  (∀ arg, (assertInArray env arg (Array []) message s).1 = Normal false ∧
          (assertNotInArray env arg (Array []) message s).1 = Normal true) ∧
  (∀ arr, (assertInArray env (JNumber NaN) (Array arr) message s).1 = Normal false ∧
          (assertNotInArray env (JNumber NaN) (Array arr) message s).1 = Normal true).
Proof.
  intros Hf. unfold assertInArray, assertNotInArray, arr_indexOf.
  split; intros; rewrite !bind_ret_l, !recordTest_eq by done; cbn [fst].
  - done.
  - unfold indexOf. by rewrite indexOf_from_NaN.
Qed.

Lemma assertInArray_empty_and_NaN_witness :
  let s := Constructor (JString "suite") JUndefined in
  (∀ arg, (assertInArray sample_env arg (Array []) JUndefined s).1 = Normal false ∧
          (assertNotInArray sample_env arg (Array []) JUndefined s).1 = Normal true) ∧
  (∀ arr, (assertInArray sample_env (JNumber NaN) (Array arr) JUndefined s).1
            = Normal false ∧
          (assertNotInArray sample_env (JNumber NaN) (Array arr) JUndefined s).1
            = Normal true).
Proof.
  exact (assertInArray_empty_and_NaN sample_env JUndefined
           (Constructor (JString "suite") JUndefined) eq_refl).
Defined.

(** ** Strings and decimal numerals *)

Lemma app_cons a s t : String a s +:+ t = String a (s +:+ t).
Proof. done. Qed.

Lemma app_nil_right s : s +:+ "" = s.
Proof. induction s as [|a s IH]; [done|]. by rewrite app_cons, IH. Qed.

Lemma app_assoc_string s t u : (s +:+ t) +:+ u = s +:+ (t +:+ u).
Proof. induction s as [|a s IH]; [done|]. by rewrite !app_cons, IH. Qed.

Lemma length_app_string s t :
  String.length (s +:+ t) = (String.length s + String.length t)%nat.
Proof. induction s as [|a s IH]; [done|]. rewrite app_cons. simpl. by rewrite IH. Qed.

Lemma zeros_succ n : 0 <= n -> zeros (n + 1) = "0" +:+ zeros n.
Proof.
  intros Hn. unfold zeros. rewrite Z2Nat.inj_add by lia.
  rewrite Nat.add_comm. simpl. by destruct (Z.to_nat n).
Qed.

Lemma zeros_snoc n : 0 <= n -> zeros n +:+ "0" = "0" +:+ zeros n.
Proof.
  intros Hn. pattern n. apply natlike_ind; [done| |done].
  intros x Hx IH. unfold Z.succ. rewrite zeros_succ by done.
  by rewrite app_assoc_string, IH.
Qed.

Lemma length_zeros n : 0 <= n -> Z.of_nat (String.length (zeros n)) = n.
Proof.
  intros Hn. pattern n. apply natlike_ind; [done| |done].
  intros x Hx IH. unfold Z.succ. rewrite zeros_succ by done.
  rewrite length_app_string. simpl. lia.
Qed.

Lemma pretty_N_go_app x s : pretty_N_go x s = pretty_N_go x "" +:+ s.
Proof.
  revert s. induction (N.lt_wf_0 x) as [x _ IH]; intros s.
  assert (x = 0 ∨ 0 < x)%N as [->|Hx] by lia; [done|].
  rewrite !(pretty_N_go_step x) by done.
  assert (x `div` 10 < x)%N as Hlt by (by apply N.div_lt).
  rewrite (IH _ Hlt (String _ s)), (IH _ Hlt (String _ "")).
  by rewrite app_assoc_string.
Qed.

Lemma pretty_N_go_times_ten x s :
  (0 < x)%N -> pretty_N_go (x * 10) s = pretty_N_go x (String "0" s).
Proof.
  intros Hx. rewrite pretty_N_go_step by lia.
  by rewrite N.div_mul, N.Div0.mod_mul.
Qed.

Lemma pretty_N_go_power x e :
  (0 < x)%N -> 0 <= e ->
  pretty_N_go (x * 10 ^ Z.to_N e) "" = pretty_N_go x "" +:+ zeros e.
Proof.
  intros Hx He. pattern e. apply natlike_ind; [| |done].
  - by rewrite N.mul_1_r, app_nil_right.
  - intros n Hn IH. unfold Z.succ. rewrite Z2N.inj_add by lia.
    rewrite N.pow_add_r, N.mul_assoc. change (10 ^ Z.to_N 1)%N with 10%N.
    assert (0 < 10 ^ Z.to_N n)%N as Hpow by (apply N.neq_0_lt_0, N.pow_nonzero; lia).
    rewrite pretty_N_go_times_ten by (by apply N.mul_pos_pos).
    rewrite pretty_N_go_app, IH, app_assoc_string.
    by rewrite zeros_succ, zeros_snoc.
Qed.

Lemma pretty_N_go_length x d s :
  (x < 10 ^ N.of_nat d)%N ->
  (String.length (pretty_N_go x s) <= String.length s + d)%nat.
Proof.
  revert x s. induction d as [|d IH]; intros x s Hx.
  - assert (x = 0%N) as -> by (simpl in Hx; lia). rewrite pretty_N_go_0. lia.
  - assert (x = 0 ∨ 0 < x)%N as [->|Hpos] by lia; [rewrite pretty_N_go_0; lia|].
    rewrite pretty_N_go_step by done.
    etrans; [apply IH|simpl; lia].
    rewrite Nat2N.inj_succ, N.pow_succ_r' in Hx.
    apply N.Div0.div_lt_upper_bound. lia.
Qed.

Lemma pretty_positive_Z z : 0 < z -> pretty z = pretty_N_go (Z.to_N z) "".
Proof. destruct z; try lia. intros _. done. Qed.

Lemma strip_zeros_value fuel m e :
  0 < m ->
  0 < (strip_zeros fuel m e).1 ∧ e <= (strip_zeros fuel m e).2 ∧
  (strip_zeros fuel m e).1 * 10 ^ ((strip_zeros fuel m e).2 - e) = m.
Proof.
  revert m e. induction fuel as [|fuel IH]; intros m e Hm; simpl.
  - rewrite Z.sub_diag. lia.
  - destruct (Z.eqb_spec (m mod 10) 0) as [Hmod|_]; simpl; [|rewrite Z.sub_diag; lia].
    assert (m = 10 * (m / 10)) as Hdiv by (rewrite (Z.div_mod m 10) at 1; lia).
    destruct (IH (m / 10) (e + 1)) as (Hs & He & Hv); [lia|].
    split; [done|]. split; [lia|].
    replace ((strip_zeros fuel (m / 10) (e + 1)).2 - e)
      with (Z.succ ((strip_zeros fuel (m / 10) (e + 1)).2 - (e + 1))) by lia.
    rewrite Z.pow_succ_r by lia. lia.
Qed.

(** The decimal numeral of a count below [10^21], as [Number::toString]
    gives it, is the plain string of its digits. *)
Lemma NumberToString_count n :
  (0 < n)%nat -> Z.of_nat n < 10 ^ 21 ->
  NumberToString (int (Z.of_nat n)) = pretty n.
Proof.
  intros Hn Hlt. unfold int, NumberToString, normal.
  destruct (Z.eqb_spec (Z.of_nat n) 0) as [|_]; [lia|].
  destruct (strip_zeros_value (Z.to_nat (Z.log2_up (Z.abs (Z.of_nat n)))) (Z.of_nat n) 0)
    as (Hs & He & Hv); [lia|].
  destruct (strip_zeros _ _ _) as [s e]. simpl in Hs, He, Hv. rewrite Z.sub_0_r in Hv.
  destruct (Z.eqb_spec s 0) as [|_]; [lia|].
  destruct (Z.ltb_spec s 0) as [|_]; [lia|].
  rewrite Z.abs_eq by lia.
  assert (pretty n = pretty_N_go (N.of_nat n) "") as Hgo.
  { unfold pretty, pretty_nat, pretty, pretty_N. by case_decide; [lia|]. }
  assert (pretty n = pretty s +:+ zeros e) as Hpretty.
  { rewrite Hgo, (pretty_positive_Z s) by done.
    rewrite <- pretty_N_go_power by lia.
    f_equal. apply N2Z.inj.
    rewrite nat_N_Z, N2Z.inj_mul, N2Z.inj_pow, !Z2N.id by lia. done. }
  assert (Z.of_nat (String.length (pretty s)) + e <= 21) as Hlen.
  { pose proof (pretty_N_go_length (N.of_nat n) 21 "") as Hl.
    rewrite <- Hgo, Hpretty, length_app_string in Hl.
    pose proof (length_zeros e He). simpl in Hl.
    assert (N.of_nat n < 10 ^ N.of_nat 21)%N by (change (10 ^ N.of_nat 21)%N
      with (Z.to_N (10 ^ 21)); lia).
    lia. }
  destruct (Z.leb_spec (Z.of_nat (String.length (pretty s)))
              (Z.of_nat (String.length (pretty s)) + e)) as [_|]; [|lia].
  destruct (Z.leb_spec (Z.of_nat (String.length (pretty s)) + e) 21) as [_|]; [|lia].
  simpl. rewrite Hpretty. change ("" +:+ ?x) with x. do 2 f_equal. lia.
Qed.

(** ** Registration *)

Lemma isCallable_callable {S} v (s : S) : callable v -> isCallable v s = (Normal true, s).
Proof. intros (o & -> & Hc & Ha). unfold isCallable, ret. by rewrite Hc, Ha. Qed.

Lemma callable_dec v : callable v ∨ ¬ callable v.
Proof.
  destruct v as [p|o]; [right; by intros (o & ? & _)|].
  destruct (call_defined o) eqn:Hc, (apply_defined o) eqn:Ha;
    try (right; intros (o' & [= <-] & ? & ?); congruence).
  left. by exists o.
Qed.

Lemma affirmCallable_accepts v name s :
  callable v -> affirmCallable v name s = (Normal tt, s).
Proof.
  intros Hv. unfold affirmCallable, bind. by rewrite (isCallable_callable v s Hv).
Qed.

Lemma affirmCallable_rejects v name s :
  ¬ callable v -> ∃ e, affirmCallable v name s = (Thrown e, s).
Proof.
  intros Hv. unfold affirmCallable, bind. destruct v as [[]|o]; simpl; eauto.
  destruct (call_defined o) eqn:Hc, (apply_defined o) eqn:Ha; simpl; eauto.
  destruct Hv. by exists o.
Qed.

Lemma setter_accepts v name (f : Testify -> Testify) s :
  callable v -> (affirmCallable v name ;;; modify f) s = (Normal tt, f s).
Proof. intros Hv. unfold bind. by rewrite affirmCallable_accepts. Qed.

Lemma setter_rejects v name (f : Testify -> Testify) s :
  ¬ callable v -> ∃ e, (affirmCallable v name ;;; modify f) s = (Thrown e, s).
Proof.
  intros Hv. destruct (affirmCallable_rejects v name s Hv) as [e He].
  exists e. unfold bind. by rewrite He.
Qed.

(** X8: Registration is all or nothing.  Each of [before], [after],
    [beforeEach] and [afterEach] stores its argument as the hook and changes
    nothing else, which it does exactly for an object with [call] and
    [apply], or throws and leaves the suite as it was, the hook set before
    included.  [test] throws and leaves the suite as it was, or appends one
    entry after the cases registered so far: its body has [call] and [apply],
    its counters are zero, and it is the first argument under a name made up
    for it or the second under the first as name. *)
Theorem registration_is_all_or_nothing callback name testCase s :
  ((callable callback ∧
    before callback s = (Normal tt, set_before callback s) ∧
    after callback s = (Normal tt, set_after callback s) ∧
    beforeEach callback s = (Normal tt, set_beforeEach callback s) ∧
    afterEach callback s = (Normal tt, set_afterEach callback s)) ∨
   (¬ callable callback ∧
    (∃ e, before callback s = (Thrown e, s)) ∧
    (∃ e, after callback s = (Thrown e, s)) ∧
    (∃ e, beforeEach callback s = (Thrown e, s)) ∧
    (∃ e, afterEach callback s = (Thrown e, s)))) ∧
  ((∃ e, test name testCase s = (Thrown e, s)) ∨
   (∃ t, test name testCase s = (Normal tt, registered t s) ∧
         callable (TestCase.testCase t) ∧
         TestCase.pass t = 0%nat ∧ TestCase.fail t = 0%nat ∧
         (TestCase.testCase t = name ∨
          TestCase.name t = name ∧ TestCase.testCase t = testCase))).
Proof.
  split.
  - unfold before, after, beforeEach, afterEach.
    destruct (callable_dec callback) as [Hc|Hc]; [left|right].
    + split; [done|]. repeat apply conj; by apply setter_accepts.
    + split; [done|]. repeat apply conj; by apply setter_rejects.
  - unfold test, bind, get.
    destruct (callable_dec name) as [Hn|Hn].
    + rewrite (isCallable_callable name s Hn). right.
      rewrite affirmCallable_accepts by done.
      eexists. split; [reflexivity|]. simpl. repeat split; auto.
    + assert (isCallable name s = (Thrown TypeError, s) ∨
              isCallable name s = (Normal false, s)) as [->| ->].
      { destruct name as [[]|o]; simpl; auto. right. unfold ret. f_equal. f_equal.
        destruct (call_defined o) eqn:Hc, (apply_defined o) eqn:Ha; try done.
        destruct Hn. by exists o. }
      { left. by eexists. }
      destruct (callable_dec testCase) as [Ht|Ht].
      * right. rewrite affirmCallable_accepts by done.
        eexists. split; [reflexivity|]. simpl. repeat split; auto.
      * left. destruct (affirmCallable_rejects testCase "test" s Ht) as [e ->]. by eexists.
Qed.

(** X9: A case registered without a name gets the name [Test Case #n], [n] its
    position among the cases counted from one, in plain decimal digits;
    whatever comes as second argument is ignored. *)
Theorem unnamed_cases_are_numbered f testCase s :
  callable f ->
  Z.of_nat (S (length (tests s))) < 10 ^ 21 ->
  test f testCase s =
  (Normal tt,
   registered (TestCase.mk (JString ("Test Case #" +:+ pretty (S (length (tests s))))) f 0 0) s).
Proof.
  intros Hf Hlen. unfold test, bind, get.
  rewrite (isCallable_callable f s Hf). rewrite affirmCallable_accepts by done.
  replace (length (tests s) + 1)%nat with (S (length (tests s))) by lia.
  rewrite NumberToString_count by (done || lia). reflexivity.
Qed.

Lemma unnamed_cases_are_numbered_witness :
  test (Object (function 1)) JUndefined sample_suite =
  (Normal tt,
   registered (TestCase.mk (JString "Test Case #2") (Object (function 1)) 0 0) sample_suite).
Proof.
  refine (unnamed_cases_are_numbered (Object (function 1)) JUndefined sample_suite _ _).
  - exists (function 1). repeat split.
  - vm_compute. reflexivity.
Defined.

(** ** What no call takes back *)

Lemma grown_refl s : grown s s.
Proof. by repeat split. Qed.

Lemma grown_trans s1 s2 s3 : grown s1 s2 -> grown s2 s3 -> grown s1 s3.
Proof.
  intros (Hp & Ht & Hc) (Hp' & Ht' & Hc'). repeat split; [by etrans|congruence..].
Qed.

Lemma grown_admin s s' : admin s s' -> grown s s'.
Proof. destruct 1; repeat split; simpl; try done. by apply prefix_app_r. Qed.

(** X10: No call removes a suite, or removes or reorders the cases registered
    with it: after any call, one that throws included, the suite is there
    with the cases it had, in their order, before any new one, and with its
    title and CLI flag. *)
Theorem cases_are_never_removed env o w r s :
  suites w !! r = Some s ->
  ∃ s', suites (exec env o w).2 !! r = Some s' ∧ grown s s'.
Proof.
  intros Hs.
  refine (suites_rtc env grown grown_refl grown_trans grown_admin _ _
            w _ (steps_exec env o w) r s Hs); clear.
  - intros s0 rec. by repeat split.
  - intros s0. by repeat split.
Qed.

Lemma cases_are_never_removed_witness :
  ∃ s', suites (exec sample_env (Test 0 (JString "more") (Object (function 2)))
                  sample_world).2 !! 0%nat = Some s' ∧
        grown sample_suite s'.
Proof.
  exact (cases_are_never_removed sample_env (Test 0 (JString "more") (Object (function 2)))
           sample_world 0 sample_suite sample_suite_lookup).
Defined.

(** ** Invariants of the suites of a reachable world *)

(** X11: Whatever a client has called, every hook of a suite is [null] or an
    object with [call] and [apply], and so is the body of every registered
    case: a rejected registration leaves no trace, and nothing but the four
    setters and [test] writes them. *)
Theorem hooks_and_bodies_are_callable env fs w r s :
  reachable env fs w ->
  suites w !! r = Some s ->
  hooks_ok s ∧ bodies_callable s.
Proof.
  intros Hw Hs.
  refine (reachable_suite_ind env fs (fun s => hooks_ok s ∧ bodies_callable s)
            _ _ _ _ w Hw r s Hs); clear.
  - intros title isCLI. split; [repeat split; by left|constructor].
  - intros s0 s' Hadm ((Hb & Ha & Hbe & Hae) & Hbodies).
    destruct Hadm; (split; [repeat split; simpl; auto; by right|]); try done.
    apply Forall_app. split; [done|]. by repeat constructor.
  - intros s0 name type b _ Hs0. exact Hs0.
  - intros s0 _ Hs0. exact Hs0.
Qed.

Lemma hooks_and_bodies_are_callable_witness :
  hooks_ok sample_suite ∧ bodies_callable sample_suite.
Proof.
  exact (hooks_and_bodies_are_callable sample_env sample_functions sample_world 0
           sample_suite sample_world_reachable sample_suite_lookup).
Defined.

(** ** Counters and records *)

Lemma sum_over_insert f (m : gmap string CaseResult.t) k x :
  (sum_over f (<[k := x]> m) + from_option f 0%nat (m !! k))%nat
  = (f x + sum_over f m)%nat.
Proof.
  unfold sum_over. destruct (m !! k) as [old|] eqn:Hk; simpl.
  - rewrite <- insert_delete_eq.
    rewrite map_fold_insert_L; [|intros; lia|by rewrite lookup_delete_eq].
    rewrite (map_fold_delete_L _ _ k old m); [lia|intros; lia|done].
  - rewrite map_fold_insert_L; [lia|intros; lia|done].
Qed.

Lemma sum_over_zero f (m : gmap string CaseResult.t) :
  sum_over f m = 0%nat ↔ map_Forall (fun _ item => f item = 0%nat) m.
Proof.
  induction m as [|k x m Hk IH] using map_ind.
  - split; [intros _; apply map_Forall_empty|done].
  - pose proof (sum_over_insert f m k x) as Hsum. rewrite Hk in Hsum. simpl in Hsum.
    rewrite map_Forall_insert by done. rewrite <- IH. lia.
Qed.

Lemma outcomes_incr_push result r item :
  outcomes (CaseResult.incr result (CaseResult.push r item))
  = outcomes item ++ [AssertionRecord.result r].
Proof. unfold outcomes. by rewrite tests_incr_push, fmap_app. Qed.

Lemma case_lines_incr_push result r item :
  case_lines (CaseResult.incr result (CaseResult.push r item))
  = case_lines item ++ [AssertionRecord.line r].
Proof. unfold case_lines. by rewrite tests_incr_push, fmap_app. Qed.

Lemma name_incr_push result r item :
  CaseResult.name (CaseResult.incr result (CaseResult.push r item)) = CaseResult.name item.
Proof. unfold CaseResult.incr. by repeat case_match. Qed.

Lemma count_outcome_snoc o result r item :
  count_outcome o (CaseResult.incr result (CaseResult.push r item))
  = (count_outcome o item + (if decide (AssertionRecord.result r = o) then 1 else 0))%nat.
Proof.
  unfold count_outcome. rewrite outcomes_incr_push, filter_app, length_app. f_equal.
  rewrite filter_cons, filter_nil. by case_decide.
Qed.

Lemma counters_incr_push b r item :
  CaseResult.pass (CaseResult.incr (outcome b) (CaseResult.push r item))
    = (CaseResult.pass item + Nat.b2n b)%nat ∧
  CaseResult.fail (CaseResult.incr (outcome b) (CaseResult.push r item))
    = (CaseResult.fail item + Nat.b2n (negb b))%nat.
Proof. destruct b; simpl; lia. Qed.

Lemma outcome_decide b :
  (if decide (outcome b = "pass") then 1 else 0)%nat = Nat.b2n b ∧
  (if decide (outcome b = "fail") then 1 else 0)%nat = Nat.b2n (negb b).
Proof. destruct b; split; unfold outcome; by case_decide. Qed.

Lemma StronglySorted_snoc l n :
  StronglySorted (fun a b => (a < b)%nat) l ->
  Forall (fun x => (1 <= x <= n)%nat) l ->
  StronglySorted (fun a b => (a < b)%nat) (l ++ [S n]).
Proof.
  induction l as [|x l IH]; simpl; intros Hs Hf; [repeat constructor|].
  inversion Hs; inversion Hf; subst. constructor; [by apply IH|].
  apply Forall_app. split; [done|]. constructor; [lia|constructor].
Qed.

Lemma tallied_item_mono n k item : tallied_item n k item -> tallied_item (S n) k item.
Proof.
  intros (Hk & Hp & Hf & Ho & Hsorted & Hle). repeat apply conj; try done.
  eapply Forall_impl; [exact Hle|]. simpl. intros; lia.
Qed.

Lemma tallied_item_recorded n k item name type b :
  tallied_item n k item ->
  tallied_item (S n) k
    (CaseResult.incr (outcome b)
       (CaseResult.push (AssertionRecord.mk name type (outcome b) (S n) "" "") item)).
Proof.
  intros (Hk & Hp & Hf & Ho & Hsorted & Hle).
  destruct (counters_incr_push b (AssertionRecord.mk name type (outcome b) (S n) "" "") item)
    as [Hp' Hf'].
  destruct (outcome_decide b) as [Hdp Hdf].
  unfold tallied_item.
  rewrite name_incr_push, !count_outcome_snoc, outcomes_incr_push, case_lines_incr_push.
  cbn [AssertionRecord.result AssertionRecord.line].
  rewrite Hp', Hf', Hdp, Hdf, Hp, Hf.
  repeat apply conj; try done.
  - apply Forall_app. split; [done|]. constructor; [|constructor]. destruct b; auto.
  - by apply StronglySorted_snoc.
  - apply Forall_app. split.
    + eapply Forall_impl; [exact Hle|]. simpl. intros; lia.
    + constructor; [lia|constructor].
Qed.

Lemma tallied_current s :
  tallied s -> tallied_item (testIndex s) (current_key s) (current_item s).
Proof.
  intros (_ & Hall & _). unfold current_item.
  destruct (stack s !! current_key s) as [item|] eqn:Hi; simpl.
  - by destruct (Hall _ _ Hi).
  - repeat apply conj; try done; constructor.
Qed.

Lemma current_counter f s :
  f (CaseResult.mk (currentTestCase s) [] 0 0) = 0%nat ->
  from_option f 0%nat (stack s !! current_key s) = f (current_item s).
Proof. intros Hf. unfold current_item. by destruct (stack s !! current_key s). Qed.

Lemma suiteResults_incr b r :
  SuiteResults.pass (SuiteResults.incr (outcome b) r) = (SuiteResults.pass r + Nat.b2n b)%nat ∧
  SuiteResults.fail (SuiteResults.incr (outcome b) r)
    = (SuiteResults.fail r + Nat.b2n (negb b))%nat.
Proof. destruct b; simpl; lia. Qed.

Lemma tallied_recorded s name type b :
  tallied s ->
  tallied (recorded (AssertionRecord.mk name type (outcome b) (S (testIndex s)) "" "") s).
Proof.
  intros Ht. pose proof (tallied_current s Ht) as Hcur.
  destruct Ht as (Hidx & Hall & Hpass & Hfail).
  set (rec := AssertionRecord.mk name type (outcome b) (S (testIndex s)) "" "").
  set (item := CaseResult.incr (outcome b) (CaseResult.push rec (current_item s))).
  assert (stack (recorded rec s) = <[current_key s := item]> (stack s)) as Hstack by done.
  assert (suiteResults (recorded rec s) = SuiteResults.incr (outcome b) (suiteResults s))
    as Hres by done.
  destruct (counters_incr_push b rec (current_item s)) as [Hp Hf].
  destruct (suiteResults_incr b (suiteResults s)) as [Hsp Hsf].
  unfold tallied. rewrite Hstack, Hres, testIndex_recorded.
  repeat apply conj.
  - unfold rec. rewrite suite_total_recorded. lia.
  - apply map_Forall_insert_2.
    + split; [by apply tallied_item_recorded|].
      unfold item. rewrite tests_incr_push. by destruct (CaseResult.tests (current_item s)).
    + eapply map_Forall_impl; [exact Hall|].
      intros k x [Hx Hne]. split; [by apply tallied_item_mono|done].
  - pose proof (sum_over_insert CaseResult.pass (stack s) (current_key s) item) as Hsum.
    rewrite current_counter in Hsum by done. fold item in Hp. lia.
  - pose proof (sum_over_insert CaseResult.fail (stack s) (current_key s) item) as Hsum.
    rewrite current_counter in Hsum by done. fold item in Hf. lia.
Qed.

Lemma tallied_skipped s : tallied s -> tallied (skipped s).
Proof.
  intros (Hidx & Hall & Hpass & Hfail). unfold tallied, skipped, suite_total in *; simpl.
  repeat apply conj; try done; [lia|].
  eapply map_Forall_impl; [exact Hall|].
  intros k x [Hx Hne]. split; [by apply tallied_item_mono|done].
Qed.

Lemma reachable_tallied env fs w r s :
  reachable env fs w -> suites w !! r = Some s -> tallied s.
Proof.
  intros Hw Hs. refine (reachable_suite_ind env fs tallied _ _ _ _ w Hw r s Hs); clear.
  - intros title isCLI. repeat apply conj; done.
  - intros s s' Hadm Ht. destruct (admin_keeps _ _ Hadm) as (Hst & Hsr & Hti).
    unfold tallied, suite_total in *. by rewrite Hst, Hsr, Hti.
  - intros s name type b _. apply tallied_recorded.
  - intros s _. apply tallied_skipped.
Qed.

Lemma outcomes_total l :
  Forall (fun o => o = "pass" ∨ o = "fail") l ->
  length l = (length (filter (fun x => x = "pass") l)
              + length (filter (fun x => x = "fail") l))%nat.
Proof.
  induction 1 as [|o l [-> | ->] _ IH]; [done|..];
    rewrite !filter_cons; repeat case_decide; try done; simpl; lia.
Qed.

Lemma sample_item_lookup : stack sample_suite !! "case" = Some sample_item.
Proof. vm_compute. reflexivity. Qed.

(** X12: In every suite a client can have, an entry of the case-result map is
    filed under the key of its own name, is not empty, and its [pass] and
    [fail] counters are the numbers of its records with that result; every
    record is a pass or a fail, so the two add up to the number of
    records. *)
Theorem case_counters_count_their_records env fs w r s k item :
  reachable env fs w ->
  suites w !! r = Some s ->
  stack s !! k = Some item ->
  ToPropertyKey (CaseResult.name item) = k ∧
  CaseResult.tests item ≠ [] ∧
  CaseResult.pass item = count_outcome "pass" item ∧
  CaseResult.fail item = count_outcome "fail" item ∧
  length (CaseResult.tests item) = (CaseResult.pass item + CaseResult.fail item)%nat.
Proof.
  intros Hw Hs Hk. destruct (reachable_tallied env fs w r s Hw Hs) as (_ & Hall & _).
  destruct (Hall k item Hk) as ((Hkey & Hp & Hf & Ho & _) & Hne).
  repeat apply conj; try done.
  rewrite Hp, Hf. unfold count_outcome. rewrite <- outcomes_total by done.
  unfold outcomes. by rewrite length_fmap.
Qed.

Lemma case_counters_count_their_records_witness :
  ToPropertyKey (CaseResult.name sample_item) = "case" ∧
  CaseResult.tests sample_item ≠ [] ∧
  CaseResult.pass sample_item = count_outcome "pass" sample_item ∧
  CaseResult.fail sample_item = count_outcome "fail" sample_item ∧
  length (CaseResult.tests sample_item)
    = (CaseResult.pass sample_item + CaseResult.fail sample_item)%nat.
Proof.
  exact (case_counters_count_their_records sample_env sample_functions sample_world 0
           sample_suite "case" sample_item
           sample_world_reachable sample_suite_lookup sample_item_lookup).
Defined.

(** X13: The [pass] counter of a suite is the sum of the [pass] counters of its
    cases, its [fail] counter the sum of their [fail] counters; the two
    together are at most [testIndex], and short of it by the assertions that
    were made and not filed. *)
Theorem suite_counters_sum_case_counters env fs w r s :
  reachable env fs w ->
  suites w !! r = Some s ->
  SuiteResults.pass (suiteResults s) = sum_over CaseResult.pass (stack s) ∧
  SuiteResults.fail (suiteResults s) = sum_over CaseResult.fail (stack s) ∧
  (SuiteResults.pass (suiteResults s) + SuiteResults.fail (suiteResults s)
   <= testIndex s)%nat ∧
  (∀ a, files s = true ->
        testIndex (dispatch env a s).2 = S (testIndex s) ∧
        suite_total (dispatch env a s).2 = S (suite_total s)) ∧
  (∀ a, files s = false ->
        testIndex (dispatch env a s).2 = S (testIndex s) ∧
        suite_total (dispatch env a s).2 = suite_total s).
Proof.
  intros Hw Hs. destruct (reachable_tallied env fs w r s Hw Hs) as (Hidx & _ & Hp & Hf).
  split; [done|]. split; [done|]. split; [exact Hidx|]. split.
  - intros a Hfiles. destruct (dispatch_recorded env a s Hfiles) as [name ->].
    cbn [snd]. by rewrite suite_total_recorded.
  - intros a Hfiles. by rewrite (dispatch_skipped env a s Hfiles).
Qed.

Lemma suite_counters_sum_case_counters_witness :
  let s := prototype_suite in
  SuiteResults.pass (suiteResults s) = sum_over CaseResult.pass (stack s) ∧
  SuiteResults.fail (suiteResults s) = sum_over CaseResult.fail (stack s) ∧
  (SuiteResults.pass (suiteResults s) + SuiteResults.fail (suiteResults s)
   <= testIndex s)%nat ∧
  (∀ a, files s = true ->
        testIndex (dispatch sample_env a s).2 = S (testIndex s) ∧
        suite_total (dispatch sample_env a s).2 = S (suite_total s)) ∧
  (∀ a, files s = false ->
        testIndex (dispatch sample_env a s).2 = S (testIndex s) ∧
        suite_total (dispatch sample_env a s).2 = suite_total s).
Proof.
  exact (suite_counters_sum_case_counters sample_env sample_functions prototype_world 0
           prototype_suite prototype_world_reachable prototype_suite_lookup).
Defined.

(** X14: Within a case the records are in the order the assertions were made:
    their sequence indices go strictly up along the list, and none is beyond
    the suite's [testIndex]. *)
Theorem records_of_a_case_are_in_call_order env fs w r s k item :
  reachable env fs w ->
  suites w !! r = Some s ->
  stack s !! k = Some item ->
  StronglySorted (fun a b => (a < b)%nat) (case_lines item) ∧
  Forall (fun l => (1 <= l <= testIndex s)%nat) (case_lines item).
Proof.
  intros Hw Hs Hk. destruct (reachable_tallied env fs w r s Hw Hs) as (_ & Hall & _).
  by destruct (Hall k item Hk) as ((_ & _ & _ & _ & Hsorted & Hle) & _).
Qed.

Lemma records_of_a_case_are_in_call_order_witness :
  StronglySorted (fun a b => (a < b)%nat) (case_lines sample_item) ∧
  Forall (fun l => (1 <= l <= testIndex sample_suite)%nat) (case_lines sample_item).
Proof.
  exact (records_of_a_case_are_in_call_order sample_env sample_functions sample_world 0
           sample_suite "case" sample_item
           sample_world_reachable sample_suite_lookup sample_item_lookup).
Defined.

(** ** What [run] leaves behind *)

Section Callbacks.

Variable env : environment.
Variable I : world -> Prop.
Hypothesis I_assert : ∀ r a, keeps I (call_assertion env r a).
Hypothesis I_applied : ∀ f this args, keeps I (log (Applied f this args)).

Lemma keeps_run_prog_of p this args : keeps I (run_prog env p this args).
Proof.
  induction p as [| |on a k IH]; simpl; try by intros w.
  destruct (resolve on this args); [|by intros w].
  apply keeps_bind; [apply I_assert|done].
Qed.

Lemma keeps_apply_of f this args : keeps I (apply env f this args).
Proof.
  destruct f as [[]|o]; simpl; try by intros w.
  intros w Hw. unfold bind, get; simpl.
  destruct (apply_defined o), (functions w !! identity o) as [p|]; try done.
  apply (keeps_run_prog_of p this args (logged (Applied (identity o) this args) w)).
  apply (I_applied _ _ _ w Hw).
Qed.

End Callbacks.

Lemma reports_snoc tr ev :
  reports (tr ++ [ev]) = reports tr ++ (if is_reported ev then [ev] else []).
Proof.
  unfold reports. induction tr as [|x tr IH]; simpl; [done|].
  rewrite IH. by destruct (is_reported x).
Qed.

Lemma keeps_perform_untouched env r st (instances0 : list nat) (reports0 : list event) :
  keeps (fun w => instances w = instances0 ∧ reports (trace w) = reports0)
    (perform env r st).
Proof.
  destruct st as [name|f]; simpl.
  - intros w Hw. unfold on_suite, bind, suite, modify; simpl.
    by destruct (suites w !! r).
  - apply keeps_apply_of.
    + intros r' a w [Hi Hr]. unfold call_assertion, on_suite, bind, suite, log, modify; simpl.
      destruct (suites w !! r') as [s0|] eqn:Hs0; simpl; [|done].
      rewrite Hs0. destruct (dispatch env a s0); simpl.
      split; [done|]. by rewrite reports_snoc, app_nil_r.
    + intros f0 this args w [Hi Hr]. simpl. split; [done|].
      by rewrite reports_snoc, app_nil_r.
Qed.

Lemma report_there r w :
  is_Some (suites w !! r) -> report r w = (Normal (Reference r), logged (Reported r) w).
Proof.
  intros [s Hs]. unfold report, bind, suite. rewrite Hs.
  by destruct (ToBoolean (isCLI s)).
Qed.

Lemma run_outcome env fs w r s :
  reachable env fs w ->
  suites w !! r = Some s ->
  file env = part_000 ∨ _before s ≠ JNull ->
  run env r w =
  match for_each (perform env r) (schedule s) w with
  | (Normal _, w1) => (Normal (Reference r), finished env r w1)
  | (Thrown e, w1) => (Thrown e, w1)
  end.
Proof.
  intros Hw Hs Hfirst.
  rewrite (run_as_schedule env w r s (reachable_well_formed env fs w Hw r s Hs) Hs Hfirst).
  assert (configured r s (for_each (perform env r) (schedule s) w).2) as Hcfg.
  { apply keeps_for_each; [apply keeps_perform|by exists s]. }
  unfold bind at 1.
  destruct (for_each (perform env r) (schedule s) w) as [[[]|e] w1]; [|done].
  simpl in Hcfg. destruct Hcfg as (s1 & Hs1 & _).
  unfold bind at 1. rewrite report_there by eauto.
  unfold finished, per_copy, bind, modify, ret, logged.
  destruct (file env); simpl; [by rewrite app_nil_r|done].
Qed.

(** X15: What a run on a suite that can be run leaves behind.  While the
    callbacks of the schedule are applied, nothing is reported and
    [Testify.instances] is as it was.  If one of them throws, that is what
    [run] throws, and this is all: no report, no entry in
    [Testify.instances].  If none does, [run] returns the suite, having
    reported it once and (in the bundled copy) added it at the end of
    [Testify.instances]. *)
Theorem run_reports_unless_a_callback_throws env fs w r s :
  reachable env fs w ->
  suites w !! r = Some s ->
  file env = part_000 ∨ _before s ≠ JNull ->
  ∃ c w1,
    for_each (perform env r) (schedule s) w = (c, w1) ∧
    instances w1 = instances w ∧
    reports (trace w1) = reports (trace w) ∧
    run env r w =
    match c with
    | Normal _ => (Normal (Reference r), finished env r w1)
    | Thrown e => (Thrown e, w1)
    end.
Proof.
  intros Hw Hs Hfirst. rewrite (run_outcome env fs w r s Hw Hs Hfirst).
  pose proof (keeps_for_each _ (perform env r) (schedule s)
    (fun st => keeps_perform_untouched env r st (instances w) (reports (trace w)))
    w (conj eq_refl eq_refl)) as [Hi Hr].
  destruct (for_each (perform env r) (schedule s) w) as [c w1]. by exists c, w1.
Qed.

Lemma run_reports_unless_a_callback_throws_witness :
  let w := (exec_all sample_env
              [New (JString "suite") JUndefined;
               Before 0 (Object (function 2));
               Test 0 (JString "case") (Object (function 1))]
              (initial sample_functions)).2 in
  let s := default (Constructor JNull JNull) (suites w !! 0%nat) in
  ∃ c w1,
    for_each (perform sample_env 0) (schedule s) w = (c, w1) ∧
    instances w1 = instances w ∧
    reports (trace w1) = reports (trace w) ∧
    run sample_env 0 w =
    match c with
    | Normal _ => (Normal (Reference 0), finished sample_env 0 w1)
    | Thrown e => (Thrown e, w1)
    end.
Proof.
  intros w s.
  refine (run_reports_unless_a_callback_throws sample_env sample_functions w 0 s _ _
            (or_introl eq_refl)).
  - apply reachable_exec_all, reachable_initial.
  - vm_compute. reflexivity.
Defined.

(** X16: A callback that throws ends the run there: the steps of the schedule
    after it are not performed (no later case, no [afterEach], no [after]),
    [run] throws what the callback threw, and the world is as the callback
    left it, with what was recorded until then. *)
Theorem run_stops_at_the_first_throw env fs w r s l1 st l2 w1 e w2 :
  reachable env fs w ->
  suites w !! r = Some s ->
  file env = part_000 ∨ _before s ≠ JNull ->
  schedule s = l1 ++ st :: l2 ->
  for_each (perform env r) l1 w = (Normal tt, w1) ->
  perform env r st w1 = (Thrown e, w2) ->
  run env r w = (Thrown e, w2).
Proof.
  intros Hw Hs Hfirst Hsched H1 H2.
  rewrite (run_outcome env fs w r s Hw Hs Hfirst), Hsched, for_each_app.
  unfold bind at 1. rewrite H1. simpl. unfold bind. by rewrite H2.
Qed.

Lemma throwing_world_reachable : reachable sample_env throwing_functions throwing_world.
Proof. apply reachable_exec_all, reachable_initial. Qed.

Lemma throwing_suite_lookup : suites throwing_world !! 0%nat = Some throwing_suite.
Proof. vm_compute. reflexivity. Qed.

Lemma run_stops_at_the_first_throw_witness :
  let w1 := (perform sample_env 0 (SetCurrent (JString "first")) throwing_world).2 in
  let w2 := (perform sample_env 0 (Invoke (Object (function 1))) w1).2 in
  run sample_env 0 throwing_world = (Thrown (Uncaught (JString "boom")), w2).
Proof.
  intros w1 w2.
  refine (run_stops_at_the_first_throw sample_env throwing_functions throwing_world 0
            throwing_suite [SetCurrent (JString "first")] (Invoke (Object (function 1)))
            [SetCurrent (JString "second"); Invoke (Object (function 2))]
            w1 (Uncaught (JString "boom")) w2
            throwing_world_reachable throwing_suite_lookup (or_introl eq_refl) _ _ _).
  - vm_compute. reflexivity.
  - vm_compute. reflexivity.
  - vm_compute. reflexivity.
Defined.










(** ** Every call as a sequence of moves *)

Lemma on_suite_state {A} r (m : M Testify A) w :
  (on_suite r m w).2 = w ∨
  ∃ s, suites w !! r = Some s ∧ (on_suite r m w).2 = set_suite r (m s).2 w.
Proof.
  unfold on_suite, bind, suite.
  destruct (suites w !! r) as [s|] eqn:Hs; simpl; [right|by left].
  exists s. split; [done|]. by destruct (m s).
Qed.

Lemma bind_ret_state {S A B} (m : M S A) (g : A -> B) s :
  (bind m (fun a => ret (g a)) s).2 = (m s).2.
Proof. unfold bind. by destruct (m s) as [[a|e] s']. Qed.

Lemma test_state name testCase s :
  (test name testCase s).2 = s ∨
  ∃ t, (test name testCase s).2 = set_tests (tests s ++ [t]) s ∧
       callable (TestCase.testCase t) ∧
       TestCase.pass t = 0%nat ∧ TestCase.fail t = 0%nat.
Proof.
  unfold test, bind, get.
  pose proof (isCallable_state name s) as Hst.
  destruct (isCallable name s) as [[named|e] s0]; simpl in *; subst; auto.
  match goal with
  | |- context [affirmCallable ?c ?n ?x] =>
      pose proof (affirmCallable_state c n x) as Hst;
      pose proof (affirmCallable_callable c n x) as Hc;
      destruct (affirmCallable c n x) as [[[]|e] s1]
  end; simpl in *; subst; auto.
  right. eexists. split; [reflexivity|]. simpl. auto.
Qed.

Lemma keeps_for_each_in I {A} (f : A -> M world unit) l :
  (∀ x, x ∈ l -> keeps I (f x)) -> keeps I (for_each f l).
Proof.
  induction l as [|x l IH]; intros Hf; simpl; [by intros w|].
  apply keeps_bind; [apply Hf; by left|].
  intros _. apply IH. intros y Hy. apply Hf. by right.
Qed.

Lemma hook_steps_invoke h st : st ∈ hook_steps h -> ∃ f, st = Invoke f.
Proof.
  unfold hook_steps. destruct (strict_eq h JNull); [by intros ?%elem_of_nil|].
  intros ->%list_elem_of_singleton. by eexists.
Qed.

Lemma schedule_current s name :
  SetCurrent name ∈ schedule s -> ∃ t, t ∈ tests s ∧ TestCase.name t = name.
Proof.
  unfold schedule. rewrite !elem_of_app. intros [H|[H|H]].
  - by destruct (hook_steps_invoke _ _ H).
  - apply list_elem_of_In, in_flat_map in H. destruct H as (t & Ht & H).
    exists t. split; [by apply list_elem_of_In|].
    apply list_elem_of_In in H. unfold case_steps in H.
    rewrite elem_of_cons, !elem_of_app in H.
    destruct H as [[= ->]|[H|[H|H]]]; [done|..].
    + by destruct (hook_steps_invoke _ _ H).
    + by apply list_elem_of_singleton in H.
    + by destruct (hook_steps_invoke _ _ H).
  - by destruct (hook_steps_invoke _ _ H).
Qed.

Section Moves.

Variable env : environment.
Variable I : world -> Prop.
Hypothesis I_move : ∀ w w', move env w w' -> I w -> I w'.

Lemma I_call_assertion r a w : I w -> I (call_assertion env r a w).2.
Proof.
  intros Hw. unfold call_assertion, on_suite, bind, suite, log, modify; simpl.
  destruct (suites w !! r) as [s|] eqn:Hs; simpl; [|done].
  rewrite Hs. destruct (dispatch env a s) as [c s'] eqn:Hd; simpl.
  replace s' with (dispatch env a s).2 by (by rewrite Hd).
  eapply I_move; [|exact Hw]. by apply move_assert.
Qed.

Lemma I_perform r s st :
  st ∈ schedule s -> keeps (fun w => I w ∧ configured r s w) (perform env r st).
Proof.
  intros Hst. destruct st as [name|f]; simpl.
  - intros w [Hw Hcfg]. split; [|by apply (keeps_perform env r s (SetCurrent name))].
    destruct (schedule_current s name Hst) as (t & Ht & <-).
    destruct Hcfg as (s' & Hs' & (Htests & _)).
    unfold on_suite, bind, suite, modify; simpl. rewrite Hs'. simpl.
    eapply I_move; [|exact Hw]. apply move_current; [done|]. by rewrite Htests.
  - apply keeps_apply_of.
    + intros r' a w [Hw Hcfg]. split; [by apply I_call_assertion|].
      by apply keeps_call_assertion.
    + intros f0 this args w [Hw (s' & Hs' & Hc)]. split; [|by exists s'].
      eapply I_move; [|exact Hw]. apply move_applied.
Qed.

Lemma I_run fs r w : reachable env fs w -> I w -> I (run env r w).2.
Proof.
  intros Hreach Hw. destruct (suites w !! r) as [s|] eqn:Hs.
  2:{ unfold run, bind, suite. by rewrite Hs. }
  assert ((file env = lib_Testify_js ∧ _before s = JNull) ∨
          (file env = part_000 ∨ _before s ≠ JNull)) as [[Hf Hb]|Hfirst].
  { destruct (file env); [|by right; left].
    destruct (_before s) as [[]|]; try (right; right; discriminate). by left. }
  { by rewrite (run_lib_without_before env w r s Hs Hf Hb). }
  rewrite (run_outcome env fs w r s Hreach Hs Hfirst).
  pose proof (keeps_for_each_in (fun w => I w ∧ configured r s w) (perform env r)
    (schedule s) (fun st Hst => I_perform r s st Hst) w) as Hkeep.
  destruct Hkeep as [HI Hcfg]; [split; [done|by exists s]|].
  destruct (for_each (perform env r) (schedule s) w) as [[[]|e] w1]; simpl in *; [|done].
  eapply I_move; [|exact HI]. apply move_finish.
  destruct Hcfg as (s1 & Hs1 & _). eauto.
Qed.

Lemma I_setter r callback name (f : Testify -> Testify) w :
  (∀ s, f s ∈ [set_before callback s; set_after callback s;
               set_beforeEach callback s; set_afterEach callback s]) ->
  I w -> I (on_suite r (affirmCallable callback name ;;; modify f) w).2.
Proof.
  intros Hf Hw.
  destruct (on_suite_state r (affirmCallable callback name ;;; modify f) w)
    as [->|(s & Hs & ->)]; [done|].
  destruct (callable_dec callback) as [Hc|Hc].
  - rewrite setter_accepts by done. simpl. eapply I_move; [|exact Hw].
    by eapply move_hook.
  - destruct (setter_rejects callback name f s Hc) as [e ->]. simpl.
    by rewrite set_suite_same.
Qed.

Lemma I_exec fs o w : reachable env fs w -> I w -> I (exec env o w).2.
Proof.
  intros Hreach Hw. destruct o; simpl; rewrite ?bind_ret_state.
  - eapply I_move; [|exact Hw]. apply move_new.
  - destruct (on_suite_state r (test name testCase) w) as [->|(s & Hs & ->)]; [done|].
    destruct (test_state name testCase s) as [->|(t & -> & Hc & Hp & Hf)].
    + by rewrite set_suite_same.
    + eapply I_move; [|exact Hw]. by apply move_test.
  - apply I_setter; [|done]. intros s. rewrite !elem_of_cons. auto.
  - apply I_setter; [|done]. intros s. rewrite !elem_of_cons. auto.
  - apply I_setter; [|done]. intros s. rewrite !elem_of_cons. auto.
  - apply I_setter; [|done]. intros s. rewrite !elem_of_cons. auto.
  - by eapply I_run.
  - by apply I_call_assertion.
  - destruct (suites w !! r) as [s|] eqn:Hs.
    + rewrite report_there by eauto. simpl. eapply I_move; [|exact Hw].
      apply move_report. eauto.
    + unfold report, bind, suite. by rewrite Hs.
  - destruct (on_suite_state r (affirmCallable callback name) w) as [->|(s & Hs & ->)];
      [done|].
    rewrite affirmCallable_state. by rewrite set_suite_same.
Qed.

(** A property of worlds kept by every move holds of every reachable
    world. *)
Lemma reachable_ind_move fs : I (initial fs) -> ∀ w, reachable env fs w -> I w.
Proof.
  intros H0 w Hw. induction Hw as [|w o Hw IH]; [done|]. by eapply I_exec.
Qed.

End Moves.

(** ** Results belong to registered cases *)

Lemma all_filed_set_suite r s w :
  all_filed w -> filed s -> all_filed (set_suite r s w).
Proof.
  intros Hw Hs r0 s0. simpl. destruct (decide (r0 = r)) as [->|Hne].
  - rewrite lookup_insert_eq. by intros [= <-].
  - rewrite lookup_insert_ne by done. apply Hw.
Qed.

Lemma case_of_suite_more s s' v :
  (∀ t, t ∈ tests s -> t ∈ tests s') -> case_of_suite s v -> case_of_suite s' v.
Proof. intros Hsub [->|(t & Ht & <-)]; [by left|right; eauto]. Qed.

Lemma filed_same s s' :
  tests s' = tests s -> currentTestCase s' = currentTestCase s -> stack s' = stack s ->
  filed s -> filed s'.
Proof.
  intros Ht Hc Hst [Hcur Hall]. unfold filed. rewrite Hc, Hst.
  split; [|intros k item Hk; specialize (Hall k item Hk)];
    (eapply case_of_suite_more; [|eassumption]); intros t; by rewrite Ht.
Qed.

Lemma filed_recorded rec s : filed s -> filed (recorded rec s).
Proof.
  intros [Hcur Hall]. split; [exact Hcur|].
  intros k item. change (stack (recorded rec s))
    with (<[current_key s := CaseResult.incr (AssertionRecord.result rec)
              (CaseResult.push rec (current_item s))]> (stack s)).
  destruct (decide (k = current_key s)) as [->|Hne].
  - rewrite lookup_insert_eq. intros [= <-]. rewrite name_incr_push.
    unfold current_item. destruct (stack s !! current_key s) as [item0|] eqn:Hi; simpl.
    + exact (Hall _ _ Hi).
    + exact Hcur.
  - rewrite lookup_insert_ne by done. apply Hall.
Qed.

Lemma filed_move env w w' : move env w w' -> all_filed w -> all_filed w'.
Proof.
  intros Hmove Hw.
  destruct Hmove as [w title isCLI|w r s t Hs Hc Hp Hf|w r s v s' Hs Hc Hin|w r s t Hs Ht
                    |w r s a Hs|w f this args|w r Hr|w r Hr]; try exact Hw.
  - apply all_filed_set_suite; [done|]. split; [by left|]. intros k item. simpl.
    by rewrite lookup_empty.
  - apply all_filed_set_suite; [done|]. destruct (Hw r s Hs) as [Hcur Hall].
    split; [|intros k item Hk; specialize (Hall k item Hk)];
      (eapply case_of_suite_more; [|eassumption]); intros t0 Ht0; simpl;
      apply elem_of_app; by left.
  - apply all_filed_set_suite; [done|]. specialize (Hw r s Hs).
    rewrite !elem_of_cons in Hin.
    destruct Hin as [->|[->|[->|[->|[]%elem_of_nil]]]]; by apply (filed_same s).
  - apply all_filed_set_suite; [done|]. destruct (Hw r s Hs) as [Hcur Hall].
    split; [right; by exists t|exact Hall].
  - apply all_filed_set_suite; [exact Hw|].
    destruct (dispatch_state env a s) as [[_ [name ->]]|[_ ->]].
    + apply filed_recorded. by apply (Hw r s).
    + by apply (filed_same s), (Hw r s).
Qed.

(** X18: Every entry of the case-result map of a suite carries the name of a
    case registered with the suite, or [null] (for assertions made before
    the first run), and so does the current case: no result is kept under a
    name that is not one of the suite's. *)
Theorem results_are_filed_under_registered_cases env fs w r s :
  reachable env fs w ->
  suites w !! r = Some s ->
  case_of_suite s (currentTestCase s) ∧
  ∀ k item, stack s !! k = Some item -> case_of_suite s (CaseResult.name item).
Proof.
  intros Hw Hs.
  refine (reachable_ind_move env all_filed (filed_move env) fs _ w Hw r s Hs).
  intros r0 s0. simpl. by rewrite lookup_empty.
Qed.

Lemma results_are_filed_under_registered_cases_witness :
  case_of_suite sample_suite (currentTestCase sample_suite) ∧
  ∀ k item, stack sample_suite !! k = Some item ->
    case_of_suite sample_suite (CaseResult.name item).
Proof.
  exact (results_are_filed_under_registered_cases sample_env sample_functions sample_world 0
           sample_suite sample_world_reachable sample_suite_lookup).
Defined.

(** ** The list of instances *)

Lemma is_Some_set_suite r s w r0 :
  is_Some (suites w !! r0) -> is_Some (suites (set_suite r s w) !! r0).
Proof.
  intros H. simpl. destruct (decide (r0 = r)) as [->|Hne].
  - rewrite lookup_insert_eq. eauto.
  - by rewrite lookup_insert_ne.
Qed.

Lemma registry_set_suite env r s w :
  registry_ok env w -> registry_ok env (set_suite r s w).
Proof.
  intros [Hin Hlib]. split; [|exact Hlib].
  intros r0 Hr0. destruct (Hin r0 Hr0) as [Hsome Hrep].
  split; [by apply is_Some_set_suite|exact Hrep].
Qed.

Lemma registry_logged env ev w : registry_ok env w -> registry_ok env (logged ev w).
Proof.
  intros [Hin Hlib]. split; [|exact Hlib].
  intros r0 Hr0. destruct (Hin r0 Hr0) as [Hsome Hrep].
  split; [exact Hsome|]. simpl. apply elem_of_app. by left.
Qed.

Lemma registry_move env w w' : move env w w' -> registry_ok env w -> registry_ok env w'.
Proof.
  intros Hmove Hw.
  destruct Hmove as [w title isCLI|w r s t Hs Hc Hp Hf|w r s v s' Hs Hc Hin|w r s t Hs Ht
                    |w r s a Hs|w f this args|w r Hr|w r Hr];
    try (by apply registry_set_suite); try (by apply registry_logged).
  - by apply registry_set_suite, registry_logged.
  - destruct Hw as [Hin Hlib]. split.
    + intros r0. simpl. rewrite elem_of_app. intros [Hr0|Hr0].
      * destruct (Hin r0 Hr0) as [Hsome Hrep]. split; [done|].
        apply elem_of_app. by left.
      * unfold per_copy in Hr0. destruct (file env); [by apply elem_of_nil in Hr0|].
        apply list_elem_of_singleton in Hr0. subst r0. split; [done|].
        apply elem_of_app. right. by apply list_elem_of_singleton.
    + intros Hf. simpl. unfold per_copy. by rewrite Hf, (Hlib Hf).
Qed.

(** X19: [Testify.instances] of the bundled copy lists only suites that exist
    and that have been reported, by a [run] that went through; the copy
    [src/lib/Testify/Testify.js] keeps no such list. *)
Theorem instances_lists_suites_that_ran env fs w :
  reachable env fs w ->
  (∀ r, r ∈ instances w -> is_Some (suites w !! r) ∧ Reported r ∈ trace w) ∧
  (file env = lib_Testify_js -> instances w = []).
Proof.
  intros Hw.
  refine (reachable_ind_move env (registry_ok env) (registry_move env) fs _ w Hw).
  split; [|done]. intros r. simpl. by intros ?%elem_of_nil.
Qed.

Lemma instances_lists_suites_that_ran_witness :
  (∀ r, r ∈ instances sample_world ->
     is_Some (suites sample_world !! r) ∧ Reported r ∈ trace sample_world) ∧
  (file sample_env = lib_Testify_js -> instances sample_world = []).
Proof.
  exact (instances_lists_suites_that_ran sample_env sample_functions sample_world
           sample_world_reachable).
Defined.

(** ** The helpers of the reports *)

Lemma Math_round_div_spec a b q :
  0 < b -> Math_round_div a b = q ↔ 2 * b * q <= 2 * a + b < 2 * b * (q + 1).
Proof.
  intros Hb. unfold Math_round_div. split.
  - intros <-.
    pose proof (Z.mul_div_le (2 * a + b) (2 * b)).
    pose proof (Z.mul_succ_div_gt (2 * a + b) (2 * b)). lia.
  - intros [H1 H2]. symmetry.
    apply (Z.div_unique _ _ q (2 * a + b - 2 * b * q)); lia.
Qed.

(** X20: [percent] is a whole number from 0 to 100, also for a suite without
    assertions (the division is by [Math.max(sum, 1)]): 0 when nothing
    passed, 100 when something passed and nothing failed. *)
Theorem percent_is_a_whole_percentage suiteResults :
  0 <= percent suiteResults <= 100 ∧
  (SuiteResults.pass suiteResults = 0%nat -> percent suiteResults = 0) ∧
  (SuiteResults.fail suiteResults = 0%nat -> (0 < SuiteResults.pass suiteResults)%nat ->
   percent suiteResults = 100).
Proof.
  unfold percent.
  set (p := Z.of_nat (SuiteResults.pass suiteResults)).
  set (f := Z.of_nat (SuiteResults.fail suiteResults)).
  assert (0 <= p ∧ 0 <= f) as [Hp Hf] by (unfold p, f; lia).
  assert (0 < Z.max (p + f) 1) as Hb by lia.
  repeat apply conj.
  - unfold Math_round_div. apply Z.div_pos; lia.
  - unfold Math_round_div.
    assert ((2 * (p * 100) + Z.max (p + f) 1) / (2 * Z.max (p + f) 1) < 101); [|lia].
    apply Z.div_lt_upper_bound; lia.
  - intros H0. apply Math_round_div_spec; [done|]. unfold p in *. lia.
  - intros H0 Hpos. apply Math_round_div_spec; [done|]. unfold p, f in *. lia.
Qed.

(** X21: [percent] rounds to the nearest whole number, a half going up: it is
    100 exactly when something passed and at most one assertion in 200
    failed, and 0 exactly when nothing passed or fewer than one in 200 did. *)
Theorem percent_rounds_to_the_nearest suiteResults :
  let pass := Z.of_nat (SuiteResults.pass suiteResults) in
  let fail := Z.of_nat (SuiteResults.fail suiteResults) in
  (percent suiteResults = 100 ↔ 0 < pass ∧ 199 * fail <= pass) ∧
  (percent suiteResults = 0 ↔ pass = 0 ∨ 199 * pass < fail).
Proof.
  intros p f. unfold percent. fold p f.
  assert (0 <= p ∧ 0 <= f) as [Hp Hf] by (unfold p, f; lia).
  assert (0 < Z.max (p + f) 1) as Hb by lia.
  split; rewrite Math_round_div_spec by done; lia.
Qed.

Lemma sample_percent :
  percent (SuiteResults.mk 199 1) = 100 ∧ percent (SuiteResults.mk 1 200) = 0 ∧
  percent (SuiteResults.mk 1 2) = 33 ∧ percent (SuiteResults.mk 1 1) = 50 ∧
  percent (SuiteResults.mk 0 0) = 0.
Proof. repeat apply conj; reflexivity. Qed.

Lemma chars_app s t : chars (s +:+ t) = chars s ++ chars t.
Proof. induction s as [|a s IH]; simpl; [done|]. by rewrite <- IH. Qed.

Lemma escape_char_spec m :
  m = "&"%char ∧ escape_char m = "&amp;" ∨
  m = "<"%char ∧ escape_char m = "&lt;" ∨
  m = ">"%char ∧ escape_char m = "&gt;" ∨
  m = "034"%char ∧ escape_char m = "&quot;" ∨
  m = "'"%char ∧ escape_char m = "&#039;" ∨
  ¬ special m ∧ escape_char m = String m "".
Proof.
  unfold escape_char, special.
  destruct (Ascii.eqb_spec m "&"%char) as [->|H1]; [by left|].
  destruct (Ascii.eqb_spec m "<"%char) as [->|H2]; [by right; left|].
  destruct (Ascii.eqb_spec m ">"%char) as [->|H3]; [by right; right; left|].
  destruct (Ascii.eqb_spec m "034"%char) as [->|H4]; [by right; right; right; left|].
  destruct (Ascii.eqb_spec m "'"%char) as [->|H5]; [by right; right; right; right; left|].
  do 5 right. split; [|done]. by intros [?|[?|[?|[?|?]]]].
Qed.

Lemma replace_specials_safe s :
  Forall (fun c => c ≠ "<"%char ∧ c ≠ ">"%char ∧ c ≠ "034"%char ∧ c ≠ "'"%char)
    (chars (replace_specials s)).
Proof.
  induction s as [|m s IH]; simpl; [constructor|].
  rewrite chars_app. apply Forall_app. split; [|exact IH].
  destruct (escape_char_spec m) as [[_ ->]|[[_ ->]|[[_ ->]|[[_ ->]|[[_ ->]|[Hm ->]]]]]];
    try (repeat constructor; discriminate).
  constructor; [|constructor]. unfold special in Hm.
  repeat apply conj; intros ->; apply Hm; auto.
Qed.

Lemma replace_specials_plain s :
  Forall (fun c => ¬ special c) (chars s) -> replace_specials s = s.
Proof.
  induction s as [|m s IH]; simpl; [done|]. intros Hs.
  apply Forall_cons in Hs as [Hm Hs]. rewrite (IH Hs).
  destruct (escape_char_spec m) as [[Hx _]|[[Hx _]|[[Hx _]|[[Hx _]|[[Hx _]|[_ ->]]]]]];
    [exfalso; apply Hm; unfold special; auto..|done].
Qed.

Lemma escapeHtml_string s : escapeHtml (JString s) = Normal (replace_specials s).
Proof. by destruct s. Qed.

(** X22: What [escapeHtml] returns for a string has no angle bracket and no
    quote of either kind left in it, and a string with none of the five
    characters it replaces comes back as it is. *)
Theorem escapeHtml_leaves_no_markup s :
  ∃ out, escapeHtml (JString s) = Normal out ∧
    Forall (fun c => c ≠ "<"%char ∧ c ≠ ">"%char ∧ c ≠ "034"%char ∧ c ≠ "'"%char)
      (chars out) ∧
    (Forall (fun c => ¬ special c) (chars s) -> out = s).
Proof.
  exists (replace_specials s). rewrite escapeHtml_string.
  split; [done|]. split; [apply replace_specials_safe|apply replace_specials_plain].
Qed.

Lemma replace_specials_inj s t : replace_specials s = replace_specials t -> s = t.
Proof.
  revert t. induction s as [|a s IH]; intros [|b t]; simpl; [done|..].
  - by destruct (escape_char_spec b) as [[_ ->]|[[_ ->]|[[_ ->]|[[_ ->]|[[_ ->]|[_ ->]]]]]].
  - by destruct (escape_char_spec a) as [[_ ->]|[[_ ->]|[[_ ->]|[[_ ->]|[[_ ->]|[_ ->]]]]]].
  - destruct (escape_char_spec a) as [[-> ->]|[[-> ->]|[[-> ->]|[[-> ->]|[[-> ->]|[Ha ->]]]]]];
      destruct (escape_char_spec b)
        as [[-> ->]|[[-> ->]|[[-> ->]|[[-> ->]|[[-> ->]|[Hb ->]]]]]];
      simpl; intros H; injection H; clear H; intros; subst;
      try discriminate;
      try (f_equal; by apply IH);
      try (exfalso; apply Ha; unfold special; by auto);
      try (exfalso; apply Hb; unfold special; by auto).
Qed.

(** X23: [escapeHtml] loses nothing: two different strings are escaped to two
    different strings, so text that already looks escaped is not confused
    with the text it looks like. *)
Theorem escapeHtml_tells_strings_apart s t :
  s ≠ t -> escapeHtml (JString s) ≠ escapeHtml (JString t).
Proof.
  intros Hne. rewrite !escapeHtml_string. intros [= H].
  by apply Hne, replace_specials_inj.
Qed.

Lemma escapeHtml_tells_strings_apart_witness :
  escapeHtml (JString "<") ≠ escapeHtml (JString "&lt;").
Proof.
  refine (escapeHtml_tells_strings_apart "<" "&lt;" _). discriminate.
Defined.



Lemma loose_eq_prim p q : loose_eq (Prim p) (Prim q) = prim_loose_eq p q.
Proof. by destruct p. Qed.






(** A message that is an empty array, one that is an array holding a zero,
    and one that is an array holding a word. *)
Example identification_of_array_messages :
  let named o := identification (AssertionRecord.mk (Object o) "" "pass" 1 "" "") in
  named (Obj 7 (JString "") "" false false) = JString "()" ∧
  named (Obj 8 (JNumber (int 0)) "0" false false) = JString "()" ∧
  named (Obj 9 (JString "word") "word" false false)
    = Object (Obj 9 (JString "word") "word" false false).
Proof. vm_compute. by repeat split. Qed.

Lemma caseClass_pass fail : caseClass fail = "pass" ↔ fail = 0%nat.
Proof. unfold caseClass. destruct (Nat.ltb_spec 0 fail); split; try done; lia. Qed.

Lemma report_result_pass s :
  report_result s = "pass" ↔ SuiteResults.fail (suiteResults s) = 0%nat.
Proof. unfold report_result. by destruct (Nat.eqb_spec (SuiteResults.fail (suiteResults s)) 0). Qed.

(** X25: The verdict of the HTML report on a suite is [pass] exactly when every
    case of the suite is shown as a pass. *)
Theorem suite_passes_when_every_case_passes env fs w r s :
  reachable env fs w ->
  suites w !! r = Some s ->
  report_result s = "pass" ↔
  ∀ k item, stack s !! k = Some item -> caseClass (CaseResult.fail item) = "pass".
Proof.
  intros Hw Hs. destruct (reachable_tallied env fs w r s Hw Hs) as (_ & _ & _ & Hf).
  rewrite report_result_pass, Hf, sum_over_zero. unfold map_Forall.
  split; intros H k item Hk; by apply caseClass_pass, (H k item).
Qed.

Lemma suite_passes_when_every_case_passes_witness :
  report_result sample_suite = "pass" ↔
  ∀ k item, stack sample_suite !! k = Some item ->
    caseClass (CaseResult.fail item) = "pass".
Proof.
  exact (suite_passes_when_every_case_passes sample_env sample_functions sample_world 0
           sample_suite sample_world_reachable sample_suite_lookup).
Defined.

(** ** More on the assertions *)

Lemma number_eq_sym a b : number_eq a b = number_eq b a.
Proof.
  destruct a as [|x|m e], b as [|y|m' e']; simpl; try done.
  - by destruct x, y.
  - destruct (normal m e) as [p q], (normal m' e') as [p' q'].
    by rewrite (Z.eqb_sym p), (Z.eqb_sym q).
Qed.

Lemma prim_strict_eq_sym p q : prim_strict_eq p q = prim_strict_eq q p.
Proof.
  destruct p as [| |a|a|a], q as [| |b|b|b]; simpl; try done.
  - by destruct a, b.
  - apply number_eq_sym.
  - apply String.eqb_sym.
Qed.

Lemma prim_loose_eq_sym p q : prim_loose_eq p q = prim_loose_eq q p.
Proof.
  destruct p as [| |a|a|a], q as [| |b|b|b]; cbn [prim_loose_eq unbool prim_strict_eq];
    try done; try apply number_eq_sym; try apply String.eqb_sym.
  by destruct a, b.
Qed.

Lemma strict_eq_sym x y : strict_eq x y = strict_eq y x.
Proof.
  destruct x as [p|o], y as [q|o']; simpl; try done.
  - apply prim_strict_eq_sym.
  - apply Nat.eqb_sym.
Qed.

Lemma loose_eq_sym x y : loose_eq x y = loose_eq y x.
Proof.
  destruct x as [p|o], y as [q|o'].
  - rewrite !loose_eq_prim. apply prim_loose_eq_sym.
  - destruct p; cbn [loose_eq]; try done; apply prim_loose_eq_sym.
  - destruct q; cbn [loose_eq]; try done; apply prim_loose_eq_sym.
  - apply Nat.eqb_sym.
Qed.

(** X26: The equality assertions do not tell expected from actual: with the two
    values swapped, [assertEquals], [assertNotEquals], [assertSame] and
    [assertNotSame] decide the same. *)
Theorem equality_assertions_are_symmetric env arg1 arg2 message s :
  (assertEquals env arg1 arg2 message s).1 = (assertEquals env arg2 arg1 message s).1 ∧
  (assertNotEquals env arg1 arg2 message s).1 = (assertNotEquals env arg2 arg1 message s).1 ∧
  (assertSame env arg1 arg2 message s).1 = (assertSame env arg2 arg1 message s).1 ∧
  (assertNotSame env arg1 arg2 message s).1 = (assertNotSame env arg2 arg1 message s).1.
Proof.
  unfold assertEquals, assertNotEquals, assertSame, assertNotSame.
  rewrite !recordTest_cases. destruct (files s); cbn [fst]; [|done].
  by rewrite (loose_eq_sym arg1 arg2), (strict_eq_sym arg1 arg2).
Qed.

Lemma number_eq_one_zero a : number_eq a (int 1) = true -> number_eq a (int 0) = false.
Proof.
  destruct a as [|x|m e]; simpl; try done.
  destruct (normal m e) as [p q].
  change (normal 1 0) with (1, 0). change (normal 0 0) with (0, 0).
  destruct (Z.eqb_spec p 1) as [->|]; by simpl.
Qed.

Lemma prim_true_not_false p :
  prim_loose_eq p (JBool true) = true -> prim_loose_eq p (JBool false) = false.
Proof.
  destruct p as [| |b|a|a]; cbn [prim_loose_eq unbool prim_strict_eq]; try done.
  - by destruct b.
  - apply number_eq_one_zero.
  - apply number_eq_one_zero.
Qed.

(** X27: [assertTrue] and [assertFalse] never both pass on one value, but they
    are not each other's opposite: on [null], [undefined], [NaN] and [2]
    both return [false], on a suite that files what is recorded. *)
Theorem assertTrue_and_assertFalse_never_both_pass env arg message s :
  ((assertTrue env arg message s).1 = Normal true ->
   (assertFalse env arg message s).1 = Normal false) ∧
  (files s = true ->
   ∀ v, v = Prim JNull ∨ v = Prim JUndefined ∨ v = Prim (JNumber NaN) ∨ v = num 2 ->
     (assertTrue env v message s).1 = Normal false ∧
     (assertFalse env v message s).1 = Normal false).
Proof.
  unfold assertTrue, assertFalse. split.
  - rewrite !recordTest_cases. destruct (files s); cbn [fst]; [|done].
    intros [= H]. f_equal.
    destruct arg as [p|o]; [rewrite loose_eq_prim in *|cbn [loose_eq] in *];
      by apply prim_true_not_false.
  - intros Hf v [->|[->|[->| ->]]]; rewrite !recordTest_eq by done; by split.
Qed.

Lemma assertTrue_and_assertFalse_never_both_pass_witness :
  let s := Constructor (JString "suite") JUndefined in
  (assertFalse sample_env (num 1) JUndefined s).1 = Normal false ∧
  (assertTrue sample_env (num 2) JUndefined s).1 = Normal false ∧
  (assertFalse sample_env (num 2) JUndefined s).1 = Normal false.
Proof.
  intros s.
  destruct (assertTrue_and_assertFalse_never_both_pass sample_env (num 1) JUndefined s)
    as [H1 H2].
  split; [exact (H1 eq_refl)|].
  exact (H2 eq_refl (num 2) (or_intror (or_intror (or_intror eq_refl)))).
Defined.

(** X28: Cases whose names convert to the same property key, two cases of the
    same name among them, share one entry of the case-result map: an
    assertion made while the second is the current case is appended to the
    entry the first has made, which keeps its name, and no entry is added. *)
Theorem cases_with_the_same_key_share_an_entry env a name s item :
  stack s !! ToPropertyKey name = Some item ->
  ∃ r,
    stack (dispatch env a (set_currentTestCase name s)).2 !! ToPropertyKey name
      = Some (CaseResult.incr (AssertionRecord.result r) (CaseResult.push r item)) ∧
    CaseResult.name (CaseResult.incr (AssertionRecord.result r) (CaseResult.push r item))
      = CaseResult.name item ∧
    dom (stack (dispatch env a (set_currentTestCase name s)).2) = dom (stack s).
Proof.
  intros Hitem.
  assert (files (set_currentTestCase name s) = true) as Hf.
  { unfold files, current_key. cbn [currentTestCase stack set_currentTestCase].
    by rewrite Hitem, bool_decide_is_Some. }
  destruct (dispatch_recorded env a (set_currentTestCase name s) Hf) as [n ->]. cbn [snd].
  exists (AssertionRecord.mk n (bt_toString env (set_currentTestCase name s))
            (outcome (verdict a)) (S (testIndex s)) "" "").
  unfold recorded, current_item, current_key. simpl. rewrite Hitem. simpl.
  rewrite lookup_insert_eq. split; [reflexivity|]. split; [apply name_incr_push|].
  by rewrite dom_insert_lookup_L.
Qed.

Lemma cases_with_the_same_key_share_an_entry_witness :
  ∃ r,
    stack (dispatch sample_env (call_pass JUndefined)
             (set_currentTestCase (JString "case") sample_suite)).2 !! "case"
      = Some (CaseResult.incr (AssertionRecord.result r) (CaseResult.push r sample_item)) ∧
    CaseResult.name (CaseResult.incr (AssertionRecord.result r) (CaseResult.push r sample_item))
      = CaseResult.name sample_item ∧
    dom (stack (dispatch sample_env (call_pass JUndefined)
                  (set_currentTestCase (JString "case") sample_suite)).2)
      = dom (stack sample_suite).
Proof.
  exact (cases_with_the_same_key_share_an_entry sample_env (call_pass JUndefined)
           (JString "case") sample_suite sample_item sample_item_lookup).
Defined.

(** ** The verdict and the percentage *)

(** X29: A suite the HTML report gives the verdict [pass] is shown at 100
    percent, unless no assertion was ever filed on it (none was made, or
    none but under a case named after a member of [Object.prototype]): then
    the verdict is [pass] all the same, at 0 percent. *)
Theorem passing_suite_is_at_100_percent_unless_empty s :
  report_result s = "pass" ->
  suite_total s = 0%nat ∧ percent (suiteResults s) = 0 ∨
  (0 < suite_total s)%nat ∧ percent (suiteResults s) = 100.
Proof.
  intros Hpass. apply report_result_pass in Hpass.
  assert (0 < Z.max (Z.of_nat (SuiteResults.pass (suiteResults s)) + 0) 1) as Hb by lia.
  unfold percent, suite_total. rewrite Hpass, Nat.add_0_r. change (Z.of_nat 0) with 0.
  destruct (SuiteResults.pass (suiteResults s)) as [|n]; [left|right]; (split; [lia|]);
    apply Math_round_div_spec; lia.
Qed.

Lemma passing_suite_is_at_100_percent_unless_empty_witness :
  let w := (exec_all sample_env
              [New (JString "suite") JUndefined; Assertion 0 (call_pass JUndefined)]
              (initial sample_functions)).2 in
  let s := default (Constructor JNull JNull) (suites w !! 0%nat) in
  suite_total s = 0%nat ∧ percent (suiteResults s) = 0 ∨
  (0 < suite_total s)%nat ∧ percent (suiteResults s) = 100.
Proof.
  intros w s. refine (passing_suite_is_at_100_percent_unless_empty s _).
  vm_compute. reflexivity.
Defined.

(** The suite with the cases [first] and [toString], when only the second
    has run: an index handed out, nothing filed, the verdict [pass] at 0
    percent. *)
Example unfiled_suite_passes_at_0_percent :
  let w := (exec_all sample_env
              [New (JString "suite") JUndefined;
               Test 0 (JString "toString") (Object (function 2)); Run 0]
              (initial sample_functions)).2 in
  let s := default (Constructor JNull JNull) (suites w !! 0%nat) in
  (testIndex s, suite_total s, report_result s, percent (suiteResults s))
  = (1%nat, 0%nat, "pass", 0).
Proof. vm_compute. reflexivity. Qed.
